(** * Neon Space Shooter: [src/index.tsx]

    A shallow embedding of the game entities, of [initGame], [initEnemies],
    [checkCollision] and of the body of [animate], followed by the
    properties of the simulation that the specification states; then of
    the audio service, of the [draw] methods and of the [App] component
    with its handlers, followed by further properties of the code.

    Modelling conventions.
    - JavaScript numbers that hold coordinates and speeds are exact rationals
      ([Q], compared with [==]); a number that is stored in an entity is
      stored in lowest terms ([Qred]). The counters [score], [lives],
      [level], [enemyDir] and the millisecond clock only ever receive
      integers and are [Z].
    - [Math.random()] and [Date.now()] are read from an environment [Env]:
      the k-th call of [Math.random] in a frame returns [random env k].
    - [audioService.playSound] and the React setters [setScore], [setLives],
      [setGameState] are recorded as [Event]s, in call order.
    - Canvas drawing ([draw], [ctx]) has no effect on the game world and is
      left out of the frame; sections 7 to 9 model the audio service, the
      drawing and the component around the frame. *)

From Stdlib Require Import ZArith QArith Qround Lqa Lia List Bool String Ascii.
From Stdlib Require Import DecimalString DecimalPos.
Import ListNotations.

Set Implicit Arguments.

(** ** 1. Configuration and types *)

Inductive GameState := START | PLAYING | GAMEOVER | PAUSED.

Definition GameState_eqb (a b : GameState) : bool :=
  match a, b with
  | START, START | PLAYING, PLAYING | GAMEOVER, GAMEOVER | PAUSED, PAUSED => true
  | _, _ => false
  end.

Record InputState := { left : bool; right : bool; shoot : bool }.

Module COLORS.
Definition blue : string := "#00ffff".
Definition pink : string := "#ff00ff".
Definition green : string := "#00ff00".
Definition red : string := "#ff0000".
Definition yellow : string := "#ffff00".
Definition white : string := "#ffffff".
Definition bg : string := "#050505".
End COLORS.

Definition GAME_WIDTH : Q := 800.
Definition GAME_HEIGHT : Q := 600.

(** Strict comparison of rationals as a boolean ([Qle_bool] is the library's
    non-strict one). *)
Definition Qlt_bool (a b : Q) : bool := negb (Qle_bool b a).

Infix "<?" := Qlt_bool (at level 70, no associativity) : Q_scope.
Infix "<=?" := Qle_bool (at level 70, no associativity) : Q_scope.

(** ** 2. The host: audio, React setters, clock and random source *)

Inductive Sound := snd_shoot | snd_explosion | snd_gameover | snd_powerup.

Inductive Event :=
| PlaySound (s : Sound)
| SetScore (n : Z)
| SetLives (n : Z)
| SetGameState (s : GameState).

Record Env := { input : InputState; now : Z; random : nat -> Q }.

(** What the frame has done to the host so far: the game state requested
    through [setGameState], the number of [Math.random] calls, and the
    events emitted, most recent first. *)
Record Host := { gameState : GameState; randomCalls : nat; events : list Event }.

(** Code that reads the environment and mutates a store [W] and the host. *)
Definition M (W A : Type) : Type := Env -> W -> Host -> A * W * Host.

Definition ret {W A} (a : A) : M W A := fun _ w h => (a, w, h).

Definition bind {W A B} (m : M W A) (k : A -> M W B) : M W B :=
  fun env w h => let '(a, w1, h1) := m env w h in k a env w1 h1.

Declare Scope sim_scope.
Delimit Scope sim_scope with sim.
Notation "x <- m ;; k" := (bind m (fun x => k))
  (at level 61, m at next level, right associativity) : sim_scope.
Notation "m ;; k" := (bind m (fun _ => k))
  (at level 61, right associativity) : sim_scope.
Open Scope sim_scope.

Definition gets {W A} (f : W -> A) : M W A := fun _ w h => (f w, w, h).
Definition modify {W} (f : W -> W) : M W unit := fun _ w h => (tt, f w, h).

Definition emit {W} (e : Event) : M W unit :=
  fun _ w h => (tt, w, {| gameState := gameState h;
                          randomCalls := randomCalls h;
                          events := e :: events h |}).

Definition playSound {W} (s : Sound) : M W unit := emit (PlaySound s).
Definition setScore {W} (n : Z) : M W unit := emit (SetScore n).
Definition setLives {W} (n : Z) : M W unit := emit (SetLives n).

Definition setGameState {W} (s : GameState) : M W unit :=
  fun _ w h => (tt, w, {| gameState := s;
                          randomCalls := randomCalls h;
                          events := SetGameState s :: events h |}).

Definition Math_random {W} : M W Q :=
  fun env w h => (random env (randomCalls h), w,
                  {| gameState := gameState h;
                     randomCalls := S (randomCalls h);
                     events := events h |}).

Definition Date_now {W} : M W Z := fun env w h => (now env, w, h).

Definition getInput {W} : M W InputState := fun env w h => (input env, w, h).

(** [arr.forEach(f)] where [f] may mutate the element it is given and the
    store: the elements are visited in order and the mutated elements are
    returned. *)
Fixpoint forEach {W A} (f : A -> M W A) (l : list A) : M W (list A) :=
  match l with
  | [] => ret []
  | a :: l' => a' <- f a ;; r <- forEach f l' ;; ret (a' :: r)
  end.

(** A [forEach] whose callback also assigns [b], a variable of the enclosing
    function: a local flag, or the object that the enclosing callback is
    working on. *)
Fixpoint forEachWith {W A B} (f : B -> A -> M W (B * A)) (b : B) (l : list A)
  : M W (B * list A) :=
  match l with
  | [] => ret (b, [])
  | a :: l' =>
      ba <- f b a ;;
      br <- forEachWith f (fst ba) l' ;;
      ret (fst br, snd ba :: snd br)
  end.

(** [for (let i = 0; i < n; i++) body] *)
Fixpoint repeatM {W} (n : nat) (body : M W unit) : M W unit :=
  match n with
  | O => ret tt
  | S n' => body ;; repeatM n' body
  end.

(** ** 3. Game entities *)

Module GameObject.
Record t := {
  x : Q;
  y : Q;
  width : Q;
  height : Q;
  color : string;
  markedForDeletion : bool
}.

(** A position is stored in lowest terms ([Qred]), which does not change
    its value. *)
Definition new (x y width height : Q) (color : string) : t :=
  {| x := Qred x; y := Qred y; width := width; height := height; color := color;
     markedForDeletion := false |}.

Definition set_x (o : t) (v : Q) : t :=
  {| x := Qred v; y := y o; width := width o; height := height o;
     color := color o; markedForDeletion := markedForDeletion o |}.

Definition set_y (o : t) (v : Q) : t :=
  {| x := x o; y := Qred v; width := width o; height := height o;
     color := color o; markedForDeletion := markedForDeletion o |}.

Definition set_color (o : t) (c : string) : t :=
  {| x := x o; y := y o; width := width o; height := height o;
     color := c; markedForDeletion := markedForDeletion o |}.

Definition set_markedForDeletion (o : t) (b : bool) : t :=
  {| x := x o; y := y o; width := width o; height := height o;
     color := color o; markedForDeletion := b |}.
End GameObject.

Module Player.
Record t := { obj :> GameObject.t; speed : Q; lastShot : Z }.

Definition new : t :=
  {| obj := GameObject.new (GAME_WIDTH / 2 - 20) (GAME_HEIGHT - 60) 40 40 COLORS.blue;
     speed := 8;
     lastShot := 0 |}.

Definition set_x (this : t) (v : Q) : t :=
  {| obj := GameObject.set_x this v; speed := speed this; lastShot := lastShot this |}.

Definition set_lastShot (this : t) (v : Z) : t :=
  {| obj := obj this; speed := speed this; lastShot := v |}.

(** The horizontal movement of [update]: its first two statements. *)
Definition move (input : InputState) (this : t) : t :=
  let this :=
    if left input && (0 <? GameObject.x this)
    then set_x this (GameObject.x this - speed this) else this in
  if right input && (GameObject.x this <? GAME_WIDTH - GameObject.width this)
  then set_x this (GameObject.x this + speed this) else this.

Definition update {W} (input : InputState) (fireProjectile : Q -> Q -> M W unit)
           (this : t) : M W t :=
  let this := move input this in
  if shoot input then
    now <- Date_now ;;
    if (200 <? now - lastShot this)%Z then
      fireProjectile (GameObject.x this) (GameObject.y this) ;;
      fireProjectile (GameObject.x this + GameObject.width this) (GameObject.y this) ;;
      playSound snd_shoot ;;
      ret (set_lastShot this now)
    else ret this
  else ret this.
End Player.

Module Projectile.
Record t := { obj :> GameObject.t; speed : Q; isPlayer : bool }.

Definition new (x y speed : Q) (color : string) (isPlayer : bool) : t :=
  {| obj := GameObject.new x y 4 12 color; speed := speed; isPlayer := isPlayer |}.

Definition set_obj (this : t) (o : GameObject.t) : t :=
  {| obj := o; speed := speed this; isPlayer := isPlayer this |}.

Definition mark (this : t) : t :=
  set_obj this (GameObject.set_markedForDeletion this true).

Definition update (this : t) : t :=
  let this := set_obj this (GameObject.set_y this (GameObject.y this + speed this)) in
  if (GameObject.y this <? -20) || (GAME_HEIGHT + 20 <? GameObject.y this)
  then mark this else this.
End Projectile.

Module Enemy.
Record t := { obj :> GameObject.t; type : Z; points : Z; hasPowerup : bool }.

Definition new (x y : Q) (type : Z) (hasPowerup : bool) : t :=
  let o := GameObject.new x y 35 35
             (if (type =? 1)%Z then COLORS.red
              else if (type =? 2)%Z then COLORS.pink else COLORS.green) in
  {| obj := if hasPowerup then GameObject.set_color o "#ffaa00" else o;
     type := type;
     points := if (type =? 1)%Z then 50 else if (type =? 2)%Z then 30 else 10;
     hasPowerup := hasPowerup |}.

Definition set_obj (this : t) (o : GameObject.t) : t :=
  {| obj := o; type := type this; points := points this; hasPowerup := hasPowerup this |}.

Definition mark (this : t) : t :=
  set_obj this (GameObject.set_markedForDeletion this true).
End Enemy.

Module Powerup.
Record t := { obj :> GameObject.t }.

Definition new (x y : Q) : t := {| obj := GameObject.new x y 20 20 "#00ff00" |}.

Definition mark (this : t) : t :=
  {| obj := GameObject.set_markedForDeletion this true |}.

Definition update (this : t) : t :=
  let this := {| obj := GameObject.set_y this (GameObject.y this + 3) |} in
  if GAME_HEIGHT <? GameObject.y this then mark this else this.
End Powerup.

Module Particle.
Record t := { obj :> GameObject.t; vx : Q; vy : Q; life : Q }.

Definition new {W} (x y : Q) (color : string) : M W t :=
  r1 <- Math_random ;;
  r2 <- Math_random ;;
  ret {| obj := GameObject.new x y 3 3 color;
         vx := Qred ((r1 - 0.5) * 8);
         vy := Qred ((r2 - 0.5) * 8);
         life := 1 |}.

Definition update (this : t) : t :=
  let o := GameObject.set_y (GameObject.set_x this (GameObject.x this + vx this))
                            (GameObject.y this + vy this) in
  let life' := Qred (life this - 0.04) in
  {| obj := if life' <=? 0 then GameObject.set_markedForDeletion o true else o;
     vx := vx this; vy := vy this; life := life' |}.
End Particle.

(** Every entity is a [GameObject] (the classes extend it). *)
Coercion Player.obj : Player.t >-> GameObject.t.
Coercion Projectile.obj : Projectile.t >-> GameObject.t.
Coercion Enemy.obj : Enemy.t >-> GameObject.t.
Coercion Powerup.obj : Powerup.t >-> GameObject.t.
Coercion Particle.obj : Particle.t >-> GameObject.t.

(** ** 4. The game world ([gameRef.current]) *)

Record Game := {
  player : Player.t;
  projectiles : list Projectile.t;
  enemies : list Enemy.t;
  particles : list Particle.t;
  powerups : list Powerup.t;
  score : Z;
  lives : Z;
  level : Z;
  enemyDir : Z
}.

Definition set_player (g : Game) (v : Player.t) : Game :=
  {| player := v; projectiles := projectiles g; enemies := enemies g;
     particles := particles g; powerups := powerups g; score := score g;
     lives := lives g; level := level g; enemyDir := enemyDir g |}.

Definition set_projectiles (g : Game) (v : list Projectile.t) : Game :=
  {| player := player g; projectiles := v; enemies := enemies g;
     particles := particles g; powerups := powerups g; score := score g;
     lives := lives g; level := level g; enemyDir := enemyDir g |}.

Definition set_enemies (g : Game) (v : list Enemy.t) : Game :=
  {| player := player g; projectiles := projectiles g; enemies := v;
     particles := particles g; powerups := powerups g; score := score g;
     lives := lives g; level := level g; enemyDir := enemyDir g |}.

Definition set_particles (g : Game) (v : list Particle.t) : Game :=
  {| player := player g; projectiles := projectiles g; enemies := enemies g;
     particles := v; powerups := powerups g; score := score g;
     lives := lives g; level := level g; enemyDir := enemyDir g |}.

Definition set_powerups (g : Game) (v : list Powerup.t) : Game :=
  {| player := player g; projectiles := projectiles g; enemies := enemies g;
     particles := particles g; powerups := v; score := score g;
     lives := lives g; level := level g; enemyDir := enemyDir g |}.

Definition set_score (g : Game) (v : Z) : Game :=
  {| player := player g; projectiles := projectiles g; enemies := enemies g;
     particles := particles g; powerups := powerups g; score := v;
     lives := lives g; level := level g; enemyDir := enemyDir g |}.

Definition set_lives (g : Game) (v : Z) : Game :=
  {| player := player g; projectiles := projectiles g; enemies := enemies g;
     particles := particles g; powerups := powerups g; score := score g;
     lives := v; level := level g; enemyDir := enemyDir g |}.

Definition set_level (g : Game) (v : Z) : Game :=
  {| player := player g; projectiles := projectiles g; enemies := enemies g;
     particles := particles g; powerups := powerups g; score := score g;
     lives := lives g; level := v; enemyDir := enemyDir g |}.

Definition set_enemyDir (g : Game) (v : Z) : Game :=
  {| player := player g; projectiles := projectiles g; enemies := enemies g;
     particles := particles g; powerups := powerups g; score := score g;
     lives := lives g; level := level g; enemyDir := v |}.

(** [arr.push(v)] on the three arrays that are pushed to. *)
Definition push_projectile (v : Projectile.t) (g : Game) : Game :=
  set_projectiles g (projectiles g ++ [v]).
Definition push_particle (v : Particle.t) (g : Game) : Game :=
  set_particles g (particles g ++ [v]).
Definition push_powerup (v : Powerup.t) (g : Game) : Game :=
  set_powerups g (powerups g ++ [v]).

(** The initial value of [gameRef]. *)
Definition gameRef0 : Game :=
  {| player := Player.new; projectiles := []; enemies := []; particles := [];
     powerups := []; score := 0; lives := 3; level := 1; enemyDir := 1 |}.

(** [0, 1, ..., n-1], the values of a counting [for] loop. *)
Definition range (n : nat) : list Z := map Z.of_nat (seq 0 n).

Definition initEnemies : M Game unit :=
  let rows := 4%nat in
  let cols := 8%nat in
  let startX := (GAME_WIDTH - inject_Z (Z.of_nat cols) * 50) / 2 in
  r <- Math_random ;;
  let powerupIndex := Qfloor (r * inject_Z (Z.of_nat cols)) in
  modify (fun g => set_enemies g
    (flat_map (fun r =>
       map (fun c =>
              let type := if (r =? 0)%Z then 1%Z else if (r =? 1)%Z then 2%Z else 3%Z in
              let hasPowerup := (r =? 0)%Z && (c =? powerupIndex)%Z in
              Enemy.new (startX + inject_Z c * 50) (50 + inject_Z r * 50) type hasPowerup)
           (range cols))
       (range rows))).

Definition initGame : M Game unit :=
  modify (fun g => set_player g Player.new) ;;
  modify (fun g => set_projectiles g []) ;;
  modify (fun g => set_particles g []) ;;
  modify (fun g => set_powerups g []) ;;
  modify (fun g => set_score g 0) ;;
  modify (fun g => set_lives g 3) ;;
  modify (fun g => set_level g 1) ;;
  modify (fun g => set_enemyDir g 1) ;;
  setScore 0 ;;
  setLives 3 ;;
  initEnemies.

Definition checkCollision (rect1 rect2 : GameObject.t) : bool :=
  (GameObject.x rect1 <? GameObject.x rect2 + GameObject.width rect2) &&
  (GameObject.x rect2 <? GameObject.x rect1 + GameObject.width rect1) &&
  (GameObject.y rect1 <? GameObject.y rect2 + GameObject.height rect2) &&
  (GameObject.y rect2 <? GameObject.y rect1 + GameObject.height rect1).

(** ** 5. One animation frame *)

(** [g.player.update(inputRef.current, (x, y) => g.projectiles.push(...))] *)
Definition playerPhase : M Game unit :=
  inp <- getInput ;;
  p <- gets player ;;
  p' <- Player.update inp
          (fun x y => modify (push_projectile (Projectile.new x y (-12) COLORS.yellow true)))
          p ;;
  modify (fun g => set_player g p').

(** The callback of the first [g.enemies.forEach]; [hitEdge] is the local
    variable of [animate] that the callback assigns. *)
Definition enemyStep (hitEdge : bool) (e : Enemy.t) : M Game (bool * Enemy.t) :=
  sc <- gets score ;;
  dir <- gets enemyDir ;;
  let e := Enemy.set_obj e
             (GameObject.set_x e (GameObject.x e + (1.5 + inject_Z sc * 0.001) * inject_Z dir)) in
  let hitEdge :=
    if (GameObject.x e <=? 10) || (GAME_WIDTH - 40 <=? GameObject.x e) then true else hitEdge in
  r <- Math_random ;;
  lv <- gets level ;;
  (if r <? 0.001 + inject_Z lv * 0.0002
   then modify (push_projectile
                  (Projectile.new (GameObject.x e + 15) (GameObject.y e + 30) 5 COLORS.red false))
   else ret tt) ;;
  p <- gets player ;;
  (if GameObject.y p <=? GameObject.y e + GameObject.height e
   then modify (fun g => set_lives g 0) ;;
        setLives 0 ;;
        setGameState GAMEOVER ;;
        playSound snd_gameover
   else ret tt) ;;
  ret (hitEdge, e).

Definition stepDown (e : Enemy.t) : Enemy.t :=
  Enemy.set_obj e (GameObject.set_y e (GameObject.y e + 20)).

(** The first [g.enemies.forEach] and the [if (hitEdge)] that follows it. *)
Definition enemyPhase : M Game unit :=
  es <- gets enemies ;;
  r <- forEachWith enemyStep false es ;;
  modify (fun g => set_enemies g (snd r)) ;;
  if fst r
  then modify (fun g => set_enemyDir g (enemyDir g * -1)) ;;
       modify (fun g => set_enemies g (map stepDown (enemies g)))
  else ret tt.

(** [if (g.enemies.length === 0) { ... }] *)
Definition waveCompletion : M Game unit :=
  es <- gets enemies ;;
  if (List.length es =? 0)%nat
  then modify (fun g => set_level g (level g + 1)) ;;
       modify (fun g => set_score g (score g + 1000)) ;;
       initEnemies
  else ret tt.

Definition spawnParticles (n : nat) (x y : Q) (color : string) : M Game unit :=
  repeatM n (pt <- Particle.new x y color ;; modify (push_particle pt)).

(** The callback of the [g.enemies.forEach] nested in the projectile loop,
    for the player projectile [p]. *)
Definition hitEnemy (p : Projectile.t) (e : Enemy.t) : M Game (Projectile.t * Enemy.t) :=
  if checkCollision p e then
    let e := Enemy.mark e in
    let p := Projectile.mark p in
    modify (fun g => set_score g (score g + Enemy.points e)) ;;
    sc <- gets score ;;
    setScore sc ;;
    playSound snd_explosion ;;
    (if Enemy.hasPowerup e
     then modify (push_powerup (Powerup.new (GameObject.x e + 5) (GameObject.y e + 5)))
     else ret tt) ;;
    spawnParticles 5 (GameObject.x e) (GameObject.y e) (GameObject.color e) ;;
    ret (p, e)
  else ret (p, e).

(** The [else] branch of the projectile loop, for the enemy projectile [p]. *)
Definition hitPlayer (p : Projectile.t) : M Game Projectile.t :=
  pl <- gets player ;;
  if checkCollision p pl then
    let p := Projectile.mark p in
    modify (fun g => set_lives g (lives g - 1)) ;;
    l <- gets lives ;;
    setLives l ;;
    playSound snd_explosion ;;
    spawnParticles 10 (GameObject.x pl) (GameObject.y pl) COLORS.blue ;;
    (if (l <=? 0)%Z
     then setGameState GAMEOVER ;; playSound snd_gameover
     else ret tt) ;;
    ret p
  else ret p.

(** The callback of [g.projectiles.forEach]. *)
Definition projectileStep (p : Projectile.t) : M Game Projectile.t :=
  let p := Projectile.update p in
  if Projectile.isPlayer p then
    es <- gets enemies ;;
    r <- forEachWith hitEnemy p es ;;
    modify (fun g => set_enemies g (snd r)) ;;
    ret (fst r)
  else hitPlayer p.

Definition projectilePhase : M Game unit :=
  ps <- gets projectiles ;;
  ps' <- forEach projectileStep ps ;;
  modify (fun g => set_projectiles g ps').

(** The callback of [g.powerups.forEach]. *)
Definition powerupStep (p : Powerup.t) : M Game Powerup.t :=
  let p := Powerup.update p in
  pl <- gets player ;;
  if checkCollision p pl then
    let p := Powerup.mark p in
    modify (fun g => set_lives g (Z.min (lives g + 1) 5)) ;;
    l <- gets lives ;;
    setLives l ;;
    playSound snd_powerup ;;
    spawnParticles 8 (GameObject.x pl) (GameObject.y pl) COLORS.green ;;
    ret p
  else ret p.

Definition powerupPhase : M Game unit :=
  ps <- gets powerups ;;
  ps' <- forEach powerupStep ps ;;
  modify (fun g => set_powerups g ps').

Definition alive {A} (obj : A -> GameObject.t) (a : A) : bool :=
  negb (GameObject.markedForDeletion (obj a)).

(** The four [filter]s that end the frame; particles are updated between
    the third and the fourth. *)
Definition sweep : M Game unit :=
  modify (fun g => set_enemies g (filter (alive Enemy.obj) (enemies g))) ;;
  modify (fun g => set_projectiles g (filter (alive Projectile.obj) (projectiles g))) ;;
  modify (fun g => set_powerups g (filter (alive Powerup.obj) (powerups g))) ;;
  modify (fun g => set_particles g (map Particle.update (particles g))) ;;
  modify (fun g => set_particles g (filter (alive Particle.obj) (particles g))).

(** The body of [if (gameState === GameState.PLAYING) { ... }]. *)
Definition frame : M Game unit :=
  playerPhase ;;
  enemyPhase ;;
  waveCompletion ;;
  projectilePhase ;;
  powerupPhase ;;
  sweep.

(** [animate]: the frame runs when the React state [gameState] is PLAYING.
    Clearing the canvas and [requestAnimationFrame] do not touch the world. *)
Definition animate : M Game unit :=
  fun env g h =>
    if GameState_eqb (gameState h) PLAYING then frame env g h else (tt, g, h).

(** [startGame] sets the state to PLAYING; the [useEffect] on [gameState]
    then re-initialises the game when it is over or has no enemies. *)
Definition startGame : M Game unit :=
  setGameState PLAYING ;;
  l <- gets lives ;;
  es <- gets enemies ;;
  if (l <=? 0)%Z || (List.length es =? 0)%nat then initGame else ret tt.

(** ** 6. The application as a transition system *)

Record World := { game : Game; state : GameState }.

Definition run (m : M Game unit) (env : Env) (w : World) : World * list Event :=
  let '(_, g, h) := m env (game w)
                      {| gameState := state w; randomCalls := 0; events := [] |} in
  ({| game := g; state := gameState h |}, rev (events h)).

Definition world0 : World := {| game := gameRef0; state := START |}.

(** The worlds the application can be in: [startGame] is offered only
    outside PLAYING (the buttons of the START and GAMEOVER screens, the
    Enter key), and a frame runs whenever the browser schedules one. *)
Inductive reachable : World -> Prop :=
| reachable_init : reachable world0
| reachable_start : forall env w,
    reachable w -> state w <> PLAYING -> reachable (fst (run startGame env w))
| reachable_animate : forall env w,
    reachable w -> reachable (fst (run animate env w)).

(** Running a list of frames, one environment per frame. *)
Fixpoint frames (envs : list Env) (w : World) : World :=
  match envs with
  | [] => w
  | env :: envs' => frames envs' (fst (run animate env w))
  end.

(** ** 7. The audio service *)

Module AudioService.

Inductive OscillatorType := square | sawtooth | triangle | sine.

Inductive Param := frequency | gain.

(** The calls of [playSound] on the context and on its two nodes. *)
Inductive Call :=
| createOscillator
| createGain
| connect_osc_gain
| connect_gain_destination
| set_type (t : OscillatorType)
| setValueAtTime (p : Param) (value time : Q)
| exponentialRampToValueAtTime (p : Param) (value time : Q)
| linearRampToValueAtTime (p : Param) (value time : Q)
| start (time : Q)
| stop (time : Q).

(** The private field [ctx]: the context, named by the number of contexts
    that were built before it. *)
Record t := { ctx : option nat }.

Definition new : t := {| ctx := None |}.

(** What the browser does for a call: whether [new AudioContext()]
    succeeds, whether the context is suspended, and its clock. A call of
    [ctx.resume()] is taken to complete. *)
Record Browser := { constructs : bool; suspended : bool; currentTime : Q }.

(** What a method leaves: its result ([None] when it throws), the service,
    the number of contexts built so far, whether [ctx.resume()] was called
    and the calls made on the nodes. *)
Record Outcome (A : Type) := {
  result : option A;
  service : t;
  built : nat;
  resumed : bool;
  calls : list Call
}.

Definition getContext (b : Browser) (this : t) (n : nat) : Outcome nat :=
  match ctx this with
  | Some c => {| result := Some c; service := this; built := n;
                 resumed := false; calls := [] |}
  | None =>
      if constructs b
      then {| result := Some n; service := {| ctx := Some n |}; built := S n;
              resumed := false; calls := [] |}
      else {| result := None; service := this; built := n;
              resumed := false; calls := [] |}
  end.

Definition resume (b : Browser) (this : t) (n : nat) : Outcome unit :=
  let o := getContext b this n in
  match result o with
  | Some _ => {| result := Some tt; service := service o; built := built o;
                 resumed := suspended b; calls := [] |}
  | None => {| result := None; service := service o; built := built o;
               resumed := false; calls := [] |}
  end.

(** The body of [playSound] after [getContext], at time [now]. *)
Definition tone (type : Sound) (now : Q) : list Call :=
  [createOscillator; createGain; connect_osc_gain; connect_gain_destination] ++
  match type with
  | snd_shoot =>
      [set_type square;
       setValueAtTime frequency 800 now;
       exponentialRampToValueAtTime frequency 100 (now + 0.1);
       setValueAtTime gain 0.05 now;
       exponentialRampToValueAtTime gain 0.001 (now + 0.1);
       start now;
       stop (now + 0.1)]
  | snd_explosion =>
      [set_type sawtooth;
       setValueAtTime frequency 200 now;
       exponentialRampToValueAtTime frequency 10 (now + 0.3);
       setValueAtTime gain 0.1 now;
       exponentialRampToValueAtTime gain 0.001 (now + 0.3);
       start now;
       stop (now + 0.3)]
  | snd_gameover =>
      [set_type triangle;
       setValueAtTime frequency 300 now;
       linearRampToValueAtTime frequency 50 (now + 1.5);
       setValueAtTime gain 0.1 now;
       linearRampToValueAtTime gain 0 (now + 1.5);
       start now;
       stop (now + 1.5)]
  | snd_powerup =>
      [set_type sine;
       setValueAtTime frequency 400 now;
       exponentialRampToValueAtTime frequency 1200 (now + 0.3);
       setValueAtTime gain 0.1 now;
       exponentialRampToValueAtTime gain 0.001 (now + 0.3);
       start now;
       stop (now + 0.3)]
  end.

(** [playSound]: the [try] ... [catch] swallows the exception of
    [getContext]. *)
Definition playSound (type : Sound) (b : Browser) (this : t) (n : nat) : Outcome unit :=
  let o := getContext b this n in
  match result o with
  | Some _ => {| result := Some tt; service := service o; built := built o;
                 resumed := false; calls := tone type (currentTime b) |}
  | None => {| result := Some tt; service := service o; built := built o;
               resumed := false; calls := [] |}
  end.

(** The value that a call sets or ramps the parameter [p] to. *)
Definition valueOf (p : Param) (c : Call) : option Q :=
  match c with
  | setValueAtTime p' v _
  | exponentialRampToValueAtTime p' v _
  | linearRampToValueAtTime p' v _ =>
      match p, p' with
      | frequency, frequency | gain, gain => Some v
      | _, _ => None
      end
  | _ => None
  end.

(** How long each sound lasts, in seconds. *)
Definition duration (type : Sound) : Q :=
  match type with
  | snd_shoot => 0.1
  | snd_explosion => 0.3
  | snd_gameover => 1.5
  | snd_powerup => 0.3
  end.

End AudioService.

(** ** 8. Drawing *)

(** The calls on the 2D context that the [draw] methods make. Both arcs of
    the source are full circles (from 0 to [Math.PI * 2]). *)
Module Canvas.

Inductive Cmd :=
| strokeStyle (c : string)
| fillStyle (c : string)
| lineWidth (w : Q)
| shadowBlur (b : Q)
| shadowColor (c : string)
| globalAlpha (a : Q)
| strokeRect (x y w h : Q)
| fillRect (x y w h : Q)
| beginPath
| closePath
| moveTo (x y : Q)
| lineTo (x y : Q)
| arc (x y radius : Q)
| bezierCurveTo (cp1x cp1y cp2x cp2y x y : Q)
| stroke
| fill.

(** The points that bound what a call adds to the picture: the corners of a
    rectangle, the end of a segment, the corners of the square around a
    circle, the control points and the end of a curve. *)
Definition points (c : Cmd) : list (Q * Q) :=
  match c with
  | strokeRect x y w h | fillRect x y w h => [(x, y); (x + w, y + h)]
  | moveTo x y | lineTo x y => [(x, y)]
  | arc x y r => [(x - r, y - r); (x + r, y + r)]
  | bezierCurveTo a b c d e f => [(a, b); (c, d); (e, f)]
  | _ => []
  end.

(** The part of the context's state that outlives a [draw]. *)
Record State := { blur : Q; alpha : Q }.

(** The context as it is created, and as every [draw] leaves it. *)
Definition clean : State := {| blur := 0; alpha := 1 |}.

Definition exec (s : State) (c : Cmd) : State :=
  match c with
  | shadowBlur b => {| blur := b; alpha := alpha s |}
  | globalAlpha a => {| blur := blur s; alpha := a |}
  | _ => s
  end.

(** A call that paints. *)
Definition paints (c : Cmd) : bool :=
  match c with
  | strokeRect _ _ _ _ | fillRect _ _ _ _ | stroke | fill => true
  | _ => false
  end.

(** The calls of a list, each with the state that it finds. *)
Fixpoint trace (s : State) (cs : list Cmd) : list (State * Cmd) :=
  match cs with
  | [] => []
  | c :: cs' => (s, c) :: trace (exec s c) cs'
  end.

End Canvas.

(** [Math.max(a, b)] *)
Definition Math_max (a b : Q) : Q := if a <? b then b else a.

Definition Player_draw (this : Player.t) : list Canvas.Cmd :=
  let x := GameObject.x this in
  let y := GameObject.y this in
  let width := GameObject.width this in
  let height := GameObject.height this in
  [Canvas.strokeStyle (GameObject.color this);
   Canvas.lineWidth 2;
   Canvas.shadowBlur 10;
   Canvas.shadowColor (GameObject.color this);
   Canvas.strokeRect x y width height;
   Canvas.beginPath;
   Canvas.moveTo x (y + height);
   Canvas.lineTo (x - 10) (y + height + 10);
   Canvas.stroke;
   Canvas.moveTo (x + width) (y + height);
   Canvas.lineTo (x + width + 10) (y + height + 10);
   Canvas.stroke;
   Canvas.shadowBlur 0].

Definition Projectile_draw (this : Projectile.t) : list Canvas.Cmd :=
  [Canvas.shadowColor (GameObject.color this);
   Canvas.shadowBlur 10;
   Canvas.fillStyle (GameObject.color this);
   Canvas.fillRect (GameObject.x this) (GameObject.y this)
                   (GameObject.width this) (GameObject.height this);
   Canvas.shadowBlur 0].

Definition Enemy_draw (this : Enemy.t) : list Canvas.Cmd :=
  let x := GameObject.x this in
  let y := GameObject.y this in
  let width := GameObject.width this in
  let height := GameObject.height this in
  [Canvas.strokeStyle (GameObject.color this);
   Canvas.lineWidth 2;
   Canvas.shadowColor (GameObject.color this);
   Canvas.shadowBlur (if Enemy.hasPowerup this then 15 else 5)] ++
  (if (Enemy.type this =? 1)%Z then
     [Canvas.beginPath;
      Canvas.moveTo x y;
      Canvas.lineTo (x + width) y;
      Canvas.lineTo (x + width / 2) (y + height);
      Canvas.closePath;
      Canvas.stroke]
   else if (Enemy.type this =? 2)%Z then
     [Canvas.beginPath;
      Canvas.arc (x + width / 2) (y + height / 2) (width / 2);
      Canvas.stroke]
   else
     [Canvas.strokeRect x y width height]) ++
  (if Enemy.hasPowerup this then
     [Canvas.fillStyle (GameObject.color this);
      Canvas.beginPath;
      Canvas.arc (x + width / 2) (y + height / 2) 4;
      Canvas.fill]
   else []) ++
  [Canvas.shadowBlur 0].

Definition Powerup_draw (this : Powerup.t) : list Canvas.Cmd :=
  let x := GameObject.x this + GameObject.width this / 2 in
  let y := GameObject.y this + GameObject.height this / 2 in
  let size := GameObject.width this / 2 in
  [Canvas.shadowColor (GameObject.color this);
   Canvas.shadowBlur 10;
   Canvas.fillStyle (GameObject.color this);
   Canvas.beginPath;
   Canvas.moveTo x (y + size * 0.7);
   Canvas.bezierCurveTo (x + size) y (x + size) (y - size) x (y - size * 0.5);
   Canvas.bezierCurveTo (x - size) (y - size) (x - size) y x (y + size * 0.7);
   Canvas.fill;
   Canvas.shadowBlur 0].

Definition Particle_draw (this : Particle.t) : list Canvas.Cmd :=
  [Canvas.globalAlpha (Math_max 0 (Particle.life this));
   Canvas.fillStyle (GameObject.color this);
   Canvas.fillRect (GameObject.x this) (GameObject.y this)
                   (GameObject.width this) (GameObject.height this);
   Canvas.globalAlpha 1].

(** Any entity, for a picture made of several. *)
Inductive Entity :=
| ThePlayer (p : Player.t)
| AProjectile (p : Projectile.t)
| AnEnemy (e : Enemy.t)
| APowerup (p : Powerup.t)
| AParticle (p : Particle.t).

Definition draw (e : Entity) : list Canvas.Cmd :=
  match e with
  | ThePlayer p => Player_draw p
  | AProjectile p => Projectile_draw p
  | AnEnemy e => Enemy_draw e
  | APowerup p => Powerup_draw p
  | AParticle p => Particle_draw p
  end.

Definition objOf (e : Entity) : GameObject.t :=
  match e with
  | ThePlayer p => p
  | AProjectile p => p
  | AnEnemy e => e
  | APowerup p => p
  | AParticle p => p
  end.

(** The first two statements of [animate] on the context, and the picture
    of a frame that draws the entities [ents]. *)
Definition clearCanvas : list Canvas.Cmd :=
  [Canvas.fillStyle "rgba(5, 5, 5, 0.4)"; Canvas.fillRect 0 0 GAME_WIDTH GAME_HEIGHT].

Definition picture (ents : list Entity) : list Canvas.Cmd :=
  clearCanvas ++ flat_map draw ents.

(** ** 9. The application shell: input, screens and HUD *)

(** *** [inputRef] and its handlers *)

Definition set_left (i : InputState) (b : bool) : InputState :=
  {| left := b; right := right i; shoot := shoot i |}.
Definition set_right (i : InputState) (b : bool) : InputState :=
  {| left := left i; right := b; shoot := shoot i |}.
Definition set_shoot (i : InputState) (b : bool) : InputState :=
  {| left := left i; right := right i; shoot := b |}.

(** The assignments to [inputRef.current] of [handleKeyDown] ([active] is
    [true]) and of [handleKeyUp] ([active] is [false]). *)
Definition handleKey (active : bool) (code : string) (i : InputState) : InputState :=
  let i := if String.eqb code "ArrowLeft" then set_left i active else i in
  let i := if String.eqb code "ArrowRight" then set_right i active else i in
  if String.eqb code "Space" then set_shoot i active else i.

(** [handleTouch] of [DPad] ([inputRef.current[key] = active]) and of
    [ShootButton]. *)
Inductive DPadKey := dpad_left | dpad_right.

Definition DPad_handleTouch (key : DPadKey) (active : bool) (i : InputState) : InputState :=
  match key with
  | dpad_left => set_left i active
  | dpad_right => set_right i active
  end.

Definition ShootButton_handleTouch (active : bool) (i : InputState) : InputState :=
  set_shoot i active.

(** *** The state of the application *)

(** The React state of [App], [inputRef], the world of [GameCanvas]
    ([gameRef.current] and [gameState]) and the global [audioService], with
    the number of audio contexts that have been built. *)
Module App.
Record t := {
  world : World;
  score : Z;
  lives : Z;
  showInfo : bool;
  isMobile : bool;
  inputRef : InputState;
  audioService : AudioService.t;
  audioContexts : nat
}.
End App.

Definition set_world (a : App.t) (w : World) : App.t :=
  {| App.world := w; App.score := App.score a; App.lives := App.lives a;
     App.showInfo := App.showInfo a; App.isMobile := App.isMobile a;
     App.inputRef := App.inputRef a; App.audioService := App.audioService a;
     App.audioContexts := App.audioContexts a |}.

Definition set_showInfo (a : App.t) (b : bool) : App.t :=
  {| App.world := App.world a; App.score := App.score a; App.lives := App.lives a;
     App.showInfo := b; App.isMobile := App.isMobile a;
     App.inputRef := App.inputRef a; App.audioService := App.audioService a;
     App.audioContexts := App.audioContexts a |}.

Definition set_isMobile (a : App.t) (b : bool) : App.t :=
  {| App.world := App.world a; App.score := App.score a; App.lives := App.lives a;
     App.showInfo := App.showInfo a; App.isMobile := b;
     App.inputRef := App.inputRef a; App.audioService := App.audioService a;
     App.audioContexts := App.audioContexts a |}.

Definition set_inputRef (a : App.t) (i : InputState) : App.t :=
  {| App.world := App.world a; App.score := App.score a; App.lives := App.lives a;
     App.showInfo := App.showInfo a; App.isMobile := App.isMobile a;
     App.inputRef := i; App.audioService := App.audioService a;
     App.audioContexts := App.audioContexts a |}.

Definition set_audio (a : App.t) (s : AudioService.t) (n : nat) : App.t :=
  {| App.world := App.world a; App.score := App.score a; App.lives := App.lives a;
     App.showInfo := App.showInfo a; App.isMobile := App.isMobile a;
     App.inputRef := App.inputRef a; App.audioService := s;
     App.audioContexts := n |}.

(** [App] as it is first rendered. *)
Definition app0 : App.t :=
  {| App.world := world0; App.score := 0; App.lives := 3; App.showInfo := false;
     App.isMobile := false;
     App.inputRef := {| left := false; right := false; shoot := false |};
     App.audioService := AudioService.new; App.audioContexts := 0 |}.

(** What the browser supplies to a handler: the clock, the random source,
    the two readings of [checkLayout] and the audio. *)
Record Browser := {
  clock : Z;
  rand : nat -> Q;
  coarse : bool;
  innerWidth : Z;
  audio : AudioService.Browser
}.

Definition envOf (b : Browser) (i : InputState) : Env :=
  {| input := i; now := clock b; random := rand b |}.

(** What a call of [GameCanvas] on the application does: the React
    setters change the state of [App], [playSound] goes to the audio
    service. *)
Definition applyEvent (b : Browser) (a : App.t) (e : Event) : App.t :=
  match e with
  | SetScore n =>
      {| App.world := App.world a; App.score := n; App.lives := App.lives a;
         App.showInfo := App.showInfo a; App.isMobile := App.isMobile a;
         App.inputRef := App.inputRef a; App.audioService := App.audioService a;
         App.audioContexts := App.audioContexts a |}
  | SetLives n =>
      {| App.world := App.world a; App.score := App.score a; App.lives := n;
         App.showInfo := App.showInfo a; App.isMobile := App.isMobile a;
         App.inputRef := App.inputRef a; App.audioService := App.audioService a;
         App.audioContexts := App.audioContexts a |}
  | SetGameState _ => a
  | PlaySound type =>
      let o := AudioService.playSound type (audio b) (App.audioService a)
                 (App.audioContexts a) in
      set_audio a (AudioService.service o) (AudioService.built o)
  end.

(** Code of [GameCanvas] run in the application: it changes the world, and
    its calls change the rest. *)
Definition runIn (m : M Game unit) (b : Browser) (a : App.t) : App.t :=
  let '(w, evs) := run m (envOf b (App.inputRef a)) (App.world a) in
  fold_left (applyEvent b) evs (set_world a w).

(** [startGame] of [App]: [await audioService.resume()], which ends the
    function when it throws; then [setGameState(PLAYING)], with the
    [useEffect] of [GameCanvas] that follows it, and [setShowInfo(false)].
    The handler is one step: nothing happens while it awaits. *)
Definition App_startGame (b : Browser) (a : App.t) : App.t :=
  let o := AudioService.resume (audio b) (App.audioService a) (App.audioContexts a) in
  let a := set_audio a (AudioService.service o) (AudioService.built o) in
  match AudioService.result o with
  | Some _ => set_showInfo (runIn startGame b a) false
  | None => a
  end.

(** *** What is rendered *)

Inductive Widget :=
| StartScreen       (* JUGAR, AYUDA *)
| GameOverScreen    (* the final score, REINTENTAR *)
| InfoScreen        (* the instructions, CERRAR *)
| TouchControls     (* DPad and ShootButton *)
| PlayingLogo.

Definition mounted (a : App.t) (wd : Widget) : bool :=
  let gameState := state (App.world a) in
  match wd with
  | StartScreen => GameState_eqb gameState START && negb (App.showInfo a)
  | GameOverScreen => GameState_eqb gameState GAMEOVER
  | InfoScreen => App.showInfo a
  | TouchControls => App.isMobile a && GameState_eqb gameState PLAYING
  | PlayingLogo => GameState_eqb gameState PLAYING
  end.

(** [s.padStart(targetLength, c)] for a pad [c] of one character, and
    [n.toString()] for an integer [n] that JavaScript writes with all its
    digits (below 10^21). *)
Fixpoint repeatChar (c : ascii) (n : nat) : string :=
  match n with
  | O => EmptyString
  | S n' => String c (repeatChar c n')
  end.

Definition padStart (s : string) (targetLength : nat) (c : ascii) : string :=
  (repeatChar c (targetLength - String.length s) ++ s)%string.

Definition Number_toString (n : Z) : string := NilZero.string_of_int (Z.to_int n).

(** [s.repeat(count)]: a negative count is a [RangeError]. *)
Fixpoint concatN (s : string) (n : nat) : string :=
  match n with
  | O => EmptyString
  | S n' => (s ++ concatN s n')%string
  end.

Definition String_repeat (s : string) (count : Z) : option string :=
  if (count <? 0)%Z then None else Some (concatN s (Z.to_nat count)).

(** The two texts of the HUD. *)
Definition scoreText (a : App.t) : string :=
  padStart (Number_toString (App.score a)) 6 "0".

Definition heart : string := "❤".

Definition livesText (a : App.t) : option string :=
  String_repeat heart (Z.max 0 (App.lives a)).

(** *** The handlers, as steps of the application *)

Inductive Action :=
| KeyDown (code : string)
| KeyUp (code : string)
| ClickJugar
| ClickAyuda
| ClickReintentar
| ClickCerrar
| TouchDPad (key : DPadKey) (active : bool)
| TouchShoot (active : bool)
| CheckLayout
| AnimationFrame.

(** A button can be used when the screen that holds it is rendered. *)
Definition enabled (a : App.t) (act : Action) : bool :=
  match act with
  | ClickJugar | ClickAyuda => mounted a StartScreen
  | ClickReintentar => mounted a GameOverScreen
  | ClickCerrar => mounted a InfoScreen
  | TouchDPad _ _ | TouchShoot _ => mounted a TouchControls
  | KeyDown _ | KeyUp _ | CheckLayout | AnimationFrame => true
  end.

Definition step (b : Browser) (act : Action) (a : App.t) : App.t :=
  match act with
  | KeyDown code =>
      let a := set_inputRef a (handleKey true code (App.inputRef a)) in
      if String.eqb code "Enter" && negb (GameState_eqb (state (App.world a)) PLAYING)
      then App_startGame b a else a
  | KeyUp code => set_inputRef a (handleKey false code (App.inputRef a))
  | ClickJugar | ClickReintentar => App_startGame b a
  | ClickAyuda => set_showInfo a true
  | ClickCerrar => set_showInfo a false
  | TouchDPad key active => set_inputRef a (DPad_handleTouch key active (App.inputRef a))
  | TouchShoot active => set_inputRef a (ShootButton_handleTouch active (App.inputRef a))
  | CheckLayout => set_isMobile a (coarse b || (innerWidth b <? 1024)%Z)
  | AnimationFrame => runIn animate b a
  end.

(** The states of the application. *)
Inductive appReachable : App.t -> Prop :=
| appReachable_init : appReachable app0
| appReachable_step : forall b act a,
    appReachable a -> enabled a act = true -> appReachable (step b act a).

Fixpoint steps (l : list (Browser * Action)) (a : App.t) : App.t :=
  match l with
  | [] => a
  | (b, act) :: l' => steps l' (step b act a)
  end.

(** ** 10. Functions and predicates of the specification

    The pure functions in which the effect of each callback and of each
    phase of a frame is stated, the summaries of the loops, the invariant of
    the reachable worlds, and the concrete worlds and environments of the
    examples. *)

Unset Implicit Arguments.

(** *** The callbacks *)

(** The host [h] after further events [evs] (most recent first), in game
    state [st] and with [k] calls of [Math.random]. *)
Definition withHost (h : Host) (st : GameState) (k : nat) (evs : list Event) : Host :=
  {| gameState := st; randomCalls := k; events := evs ++ events h |}.

(** The enemy callback: the horizontal translation, the edge test, the
    shot and the test against the player's row. *)
Definition enemySpeed (g : Game) : Q :=
  (1.5 + inject_Z (score g) * 0.001) * inject_Z (enemyDir g).

Definition advance (g : Game) (e : Enemy.t) : Enemy.t :=
  Enemy.set_obj e (GameObject.set_x e (GameObject.x e + enemySpeed g)).

Definition atEdge (e : Enemy.t) : bool :=
  (GameObject.x e <=? 10) || (GAME_WIDTH - 40 <=? GameObject.x e).

Definition reachesPlayer (g : Game) (e : Enemy.t) : bool :=
  GameObject.y (player g) <=? GameObject.y e + GameObject.height e.

Definition enemyFires (env : Env) (g : Game) (k : nat) : bool :=
  random env k <? 0.001 + inject_Z (level g) * 0.0002.

Definition enemyShot (e : Enemy.t) : Projectile.t :=
  Projectile.new (GameObject.x e + 15) (GameObject.y e + 30) 5 COLORS.red false.

(** The events of an enemy that has reached the player's row. *)
Definition gameoverEvents : list Event :=
  [PlaySound snd_gameover; SetGameState GAMEOVER; SetLives 0].

(** The player callback: whether it fires, and the two shots. *)
Definition playerFires (env : Env) (g : Game) : bool :=
  shoot (input env) && (200 <? now env - Player.lastShot (player g))%Z.

Definition playerShots (p : Player.t) : list Projectile.t :=
  [Projectile.new (GameObject.x p) (GameObject.y p) (-12) COLORS.yellow true;
   Projectile.new (GameObject.x p + GameObject.width p) (GameObject.y p) (-12)
     COLORS.yellow true].

(** The powerup that a hit enemy drops. *)
Definition dropPowerup (e : Enemy.t) (g : Game) : Game :=
  if Enemy.hasPowerup e
  then push_powerup (Powerup.new (GameObject.x e + 5) (GameObject.y e + 5)) g
  else g.

(** The grid that [initEnemies] builds when [Math.random()] returns [r]. *)
Definition wave (r : Q) : list Enemy.t :=
  let startX := (GAME_WIDTH - inject_Z (Z.of_nat 8) * 50) / 2 in
  let powerupIndex := Qfloor (r * inject_Z (Z.of_nat 8)) in
  flat_map (fun r =>
     map (fun c =>
            let type := if (r =? 0)%Z then 1%Z else if (r =? 1)%Z then 2%Z else 3%Z in
            let hasPowerup := (r =? 0)%Z && (c =? powerupIndex)%Z in
            Enemy.new (startX + inject_Z c * 50) (50 + inject_Z r * 50) type hasPowerup)
         (range 8))
     (range 4).

(** The game that [initGame] builds when [Math.random()] returns [r], and
    the test of the [useEffect] that calls it. *)
Definition newGame (r : Q) : Game :=
  {| player := Player.new; projectiles := []; enemies := wave r; particles := [];
     powerups := []; score := 0; lives := 3; level := 1; enemyDir := 1 |}.

Definition needsInit (g : Game) : bool :=
  (lives g <=? 0)%Z || (List.length (enemies g) =? 0)%nat.

(** *** The loops *)

(** The enemy loop: whether some enemy is at a margin after its
    translation, the enemies that have reached the player's row, and the
    events of [n] such enemies. *)
Definition hitEdge (g : Game) : bool := existsb atEdge (map (advance g) (enemies g)).

Definition lowEnemies (g : Game) : list Enemy.t := filter (reachesPlayer g) (enemies g).

Fixpoint gameoverRun (n : nat) : list Event :=
  match n with
  | O => []
  | S n' => gameoverEvents ++ gameoverRun n'
  end.

Definition enemyShots (shots : list Projectile.t) : Prop :=
  Forall (fun p => Projectile.isPlayer p = false) shots.

Definition sumZ (l : list Z) : Z := fold_right Z.add 0%Z l.

(** What a player projectile at [p] gains and marks among [es]. *)
Definition collides (p : Projectile.t) (e : Enemy.t) : bool := checkCollision p e.

Definition pointsHit (p : Projectile.t) (es : list Enemy.t) : Z :=
  sumZ (map (fun e : Enemy.t => if checkCollision p e then Enemy.points e else 0%Z) es).

Definition markIfHit (p : Projectile.t) (e : Enemy.t) : Enemy.t :=
  if checkCollision p e then Enemy.mark e else e.

(** [e'] is [e], possibly marked for deletion. *)
Definition markRel (e e' : Enemy.t) : Prop := e' = e \/ e' = Enemy.mark e.

(** Some player projectile among [ps] overlaps [e] after its update; the
    enemy once the projectiles [ps] have been visited. *)
Definition hitBy (ps : list Projectile.t) (e : Enemy.t) : bool :=
  existsb (fun p => Projectile.isPlayer p && checkCollision (Projectile.update p) e) ps.

Definition markHits (ps : list Projectile.t) (e : Enemy.t) : Enemy.t :=
  if hitBy ps e then Enemy.mark e else e.

(** The events of a hit enemy. *)
Definition scoreEvent (e : Event) : Prop :=
  match e with
  | PlaySound snd_explosion | SetScore _ => True
  | _ => False
  end.

(** The score gained by the player projectiles among [ps] on the enemies
    [es], and the enemy projectiles among [ps] that strike the player [pl]. *)
Definition playerGain (es : list Enemy.t) (ps : list Projectile.t) : Z :=
  sumZ (map (fun p => if Projectile.isPlayer p
                      then pointsHit (Projectile.update p) es else 0%Z) ps).

Definition strikes (pl : Player.t) (p : Projectile.t) : bool :=
  negb (Projectile.isPlayer p) && checkCollision (Projectile.update p) pl.

Definition struck (pl : Player.t) (ps : list Projectile.t) : nat :=
  List.length (filter (strikes pl) ps).

(** Of [n] successive hits on a player with [l] lives, those that leave
    [lives <= 0]: each of them requests GAMEOVER and plays the sound. *)
Fixpoint lethal (l : Z) (n : nat) : nat :=
  match n with
  | O => O
  | S n' => lethal l n' + (if (l - Z.of_nat n <=? 0)%Z then 1 else 0)
  end.

Definition isGameover (e : Event) : bool :=
  match e with PlaySound snd_gameover => true | _ => false end.

Definition countGameover (evs : list Event) : nat :=
  List.length (filter isGameover evs).

(** What the projectile loop has done after visiting [pre], from [g], [h]. *)
Definition projectileOutcome (g : Game) (h : Host) (pre : list Projectile.t)
           (g1 : Game) (h1 : Host) : Prop :=
  player g1 = player g /\ level g1 = level g /\ enemyDir g1 = enemyDir g /\
  enemies g1 = map (markHits pre) (enemies g) /\
  score g1 = (score g + playerGain (enemies g) pre)%Z /\
  lives g1 = (lives g - Z.of_nat (struck (player g) pre))%Z /\
  gameState h1 = match lethal (lives g) (struck (player g) pre) with
                 | O => gameState h
                 | S _ => GAMEOVER
                 end /\
  exists evs,
    events h1 = evs ++ events h /\
    countGameover evs = lethal (lives g) (struck (player g) pre) /\
    (forall l, In (SetLives l) evs ->
               exists k, (1 <= k <= struck (player g) pre)%nat /\
                         l = (lives g - Z.of_nat k)%Z) /\
    (forall st, In (SetGameState st) evs -> st = GAMEOVER).

(** What the powerup loop may have done, from [g], [h]. *)
Definition powerupOutcome (g : Game) (h : Host) (g1 : Game) (h1 : Host) : Prop :=
  player g1 = player g /\ score g1 = score g /\ level g1 = level g /\
  enemyDir g1 = enemyDir g /\ enemies g1 = enemies g /\
  projectiles g1 = projectiles g /\
  gameState h1 = gameState h /\
  (Z.min (lives g) 5 <= lives g1 <= Z.max (lives g) 5)%Z /\
  exists evs,
    events h1 = evs ++ events h /\
    countGameover evs = O /\
    (forall l, In (SetLives l) evs -> (Z.min (lives g + 1) 5 <= l <= 5)%Z) /\
    (forall st, ~ In (SetGameState st) evs).

(** *** The frame *)

(** The enemies after the enemy loop and the edge response. *)
Definition enemiesAfterMove (g : Game) : list Enemy.t :=
  if hitEdge g
  then map stepDown (map (advance g) (enemies g))
  else map (advance g) (enemies g).

Definition shotsFired (env : Env) (g : Game) : list Projectile.t :=
  if playerFires env g then playerShots (Player.move (input env) (player g)) else [].

Definition livesAfterEnemies (g : Game) : Z :=
  match lowEnemies g with [] => lives g | _ :: _ => 0%Z end.

(** The number of enemy projectiles that hit the player in the frame, when
    [shots] are the enemy shots of the frame, and the number of "gameover"
    sounds of the frame. *)
Definition frameStruck (env : Env) (g : Game) (shots : list Projectile.t) : nat :=
  struck (Player.move (input env) (player g))
         (projectiles g ++ shotsFired env g ++ shots).

Definition frameGameovers (env : Env) (g : Game) (shots : list Projectile.t) : nat :=
  (List.length (lowEnemies g)
   + lethal (livesAfterEnemies g) (frameStruck env g shots))%nat.

Set Implicit Arguments.

(** What one frame does, from [g], [h] to [g'], [h']: [shots] are the
    enemy shots of the frame, [es3] the enemies the projectiles are tested
    against, [es4] these enemies with the hit ones marked, [evs] the events. *)
Record FrameSummary (env : Env) (g : Game) (h : Host) (g' : Game) (h' : Host)
       (shots : list Projectile.t) (es3 es4 : list Enemy.t) (evs : list Event) : Prop := {
  fs_shots : enemyShots shots;
  fs_wave : enemies g = [] -> exists r, es3 = wave r;
  fs_moved : enemies g <> [] -> es3 = enemiesAfterMove g;
  fs_marks : es4 = map (markHits (projectiles g ++ shotsFired env g ++ shots)) es3;
  fs_enemies : enemies g' = filter (alive Enemy.obj) es4;
  fs_clean_projectiles : Forall (fun p => alive Projectile.obj p = true) (projectiles g');
  fs_clean_powerups : Forall (fun p => alive Powerup.obj p = true) (powerups g');
  fs_clean_particles : Forall (fun p => alive Particle.obj p = true) (particles g');
  fs_player : Player.obj (player g') = Player.obj (Player.move (input env) (player g));
  fs_speed : Player.speed (player g') = Player.speed (player g);
  fs_lastShot : Player.lastShot (player g') =
                if playerFires env g then now env else Player.lastShot (player g);
  fs_enemyDir : enemyDir g' = if hitEdge g then (enemyDir g * -1)%Z else enemyDir g;
  fs_level : level g' = match enemies g with [] => (level g + 1)%Z | _ :: _ => level g end;
  fs_score : score g' =
             (score g + match enemies g with [] => 1000 | _ :: _ => 0 end
              + playerGain es3 (projectiles g ++ shotsFired env g ++ shots))%Z;
  fs_lives : (Z.min (livesAfterEnemies g - Z.of_nat (frameStruck env g shots)) 5
              <= lives g'
              <= Z.max (livesAfterEnemies g - Z.of_nat (frameStruck env g shots)) 5)%Z;
  fs_state : gameState h' = match frameGameovers env g shots with
                            | O => gameState h
                            | S _ => GAMEOVER
                            end;
  fs_events : events h' = evs ++ events h;
  fs_count : countGameover evs = frameGameovers env g shots;
  fs_SetLives : forall l, In (SetLives l) evs ->
      (l = 0%Z /\ lowEnemies g <> []) \/
      (exists k, (1 <= k <= frameStruck env g shots)%nat /\
                 l = (livesAfterEnemies g - Z.of_nat k)%Z) \/
      (Z.min (livesAfterEnemies g - Z.of_nat (frameStruck env g shots) + 1) 5 <= l <= 5)%Z;
  fs_SetGameState : forall st, In (SetGameState st) evs -> st = GAMEOVER
}.

Unset Implicit Arguments.

(** The host at the start of a frame. *)
Definition host0 (w : World) : Host :=
  {| gameState := state w; randomCalls := 0; events := [] |}.


(** No element of a collection is marked for deletion. *)
Definition unmarked {A} (obj : A -> GameObject.t) (l : list A) : Prop :=
  Forall (fun a => GameObject.markedForDeletion (obj a) = false) l.

(** *** The invariant of the reachable worlds *)

(** The ship starts at x = 380 and moves by 8: its x is 8k + 4 with
    -1 <= k <= 95, that is, between -4 and 764. *)
Definition onLattice (p : Player.t) : Prop :=
  exists k : Z, (-1 <= k <= 95)%Z /\ GameObject.x p == inject_Z (8 * k + 4).

Definition playerOk (p : Player.t) : Prop :=
  Player.speed p = 8 /\ GameObject.width p = 40 /\ onLattice p.

Definition enemyOk (e : Enemy.t) : Prop := (0 <= Enemy.points e)%Z.

Set Implicit Arguments.

Record Inv (w : World) : Prop := {
  inv_player : playerOk (player (game w));
  inv_enemies : Forall enemyOk (enemies (game w));
  inv_unmarked : unmarked Enemy.obj (enemies (game w));
  inv_enemyDir : enemyDir (game w) = 1%Z \/ enemyDir (game w) = (-1)%Z;
  inv_lives_max : (lives (game w) <= 5)%Z;
  inv_lives_playing : state w = PLAYING -> (1 <= lives (game w))%Z
}.

Unset Implicit Arguments.

(** *** Concrete worlds and environments *)

Definition noInput : InputState := {| left := false; right := false; shoot := false |}.

(** A quiet environment: no key is down and no enemy fires. *)
Definition quietEnv : Env := {| input := noInput; now := 0; random := fun _ => 0.5 |}.

(** Fire is held, at time [t]. *)
Definition shootEnv (t : Z) : Env :=
  {| input := {| left := false; right := false; shoot := true |};
     now := t; random := fun _ => 0.5 |}.


(** The world after the first [startGame]. *)
Definition world1 : World := fst (run startGame quietEnv world0).

(** Two overlapping enemies of 50 and 10 points and a player projectile
    that reaches both. *)
Definition twoEnemies : Game :=
  set_projectiles
    (set_enemies gameRef0 [Enemy.new 100 100 1 false; Enemy.new 102 120 3 false])
    [Projectile.new 110 130 (-12) COLORS.yellow true].

(** A session of 396 frames, 33 ms apart, that shoots down the whole first
    wave: nothing is held for 11 frames, then fire is held throughout and
    the movement keys follow [sessionKeys] (a key and the number of frames
    it lasts); no enemy fires. *)
Inductive Key := kN | kL | kR.

Definition sessionKeys : list (Key * nat) :=
  [(kN, 10); (kR, 1); (kN, 4); (kR, 1); (kN, 4); (kR, 1); (kN, 5); (kR, 2);
   (kN, 4); (kR, 1); (kN, 4); (kR, 2); (kN, 4); (kR, 1); (kN, 4); (kR, 2);
   (kN, 2); (kR, 1); (kN, 2); (kR, 1); (kN, 4); (kR, 1); (kN, 1); (kR, 1);
   (kN, 2); (kR, 1); (kN, 4); (kR, 1); (kN, 4); (kR, 1); (kN, 4); (kR, 1);
   (kN, 3); (kR, 1); (kN, 2); (kR, 5); (kN, 3); (kR, 1); (kN, 4); (kR, 1);
   (kN, 3); (kR, 1); (kN, 4); (kR, 1); (kN, 4); (kR, 1); (kN, 2); (kR, 1);
   (kN, 1); (kR, 1); (kN, 9); (kL, 1); (kN, 3); (kL, 1); (kN, 4); (kL, 1);
   (kN, 3); (kL, 2); (kN, 2); (kL, 1); (kN, 3); (kL, 1); (kN, 3); (kL, 2);
   (kN, 3); (kL, 1); (kN, 1); (kL, 2); (kN, 4); (kL, 1); (kN, 2); (kL, 2);
   (kN, 1); (kL, 1); (kN, 3); (kL, 1); (kN, 2); (kL, 1); (kN, 3); (kL, 1);
   (kN, 3); (kL, 1); (kN, 3); (kL, 1); (kN, 3); (kL, 1); (kN, 1); (kR, 8);
   (kN, 4); (kL, 1); (kN, 3); (kL, 1); (kN, 3); (kL, 1); (kN, 2); (kL, 1);
   (kN, 3); (kL, 1); (kN, 3); (kL, 2); (kN, 2); (kL, 1); (kN, 3); (kL, 2);
   (kN, 1); (kL, 1); (kN, 3); (kL, 42); (kN, 2); (kL, 1); (kN, 3); (kL, 1);
   (kN, 3); (kL, 1); (kN, 2); (kL, 1); (kN, 3); (kL, 1); (kN, 3); (kL, 1);
   (kN, 3); (kL, 2); (kN, 1); (kL, 1); (kN, 3); (kL, 1); (kN, 3); (kR, 2);
   (kN, 3); (kR, 1); (kN, 3); (kR, 2); (kN, 1); (kR, 1); (kN, 2); (kR, 1);
   (kN, 3); (kR, 13); (kN, 2); (kR, 1); (kN, 2); (kR, 1); (kN, 3); (kR, 1);
   (kN, 2); (kR, 1); (kN, 3); (kR, 1); (kN, 3); (kR, 1); (kN, 2); (kR, 1);
   (kN, 3); (kR, 1); (kN, 2); (kR, 1)]%nat.

Definition keyEnv (k : nat) (key : Key) (fire : bool) : Env :=
  {| input := {| left := match key with kL => true | _ => false end;
                 right := match key with kR => true | _ => false end;
                 shoot := fire |};
     now := 1000000 + 33 * Z.of_nat k;
     random := fun _ => 0.5 |}.

Fixpoint keyEnvs (k : nat) (keys : list Key) : list Env :=
  match keys with
  | [] => []
  | key :: keys' => keyEnv k key true :: keyEnvs (S k) keys'
  end.

Definition sessionEnvs : list Env :=
  map (fun k => keyEnv k kN false) (seq 1 11) ++
  keyEnvs 12 (flat_map (fun kn => repeat (fst kn) (snd kn)) sessionKeys).

(** The world after the session: the wave is cleared, projectiles are
    still in flight. *)
Definition clearedWorld : World := frames sessionEnvs world1.

(** A run in which four enemy shots reach the player in the same frame:
    the enemy of row 0, column 1 fires in frame 1 and those of column 0 in
    rows 1, 2 and 3 fire in frames 11, 21 and 31 ([volley k i]: in frame [k]
    the [i]-th call of [Math.random] returns 0); the player moves left for
    19 frames, to x = 228. *)
Definition volley (k i : nat) : bool :=
  match k, i with
  | 1, 1 | 11, 8 | 21, 16 | 31, 24 => true
  | _, _ => false
  end%nat.

Definition volleyEnv (k : nat) : Env :=
  {| input := {| left := (k <=? 19)%nat; right := false; shoot := false |};
     now := 0;
     random := fun i => if volley k i then 0 else 0.5 |}.

Definition beforeVolley : World := frames (map volleyEnv (seq 1 89)) world1.

(** *** Tactics *)

(** Projections of updated records. *)
Ltac proj :=
  cbn [fst snd gameState randomCalls events
       player projectiles enemies particles powerups score lives level enemyDir
       set_player set_projectiles set_enemies set_particles set_powerups
       set_score set_lives set_level set_enemyDir
       push_projectile push_particle push_powerup].

Ltac proj_all :=
  cbn [fst snd gameState randomCalls events
       player projectiles enemies particles powerups score lives level enemyDir
       set_player set_projectiles set_enemies set_particles set_powerups
       set_score set_lives set_level set_enemyDir
       push_projectile push_particle push_powerup] in *.

(** The primitives of the monad, for unfolding straight-line code. *)
Ltac sim :=
  cbv beta iota zeta delta
    [bind ret gets modify playSound setScore setLives emit setGameState
     Math_random Date_now getInput fst snd];
  proj.

(** Record updates, unfolded to their fields. *)
Ltac norm :=
  unfold withHost, push_projectile, push_particle, push_powerup,
    set_player, set_projectiles, set_enemies, set_particles, set_powerups,
    set_score, set_lives, set_level, set_enemyDir;
  cbn [fst snd gameState randomCalls events
       player projectiles enemies particles powerups score lives level enemyDir].

(** ** 11. Functions and predicates of the further properties *)

(** *** Boxes and the wave *)


(** The type and the points of the enemies of row [r] of a wave. *)
Definition rowType (r : nat) : Z :=
  match r with O => 1%Z | S O => 2%Z | _ => 3%Z end.

Definition rowPoints (r : nat) : Z :=
  match r with O => 50%Z | S O => 30%Z | _ => 10%Z end.

(** Two boxes are at least 50 apart, horizontally or vertically. *)
Definition apartb (a b : GameObject.t) : bool :=
  (GameObject.x a + 50 <=? GameObject.x b) || (GameObject.x b + 50 <=? GameObject.x a) ||
  (GameObject.y a + 50 <=? GameObject.y b) || (GameObject.y b + 50 <=? GameObject.y a).

Definition apart (a b : Enemy.t) : Prop := apartb a b = true.

(** What an enemy looks like: a 35 x 35 box whose type fixes its points;
    only an enemy of type 1 carries a powerup, and the colour tells both. *)
Definition enemyShape (e : Enemy.t) : Prop :=
  GameObject.width e = 35 /\ GameObject.height e = 35 /\
  ((Enemy.type e = 1%Z /\ Enemy.points e = 50%Z /\
    GameObject.color e = if Enemy.hasPowerup e then "#ffaa00"%string else COLORS.red) \/
   (Enemy.type e = 2%Z /\ Enemy.points e = 30%Z /\ Enemy.hasPowerup e = false /\
    GameObject.color e = COLORS.pink) \/
   (Enemy.type e = 3%Z /\ Enemy.points e = 10%Z /\ Enemy.hasPowerup e = false /\
    GameObject.color e = COLORS.green)).

(** The enemies of a world: at most the 32 of a wave, pairwise apart, of
    which at most one carries a powerup. *)
Definition formation (es : list Enemy.t) : Prop :=
  ForallOrdPairs apart es /\ Forall enemyShape es /\
  (List.length es <= 32)%nat /\ (List.length (filter Enemy.hasPowerup es) <= 1)%nat.

(** [e'] is [e] but for its position and its mark. *)
Definition sameKind (e e' : Enemy.t) : Prop :=
  GameObject.width e' = GameObject.width e /\ GameObject.height e' = GameObject.height e /\
  GameObject.color e' = GameObject.color e /\
  Enemy.type e' = Enemy.type e /\ Enemy.points e' = Enemy.points e /\
  Enemy.hasPowerup e' = Enemy.hasPowerup e.

(** A relation on all the pairs of a list, as a test. *)
Fixpoint pairwiseb {A} (r : A -> A -> bool) (l : list A) : bool :=
  match l with
  | [] => true
  | a :: l' => forallb (r a) l' && pairwiseb r l'
  end.

Definition box (o : GameObject.t) : Q * Q * Q * Q :=
  (GameObject.x o, GameObject.y o, GameObject.width o, GameObject.height o).

(** *** Score and level *)

(** The points of the enemies that are left. *)
Definition pointsLeft (es : list Enemy.t) : Z := sumZ (map Enemy.points es).

(** What has been scored and what is left on the screen account for every
    wave so far: a wave is worth 800 points, and 1000 more once it is
    cleared. *)
Definition accounted (g : Game) : Prop :=
  (1 <= level g)%Z /\
  (pointsLeft (enemies g) <= 800)%Z /\
  (1800 * level g - 1000 <= score g + pointsLeft (enemies g))%Z /\
  (10 | score g)%Z.

(** *** The entities of a frame *)

(** An entity after its [update]: possibly marked by a collision. *)
Definition projectileStepped (a a' : Projectile.t) : Prop :=
  a' = Projectile.update a \/ a' = Projectile.mark (Projectile.update a).

Definition powerupStepped (a a' : Powerup.t) : Prop :=
  a' = Powerup.update a \/ a' = Powerup.mark (Powerup.update a).

(** A particle as [new Particle(x, y, color)] builds it, and a powerup as
    [new Powerup(x, y)] does. *)
Definition freshParticle (pt : Particle.t) : Prop :=
  exists x y c vx vy,
    pt = {| Particle.obj := GameObject.new x y 3 3 c;
            Particle.vx := vx; Particle.vy := vy; Particle.life := 1 |}.

Definition freshPowerup (q : Powerup.t) : Prop := exists x y, q = Powerup.new x y.

(** The particles and powerups that a piece of code has added to [g]. *)
Definition grown (g g' : Game) : Prop :=
  (exists pts, particles g' = particles g ++ pts /\ Forall freshParticle pts) /\
  (exists pus, powerups g' = powerups g ++ pus /\ Forall freshPowerup pus).

(** The particles that [n] calls of [new Particle(x, y, c)] build, the
    first of them with the [k]-th random number of the frame. *)
Fixpoint burst (n : nat) (x y : Q) (c : string) (env : Env) (k : nat) : list Particle.t :=
  match n with
  | O => []
  | S n' =>
      {| Particle.obj := GameObject.new x y 3 3 c;
         Particle.vx := Qred ((random env k - 0.5) * 8);
         Particle.vy := Qred ((random env (S k) - 0.5) * 8);
         Particle.life := 1 |} :: burst n' x y c env (S (S k))
  end.

(** A projectile as an enemy fires it, and as the player fires it. *)
Definition enemyShotOf (p : Projectile.t) : Prop := exists e : Enemy.t, p = enemyShot e.

Definition playerShotOf (p : Projectile.t) : Prop :=
  exists x y, p = Projectile.new x y (-12) COLORS.yellow true.

(** What the entities in flight look like. *)
Definition projectileOk (p : Projectile.t) : Prop :=
  GameObject.markedForDeletion p = false /\
  GameObject.width p = 4 /\ GameObject.height p = 12 /\
  -20 <= GameObject.y p <= GAME_HEIGHT + 20 /\
  ((Projectile.isPlayer p = true /\ Projectile.speed p = (-12) /\
    GameObject.color p = COLORS.yellow) \/
   (Projectile.isPlayer p = false /\ Projectile.speed p = 5 /\
    GameObject.color p = COLORS.red)).

Definition powerupOk (q : Powerup.t) : Prop :=
  GameObject.markedForDeletion q = false /\
  GameObject.width q = 20 /\ GameObject.height q = 20 /\
  GameObject.y q <= GAME_HEIGHT.

Definition particleOk (pt : Particle.t) : Prop :=
  GameObject.markedForDeletion pt = false /\
  GameObject.width pt = 3 /\ GameObject.height pt = 3 /\
  0 < Particle.life pt <= 1.

Definition entitiesOk (g : Game) : Prop :=
  Forall projectileOk (projectiles g) /\
  Forall powerupOk (powerups g) /\
  Forall particleOk (particles g).

(** Code that does not look at the particles: run from a world with other
    particles, it returns the same value, leaves the same host and the same
    world up to its particles. *)
Definition blind {A} (m : M Game A) : Prop :=
  forall env g h ps, exists ps',
    m env (set_particles g ps) h =
    let '(a, g', h') := m env g h in (a, set_particles g' ps', h').

(** *** The HUD *)

(** The last score and the last lives that a log of events (most recent
    first) has sent to the HUD; [d] is what the HUD showed before. *)
Fixpoint lastScore (evs : list Event) (d : Z) : Z :=
  match evs with
  | [] => d
  | SetScore n :: _ => n
  | _ :: evs' => lastScore evs' d
  end.

Fixpoint lastLives (evs : list Event) (d : Z) : Z :=
  match evs with
  | [] => d
  | SetLives n :: _ => n
  | _ :: evs' => lastLives evs' d
  end.

(** In the course of a frame: the HUD shows the lives of the game; and it
    shows its score, unless no enemy has been hit since [g0], [h0]. *)
Definition livesShown (dl : Z) (g : Game) (h : Host) : Prop :=
  lastLives (events h) dl = lives g.

Definition scoreShown (ds : Z) (g0 : Game) (h0 : Host) (g : Game) (h : Host) : Prop :=
  lastScore (events h) ds = score g \/
  (lastScore (events h) ds = lastScore (events h0) ds /\
   score g = score g0 /\ enemies g = enemies g0).

(** Between frames: the HUD shows the lives of the game, and its score or
    1000 less. *)
Definition hudOk (a : App.t) : Prop :=
  let g := game (App.world a) in
  App.lives a = lives g /\
  (0 <= App.score a)%Z /\
  (App.score a = score g \/
   (score g = (App.score a + 1000)%Z /\ enemies g <> [])).


(** *** Controls *)

Inductive Control := ctl_left | ctl_right | ctl_shoot.

Definition held (c : Control) (i : InputState) : bool :=
  match c with
  | ctl_left => left i
  | ctl_right => right i
  | ctl_shoot => shoot i
  end.

Definition keyOf (c : Control) : string :=
  match c with
  | ctl_left => "ArrowLeft"
  | ctl_right => "ArrowRight"
  | ctl_shoot => "Space"
  end.

(** Whether an action presses ([Some true]) or releases ([Some false]) the
    control [c]. *)
Definition pressOf (c : Control) (act : Action) : option bool :=
  match act with
  | KeyDown code => if String.eqb code (keyOf c) then Some true else None
  | KeyUp code => if String.eqb code (keyOf c) then Some false else None
  | TouchDPad dpad_left active =>
      match c with ctl_left => Some active | _ => None end
  | TouchDPad dpad_right active =>
      match c with ctl_right => Some active | _ => None end
  | TouchShoot active =>
      match c with ctl_shoot => Some active | _ => None end
  | _ => None
  end.

(** The control after a list of actions: what the last press or release
    of it said. *)
Fixpoint latest (c : Control) (acts : list Action) (b0 : bool) : bool :=
  match acts with
  | [] => b0
  | act :: acts' =>
      latest c acts' (match pressOf c act with Some b => b | None => b0 end)
  end.

(** *** Pictures *)

(** A point is in the box of [o], enlarged by [m] on the left, on the
    right and below. *)
Definition inBox (m : Q) (o : GameObject.t) (pt : Q * Q) : Prop :=
  GameObject.x o - m <= fst pt <= GameObject.x o + GameObject.width o + m /\
  GameObject.y o <= snd pt <= GameObject.y o + GameObject.height o + m.

(** The sizes for which a drawing stays in its box, and the margin of the
    box: the flames of the ship reach 10 beyond it. *)
Definition wellSized (e : Entity) : Prop :=
  match e with
  | ThePlayer p => 0 <= GameObject.width p /\ 0 <= GameObject.height p
  | AProjectile p => 0 <= GameObject.width p /\ 0 <= GameObject.height p
  | AnEnemy e => 8 <= GameObject.width e /\ GameObject.width e <= GameObject.height e
  | APowerup p => 0 <= GameObject.width p /\ GameObject.width p <= GameObject.height p
  | AParticle p => 0 <= GameObject.width p /\ 0 <= GameObject.height p
  end.

Definition margin (e : Entity) : Q :=
  match e with ThePlayer _ => 10 | _ => 0 end.

(** A particle whose life is at most 1, as all particles of the game are. *)
Definition dimmed (e : Entity) : Prop :=
  match e with AParticle p => Particle.life p <= 1 | _ => True end.

(** The key presses and releases that leave the controls as [i], and a
    browser with audio whose clock and random numbers are those of [env]. *)
Definition setInput (i : InputState) : list Action :=
  [(if left i then KeyDown else KeyUp) "ArrowLeft"%string;
   (if right i then KeyDown else KeyUp) "ArrowRight"%string;
   (if shoot i then KeyDown else KeyUp) "Space"%string].

Definition browserOf (env : Env) : Browser :=
  {| clock := now env; rand := random env; coarse := false; innerWidth := 1280;
     audio := {| AudioService.constructs := true; AudioService.suspended := false;
                 AudioService.currentTime := 0 |} |}.

(** *** Concrete inputs *)

(** Left and right are held. *)
Definition bothEnv : Env :=
  {| input := {| left := true; right := true; shoot := false |};
     now := 0; random := fun _ => 0.5 |}.

(** A browser with audio, on a desktop, and the application after a click
    on JUGAR in it. *)
Definition browser0 : Browser :=
  {| clock := 1000; rand := fun _ => 0.5; coarse := false; innerWidth := 1280;
     audio := {| AudioService.constructs := true; AudioService.suspended := true;
                 AudioService.currentTime := 0 |} |}.

Definition app1 : App.t := step browser0 ClickJugar app0.

(** ** 12. Reasoning about loops and effects *)

Lemma Qlt_bool_iff (a b : Q) : (a <? b) = true <-> a < b.
Proof.
  unfold Qlt_bool. rewrite negb_true_iff. split; intro H.
  - apply Qnot_le_lt. intro L. apply Qle_bool_iff in L. congruence.
  - destruct (Qle_bool b a) eqn:E; trivial.
    apply Qle_bool_iff in E. exfalso. exact (Qlt_not_le _ _ H E).
Qed.

Lemma Qlt_bool_false_iff (a b : Q) : (a <? b) = false <-> b <= a.
Proof.
  unfold Qlt_bool. rewrite negb_false_iff. apply Qle_bool_iff.
Qed.

Lemma Qle_bool_false_iff (a b : Q) : (a <=? b) = false <-> b < a.
Proof.
  rewrite <- Qlt_bool_iff. unfold Qlt_bool.
  destruct (a <=? b); simpl; intuition congruence.
Qed.

Section Loops.
Context {W A B : Type}.
Variable env : Env.

(** A loop invariant indexed by the elements already visited. *)
Lemma forEachWith_ind (f : B -> A -> M W (B * A)) (l : list A)
      (I : list A -> B -> W -> Host -> Prop) (R : A -> A -> Prop) :
  (forall pre a post b w h,
      l = pre ++ a :: post -> I pre b w h ->
      let '(ba, w', h') := f b a env w h in
      I (pre ++ [a]) (fst ba) w' h' /\ R a (snd ba)) ->
  forall b w h, I [] b w h ->
    let '(r, w', h') := forEachWith f b l env w h in
    I l (fst r) w' h' /\ Forall2 R l (snd r).
Proof.
  intros Hf.
  assert (G : forall post pre, l = pre ++ post ->
            forall b w h, I pre b w h ->
              let '(r, w', h') := forEachWith f b post env w h in
              I l (fst r) w' h' /\ Forall2 R post (snd r)).
  { induction post as [|a post IH]; intros pre E b w h HI; simpl.
    - rewrite app_nil_r in E. subst pre. split; [exact HI | constructor].
    - unfold bind.
      specialize (Hf pre a post b w h E HI).
      destruct (f b a env w h) as [[ba w1] h1]. destruct Hf as [HI1 HR].
      assert (E' : l = (pre ++ [a]) ++ post) by (rewrite <- app_assoc; exact E).
      specialize (IH _ E' _ _ _ HI1).
      destruct (forEachWith f (fst ba) post env w1 h1) as [[r w2] h2].
      destruct IH as [HI2 HR2]. simpl. split; [exact HI2 | constructor; assumption]. }
  intros b w h HI. exact (G l [] eq_refl b w h HI).
Qed.

Lemma forEach_ind (f : A -> M W A) (l : list A)
      (I : list A -> W -> Host -> Prop) (R : A -> A -> Prop) :
  (forall pre a post w h,
      l = pre ++ a :: post -> I pre w h ->
      let '(a', w', h') := f a env w h in
      I (pre ++ [a]) w' h' /\ R a a') ->
  forall w h, I [] w h ->
    let '(l', w', h') := forEach f l env w h in
    I l w' h' /\ Forall2 R l l'.
Proof.
  intros Hf.
  assert (G : forall post pre, l = pre ++ post ->
            forall w h, I pre w h ->
              let '(l', w', h') := forEach f post env w h in
              I l w' h' /\ Forall2 R post l').
  { induction post as [|a post IH]; intros pre E w h HI; simpl.
    - rewrite app_nil_r in E. subst pre. split; [exact HI | constructor].
    - unfold bind.
      specialize (Hf pre a post w h E HI).
      destruct (f a env w h) as [[a' w1] h1]. destruct Hf as [HI1 HR].
      assert (E' : l = (pre ++ [a]) ++ post) by (rewrite <- app_assoc; exact E).
      specialize (IH _ E' _ _ HI1).
      destruct (forEach f post env w1 h1) as [[r w2] h2].
      destruct IH as [HI2 HR2]. simpl. split; [exact HI2 | constructor; assumption]. }
  intros w h HI. exact (G l [] eq_refl w h HI).
Qed.

(** The same with an invariant that does not look at the position. *)
Lemma forEach_inv (f : A -> M W A) (l : list A)
      (I : W -> Host -> Prop) (R : A -> A -> Prop) :
  (forall a w h, In a l -> I w h ->
      let '(a', w', h') := f a env w h in I w' h' /\ R a a') ->
  forall w h, I w h ->
    let '(l', w', h') := forEach f l env w h in I w' h' /\ Forall2 R l l'.
Proof.
  intros Hf. apply forEach_ind with (I := fun _ => I) (R := R).
  intros pre a post w h E HI. apply Hf; trivial.
  rewrite E. apply in_or_app. right. now left.
Qed.

Lemma forEachWith_inv (f : B -> A -> M W (B * A)) (l : list A)
      (I : B -> W -> Host -> Prop) (R : A -> A -> Prop) :
  (forall b a w h, In a l -> I b w h ->
      let '(ba, w', h') := f b a env w h in I (fst ba) w' h' /\ R a (snd ba)) ->
  forall b w h, I b w h ->
    let '(r, w', h') := forEachWith f b l env w h in
    I (fst r) w' h' /\ Forall2 R l (snd r).
Proof.
  intros Hf. apply forEachWith_ind with (I := fun _ => I) (R := R).
  intros pre a post b w h E HI. apply Hf; trivial.
  rewrite E. apply in_or_app. right. now left.
Qed.
End Loops.

(** [spawnParticles] touches only [g.particles] and the random source. *)
Lemma spawnParticles_eq n x y c env g h :
  exists ps k,
    spawnParticles n x y c env g h =
    (tt, set_particles g ps,
     {| gameState := gameState h; randomCalls := k; events := events h |}).
Proof.
  unfold spawnParticles.
  set (body := (pt <- Particle.new x y c ;; modify (push_particle pt))).
  assert (Hb : forall g h, exists pt,
             body env g h =
             (tt, push_particle pt g,
              {| gameState := gameState h; randomCalls := S (S (randomCalls h));
                 events := events h |})).
  { intros g0 h0. unfold body, Particle.new. sim. eauto. }
  clearbody body. revert g h.
  induction n as [|n IH]; intros g h; simpl.
  - exists (particles g), (randomCalls h). sim. destruct g, h; reflexivity.
  - unfold bind. destruct (Hb g h) as (pt & E). rewrite E.
    destruct (IH (push_particle pt g)
                 {| gameState := gameState h; randomCalls := S (S (randomCalls h));
                    events := events h |}) as (ps & k & E2).
    cbn in E2. rewrite E2. exists ps, k. reflexivity.
Qed.

(** *** The callbacks, as equations *)

Lemma hitPlayer_eq p env g h :
  exists ps k,
    hitPlayer p env g h =
    if checkCollision p (player g) then
      (Projectile.mark p,
       set_particles (set_lives g (lives g - 1)) ps,
       withHost h (if (lives g - 1 <=? 0)%Z then GAMEOVER else gameState h) k
         ((if (lives g - 1 <=? 0)%Z
           then [PlaySound snd_gameover; SetGameState GAMEOVER] else [])
          ++ [PlaySound snd_explosion; SetLives (lives g - 1)]))
    else (p, g, h).
Proof.
  unfold hitPlayer. sim.
  destruct (checkCollision p (player g)).
  - match goal with |- context [spawnParticles ?n ?x ?y ?c env ?g1 ?h1] =>
      destruct (spawnParticles_eq n x y c env g1 h1) as (ps & k & E) end.
    exists ps, k. rewrite E.
    destruct (lives g - 1 <=? 0)%Z; reflexivity.
  - exists [], O. reflexivity.
Qed.

Lemma hitEnemy_eq p e env g h :
  exists ps k,
    hitEnemy p e env g h =
    if checkCollision p e then
      (Projectile.mark p, Enemy.mark e,
       set_particles (dropPowerup e (set_score g (score g + Enemy.points e))) ps,
       withHost h (gameState h) k
         [PlaySound snd_explosion; SetScore (score g + Enemy.points e)])
    else (p, e, g, h).
Proof.
  unfold hitEnemy, dropPowerup. sim.
  destruct (checkCollision p e).
  - destruct (Enemy.hasPowerup (Enemy.mark e)) eqn:Hp;
      change (Enemy.hasPowerup (Enemy.mark e)) with (Enemy.hasPowerup e) in Hp;
      rewrite Hp; sim;
      match goal with |- context [spawnParticles ?n ?x ?y ?c env ?g1 ?h1] =>
        destruct (spawnParticles_eq n x y c env g1 h1) as (ps & k & E) end;
      exists ps, k; rewrite E; reflexivity.
  - exists [], O. reflexivity.
Qed.

Lemma powerupStep_eq p env g h :
  exists ps k,
    powerupStep p env g h =
    if checkCollision (Powerup.update p) (player g) then
      (Powerup.mark (Powerup.update p),
       set_particles (set_lives g (Z.min (lives g + 1) 5)) ps,
       withHost h (gameState h) k
         [PlaySound snd_powerup; SetLives (Z.min (lives g + 1) 5)])
    else (Powerup.update p, g, h).
Proof.
  unfold powerupStep. sim.
  destruct (checkCollision (Powerup.update p) (player g)).
  - match goal with |- context [spawnParticles ?n ?x ?y ?c env ?g1 ?h1] =>
      destruct (spawnParticles_eq n x y c env g1 h1) as (ps & k & E) end.
    exists ps, k. rewrite E. reflexivity.
  - exists [], O. reflexivity.
Qed.

Lemma enemyStep_eq hitEdge e env g h :
  enemyStep hitEdge e env g h =
  let e1 := advance g e in
  let g1 := if enemyFires env g (randomCalls h)
            then push_projectile (enemyShot e1) g else g in
  (if atEdge e1 then true else hitEdge, e1,
   if reachesPlayer g e then set_lives g1 0 else g1,
   if reachesPlayer g e
   then withHost h GAMEOVER (S (randomCalls h)) gameoverEvents
   else withHost h (gameState h) (S (randomCalls h)) []).
Proof.
  unfold enemyStep, enemyFires, reachesPlayer. sim.
  fold (enemySpeed g). fold (advance g e). fold (atEdge (advance g e)).
  fold (enemyShot (advance g e)).
  destruct (random env (randomCalls h) <? 0.001 + inject_Z (level g) * 0.0002);
    sim;
    change (GameObject.y (advance g e)) with (GameObject.y e);
    change (GameObject.height (advance g e)) with (GameObject.height e);
    change (player (push_projectile (enemyShot (advance g e)) g)) with (player g);
    destruct (GameObject.y (player g) <=? GameObject.y e + GameObject.height e);
    reflexivity.
Qed.

(** *** The phases of a frame, as equations *)

Lemma Player_move_lastShot inp p : Player.lastShot (Player.move inp p) = Player.lastShot p.
Proof.
  unfold Player.move.
  destruct (left inp && _); destruct (right inp && _); reflexivity.
Qed.

Lemma playerPhase_eq env g h :
  playerPhase env g h =
  let p1 := Player.move (input env) (player g) in
  if playerFires env g
  then (tt,
        set_player (set_projectiles g (projectiles g ++ playerShots p1))
                   (Player.set_lastShot p1 (now env)),
        withHost h (gameState h) (randomCalls h) [PlaySound snd_shoot])
  else (tt, set_player g p1, h).
Proof.
  unfold playerPhase, playerFires, Player.update. sim.
  destruct (shoot (input env)); [|reflexivity]. sim.
  rewrite Player_move_lastShot.
  destruct (200 <? now env - Player.lastShot (player g))%Z; [|reflexivity].
  sim. unfold playerShots, withHost, push_projectile. proj. cbn [andb app].
  rewrite <- app_assoc. reflexivity.
Qed.

Lemma initEnemies_eq env g h :
  initEnemies env g h =
  (tt, set_enemies g (wave (random env (randomCalls h))),
   withHost h (gameState h) (S (randomCalls h)) []).
Proof. reflexivity. Qed.

Lemma waveCompletion_eq env g h :
  waveCompletion env g h =
  match enemies g with
  | [] => (tt,
           set_enemies (set_score (set_level g (level g + 1)) (score g + 1000))
                       (wave (random env (randomCalls h))),
           withHost h (gameState h) (S (randomCalls h)) [])
  | _ :: _ => (tt, g, h)
  end.
Proof.
  unfold waveCompletion. sim. destruct (enemies g); reflexivity.
Qed.

Lemma sweep_eq env g h :
  sweep env g h =
  (tt,
   {| player := player g;
      projectiles := filter (alive Projectile.obj) (projectiles g);
      enemies := filter (alive Enemy.obj) (enemies g);
      particles := filter (alive Particle.obj) (map Particle.update (particles g));
      powerups := filter (alive Powerup.obj) (powerups g);
      score := score g; lives := lives g; level := level g;
      enemyDir := enemyDir g |},
   h).
Proof. reflexivity. Qed.

Lemma Forall2_eq_map {A B} (f : A -> B) (l : list A) (l' : list B) :
  Forall2 (fun a b => b = f a) l l' -> l' = map f l.
Proof.
  induction 1; simpl; congruence.
Qed.

Lemma enemyLoop_spec env g h :
  exists shots k,
    enemyShots shots /\
    forEachWith enemyStep false (enemies g) env g h =
    (hitEdge g, map (advance g) (enemies g),
     set_lives (set_projectiles g (projectiles g ++ shots))
               (match lowEnemies g with [] => lives g | _ :: _ => 0 end),
     withHost h (match lowEnemies g with [] => gameState h | _ :: _ => GAMEOVER end)
              k (gameoverRun (List.length (lowEnemies g)))).
Proof.
  pose (I := fun (pre : list Enemy.t) (b : bool) (g1 : Game) (h1 : Host) =>
    b = existsb atEdge (map (advance g) pre) /\
    exists shots k,
      enemyShots shots /\
      g1 = set_lives (set_projectiles g (projectiles g ++ shots))
             (match filter (reachesPlayer g) pre with [] => lives g | _ :: _ => 0 end) /\
      h1 = withHost h
             (match filter (reachesPlayer g) pre with [] => gameState h | _ :: _ => GAMEOVER end)
             k (gameoverRun (List.length (filter (reachesPlayer g) pre)))).
  assert (H0 : I [] false g h).
  { split; [reflexivity|]. exists [], (randomCalls h). split; [constructor|].
    simpl. rewrite app_nil_r. destruct g, h; split; reflexivity. }
  pose proof (@forEachWith_ind Game Enemy.t bool env enemyStep (enemies g) I
                (fun e e' => e' = advance g e)) as L.
  assert (Hstep : forall pre a post b w h0,
             enemies g = pre ++ a :: post -> I pre b w h0 ->
             let '(ba, w', h') := enemyStep b a env w h0 in
             I (pre ++ [a]) (fst ba) w' h' /\ snd ba = advance g a).
  { intros pre a post b w h0 _ [Hb (shots & k & Hs & Hw & Hh)].
    rewrite enemyStep_eq. cbv zeta.
    assert (Ea : advance w a = advance g a) by (subst w; reflexivity).
    assert (Er : reachesPlayer w a = reachesPlayer g a) by (subst w; reflexivity).
    assert (Ef : enemyFires env w (randomCalls h0) = enemyFires env g (randomCalls h0))
      by (subst w; reflexivity).
    rewrite Ea, Er, Ef. cbn [fst snd]. split; [|reflexivity].
    split.
    { rewrite map_app, existsb_app. simpl. subst b.
      destruct (atEdge (advance g a)); destruct (existsb atEdge (map (advance g) pre));
        reflexivity. }
    rewrite filter_app. cbn [filter].
    remember (enemyFires env g (randomCalls h0)) as fire eqn:Hfire.
    exists (if fire then shots ++ [enemyShot (advance g a)] else shots),
           (S (randomCalls h0)).
    split.
    { destruct fire; trivial.
      apply Forall_app. split; trivial. constructor; [reflexivity | constructor]. }
    clear Hfire. subst w h0. unfold withHost, push_projectile. proj.
    destruct (reachesPlayer g a).
    - rewrite length_app, Nat.add_1_r. cbn [gameoverRun].
      rewrite <- (app_assoc gameoverEvents).
      destruct fire; proj; rewrite <- ?app_assoc;
        destruct (filter (reachesPlayer g) pre); split; reflexivity.
    - rewrite app_nil_r.
      destruct fire; proj; rewrite <- ?app_assoc; split; reflexivity. }
  specialize (L Hstep false g h H0).
  destruct (forEachWith enemyStep false (enemies g) env g h) as [[r w'] h'].
  destruct L as [[Hb (shots & k & Hs & Hw & Hh)] HR].
  apply Forall2_eq_map in HR.
  exists shots, k. split; [exact Hs|].
  destruct r as [b es']. cbn [fst snd] in *. subst. reflexivity.
Qed.

Lemma enemyPhase_eq env g h :
  exists shots k,
    enemyShots shots /\
    enemyPhase env g h =
    (tt,
     {| player := player g;
        projectiles := projectiles g ++ shots;
        enemies := if hitEdge g
                   then map stepDown (map (advance g) (enemies g))
                   else map (advance g) (enemies g);
        particles := particles g;
        powerups := powerups g;
        score := score g;
        lives := match lowEnemies g with [] => lives g | _ :: _ => 0 end;
        level := level g;
        enemyDir := if hitEdge g then enemyDir g * -1 else enemyDir g |},
     withHost h (match lowEnemies g with [] => gameState h | _ :: _ => GAMEOVER end)
              k (gameoverRun (List.length (lowEnemies g)))).
Proof.
  destruct (enemyLoop_spec env g h) as (shots & k & Hs & E).
  exists shots, k. split; [exact Hs|].
  unfold enemyPhase. sim. rewrite E. sim.
  destruct (hitEdge g); sim; reflexivity.
Qed.

Lemma sumZ_app l1 l2 : sumZ (l1 ++ l2) = (sumZ l1 + sumZ l2)%Z.
Proof.
  induction l1 as [|a l1 IH]; simpl; [reflexivity|]. rewrite IH. lia.
Qed.

Lemma hitEnemies_spec p es env g h :
  exists pus ps k evs,
    Forall scoreEvent evs /\
    forEachWith hitEnemy p es env g h =
    (if existsb (collides p) es then Projectile.mark p else p,
     map (markIfHit p) es,
     {| player := player g;
        projectiles := projectiles g;
        enemies := enemies g;
        particles := ps;
        powerups := powerups g ++ pus;
        score := score g + pointsHit p es;
        lives := lives g;
        level := level g;
        enemyDir := enemyDir g |},
     withHost h (gameState h) k evs).
Proof.
  pose (I := fun (pre : list Enemy.t) (b : Projectile.t) (g1 : Game) (h1 : Host) =>
    b = (if existsb (collides p) pre then Projectile.mark p else p) /\
    exists pus ps k evs,
      Forall scoreEvent evs /\
      g1 = {| player := player g; projectiles := projectiles g; enemies := enemies g;
              particles := ps; powerups := powerups g ++ pus;
              score := score g + pointsHit p pre; lives := lives g;
              level := level g; enemyDir := enemyDir g |} /\
      h1 = withHost h (gameState h) k evs).
  assert (H0 : I [] p g h).
  { split; [reflexivity|]. exists [], (particles g), (randomCalls h), [].
    split; [constructor|]. unfold pointsHit. simpl.
    rewrite app_nil_r, Z.add_0_r. destruct g, h; split; reflexivity. }
  assert (Hstep : forall pre a post b w h0,
             es = pre ++ a :: post -> I pre b w h0 ->
             let '(ba, w', h') := hitEnemy b a env w h0 in
             I (pre ++ [a]) (fst ba) w' h' /\ snd ba = markIfHit p a).
  { intros pre a post b w h0 _ [Hb (pus & ps & k & evs & Hev & Hw & Hh)].
    destruct (hitEnemy_eq b a env w h0) as (ps' & k' & E). rewrite E. clear E.
    assert (Ec : checkCollision b a = checkCollision p a).
    { subst b. destruct (existsb (collides p) pre); reflexivity. }
    rewrite Ec. unfold markIfHit, I.
    rewrite existsb_app. cbn [existsb]. rewrite orb_false_r.
    change (collides p a) with (checkCollision p a).
    unfold pointsHit. rewrite map_app, sumZ_app. cbn [map sumZ fold_right].
    destruct (checkCollision p a); cbn [fst snd].
    - split; [|reflexivity]. split.
      { rewrite orb_true_r. subst b.
        destruct (existsb (collides p) pre); reflexivity. }
      exists (if Enemy.hasPowerup a
              then pus ++ [Powerup.new (GameObject.x a + 5) (GameObject.y a + 5)]
              else pus), ps', k',
             ([PlaySound snd_explosion; SetScore (score w + Enemy.points a)] ++ evs).
      split.
      { constructor; [exact Logic.I|]. constructor; [exact Logic.I|]. exact Hev. }
      subst w h0. unfold dropPowerup.
      change (Enemy.hasPowerup (Enemy.mark a)) with (Enemy.hasPowerup a).
      destruct (Enemy.hasPowerup a); norm; rewrite <- ?app_assoc;
        rewrite ?Z.add_0_r, ?Z.add_assoc; split; reflexivity.
    - split; [|reflexivity]. split.
      { rewrite orb_false_r. exact Hb. }
      exists pus, ps, k, evs. split; [exact Hev|].
      rewrite Z.add_0_l, Z.add_0_r. split; assumption. }
  pose proof (@forEachWith_ind Game Enemy.t Projectile.t env hitEnemy es I
                (fun e e' => e' = markIfHit p e) Hstep p g h H0) as L.
  destruct (forEachWith hitEnemy p es env g h) as [[r w'] h'].
  destruct L as [[Hb (pus & ps & k & evs & Hev & Hw & Hh)] HR].
  apply Forall2_eq_map in HR.
  exists pus, ps, k, evs. split; [exact Hev|].
  destruct r as [b es']. cbn [fst snd] in *. subst. reflexivity.
Qed.

Lemma markRel_collide p e e' :
  markRel e e' -> checkCollision p e' = checkCollision p e.
Proof. intros [-> | ->]; reflexivity. Qed.

Lemma markRel_points e e' : markRel e e' -> Enemy.points e' = Enemy.points e.
Proof. intros [-> | ->]; reflexivity. Qed.

Lemma markRel_refl es : Forall2 markRel es es.
Proof. induction es; constructor; trivial. now left. Qed.

Lemma markRel_markIfHit p es es' :
  Forall2 markRel es es' -> Forall2 markRel es (map (markIfHit p) es').
Proof.
  induction 1 as [|e e' es es' H _ IH]; simpl; constructor; trivial.
  unfold markIfHit. destruct (checkCollision p e'); trivial.
  destruct H as [-> | ->]; right; reflexivity.
Qed.

Lemma pointsHit_markRel p es es' :
  Forall2 markRel es es' -> pointsHit p es' = pointsHit p es.
Proof.
  unfold pointsHit. induction 1 as [|e e' es es' H _ IH]; simpl; trivial.
  rewrite (markRel_collide p _ _ H), (markRel_points _ _ H). f_equal. exact IH.
Qed.

Lemma existsb_collides_markRel p es es' :
  Forall2 markRel es es' -> existsb (collides p) es' = existsb (collides p) es.
Proof.
  induction 1 as [|e e' es es' H _ IH]; simpl; trivial.
  unfold collides at 1 3. rewrite (markRel_collide p _ _ H). f_equal. exact IH.
Qed.

Lemma Projectile_update_isPlayer p :
  Projectile.isPlayer (Projectile.update p) = Projectile.isPlayer p.
Proof.
  unfold Projectile.update. cbv zeta.
  match goal with |- context [if ?c then _ else _] => destruct c end; reflexivity.
Qed.

Lemma projectileStep_player p env g h :
  Projectile.isPlayer p = true ->
  let p1 := Projectile.update p in
  exists pus ps k evs,
    Forall scoreEvent evs /\
    projectileStep p env g h =
    (if existsb (collides p1) (enemies g) then Projectile.mark p1 else p1,
     {| player := player g;
        projectiles := projectiles g;
        enemies := map (markIfHit p1) (enemies g);
        particles := ps;
        powerups := powerups g ++ pus;
        score := score g + pointsHit p1 (enemies g);
        lives := lives g;
        level := level g;
        enemyDir := enemyDir g |},
     withHost h (gameState h) k evs).
Proof.
  intros Hp p1. unfold projectileStep. cbv zeta. fold p1.
  assert (Hp1 : Projectile.isPlayer p1 = true)
    by (unfold p1; rewrite Projectile_update_isPlayer; exact Hp).
  rewrite Hp1. sim.
  destruct (hitEnemies_spec p1 (enemies g) env g h) as (pus & ps & k & evs & Hev & E).
  exists pus, ps, k, evs. split; [exact Hev|]. rewrite E. reflexivity.
Qed.

Lemma projectileStep_enemy p env g h :
  Projectile.isPlayer p = false ->
  projectileStep p env g h = hitPlayer (Projectile.update p) env g h.
Proof.
  intros Hp. unfold projectileStep. cbv zeta.
  rewrite Projectile_update_isPlayer, Hp. reflexivity.
Qed.

Lemma countGameover_app a b :
  countGameover (a ++ b) = (countGameover a + countGameover b)%nat.
Proof. unfold countGameover. rewrite filter_app, length_app. reflexivity. Qed.

Lemma countGameover_scoreEvents evs : Forall scoreEvent evs -> countGameover evs = O.
Proof.
  induction 1 as [|e evs He _ IH]; trivial.
  unfold countGameover in *. simpl.
  destruct e as [[]| | |]; simpl in *; try contradiction; exact IH.
Qed.

Lemma countGameover_gameoverRun n : countGameover (gameoverRun n) = n.
Proof.
  induction n as [|n IH]; trivial.
  change (gameoverRun (S n)) with (gameoverEvents ++ gameoverRun n).
  rewrite countGameover_app, IH. reflexivity.
Qed.

Lemma lethal_le l n : (lethal l n <= n)%nat.
Proof.
  induction n as [|n IH]; simpl; [lia|].
  destruct (l - Z.pos (Pos.of_succ_nat n) <=? 0)%Z; lia.
Qed.

(** Once a hit is lethal, so are the following ones. *)
Lemma lethal_pos l n k :
  (1 <= k <= n)%nat -> (l - Z.of_nat k <= 0)%Z -> (1 <= lethal l n)%nat.
Proof.
  induction n as [|n IH]; intros Hk Hl; [lia|].
  cbn [lethal].
  destruct (l - Z.of_nat (S n) <=? 0)%Z eqn:E; [lia|].
  apply Z.leb_gt in E.
  assert (k <= n)%nat by lia. specialize (IH ltac:(lia) Hl). lia.
Qed.

Lemma lethal_zero l n : (Z.of_nat n < l)%Z -> lethal l n = O.
Proof.
  induction n as [|n IH]; intros H; trivial. cbn [lethal].
  rewrite IH by lia.
  destruct (l - Z.of_nat (S n) <=? 0)%Z eqn:E; trivial.
  apply Z.leb_le in E. lia.
Qed.

(** In closed form: all hits from the [l]-th on (all of them when [l <= 0]). *)
Lemma lethal_closed l n :
  Z.of_nat (lethal l n) = Z.max 0 (Z.of_nat n - Z.max 0 (l - 1)).
Proof.
  induction n as [|n IH]; cbn [lethal]; [lia|].
  rewrite Nat2Z.inj_add, IH.
  destruct (l - Z.of_nat (S n) <=? 0)%Z eqn:E;
    [apply Z.leb_le in E | apply Z.leb_gt in E]; lia.
Qed.

Lemma scoreEvent_not_SetLives evs l : Forall scoreEvent evs -> ~ In (SetLives l) evs.
Proof.
  intros H Hin. rewrite Forall_forall in H. exact (H _ Hin).
Qed.

Lemma scoreEvent_not_SetGameState evs st :
  Forall scoreEvent evs -> ~ In (SetGameState st) evs.
Proof.
  intros H Hin. rewrite Forall_forall in H. exact (H _ Hin).
Qed.

Lemma struck_snoc pl pre p :
  struck pl (pre ++ [p]) = (struck pl pre + (if strikes pl p then 1 else 0))%nat.
Proof.
  unfold struck. rewrite filter_app, length_app. cbn [filter].
  destruct (strikes pl p); reflexivity.
Qed.

Lemma playerGain_snoc es pre p :
  playerGain es (pre ++ [p]) =
  (playerGain es pre +
   (if Projectile.isPlayer p then pointsHit (Projectile.update p) es else 0))%Z.
Proof.
  unfold playerGain. rewrite map_app, sumZ_app. simpl. lia.
Qed.

Lemma markHits_markRel ps es : Forall2 markRel es (map (markHits ps) es).
Proof.
  induction es as [|e es IH]; simpl; constructor; trivial.
  unfold markHits. destruct (hitBy ps e); [now right | now left].
Qed.

Lemma hitBy_snoc pre p e :
  hitBy (pre ++ [p]) e =
  hitBy pre e || (Projectile.isPlayer p && checkCollision (Projectile.update p) e).
Proof.
  unfold hitBy. rewrite existsb_app. cbn [existsb]. rewrite orb_false_r. reflexivity.
Qed.

Lemma markHits_snoc_player pre p e :
  Projectile.isPlayer p = true ->
  markIfHit (Projectile.update p) (markHits pre e) = markHits (pre ++ [p]) e.
Proof.
  intros Hp. unfold markIfHit, markHits. rewrite hitBy_snoc, Hp. cbn [andb].
  destruct (hitBy pre e); cbn [orb].
  - change (checkCollision (Projectile.update p) (Enemy.mark e))
      with (checkCollision (Projectile.update p) e).
    destruct (checkCollision (Projectile.update p) e); reflexivity.
  - reflexivity.
Qed.

Lemma markHits_snoc_enemy pre p e :
  Projectile.isPlayer p = false -> markHits (pre ++ [p]) e = markHits pre e.
Proof.
  intros Hp. unfold markHits. rewrite hitBy_snoc, Hp. cbn [andb].
  rewrite orb_false_r. reflexivity.
Qed.

Lemma projectileStep_outcome env g h pre p g1 h1 :
  projectileOutcome g h pre g1 h1 ->
  let '(_, g2, h2) := projectileStep p env g1 h1 in
  projectileOutcome g h (pre ++ [p]) g2 h2.
Proof.
  intros (Hpl & Hlv & Hdir & Hes & Hsc & Hli & Hst & evs & Hev & Hcnt & Hsl & Hsg).
  destruct (Projectile.isPlayer p) eqn:Hp.
  - (* a player projectile *)
    destruct (@projectileStep_player p env g1 h1 Hp) as (pus & ps & k & evs' & Hev' & E).
    rewrite E. clear E.
    assert (Estr : struck (player g) (pre ++ [p]) = struck (player g) pre).
    { rewrite struck_snoc. unfold strikes. rewrite Hp. simpl. lia. }
    assert (Egain : playerGain (enemies g) (pre ++ [p]) =
                    (playerGain (enemies g) pre + pointsHit (Projectile.update p) (enemies g))%Z).
    { rewrite playerGain_snoc, Hp. reflexivity. }
    unfold projectileOutcome. rewrite Estr, Egain. norm.
    assert (HR : Forall2 markRel (enemies g) (enemies g1))
      by (rewrite Hes; apply markHits_markRel).
    repeat split; trivial.
    + rewrite Hes, map_map. apply map_ext. intros e.
      apply markHits_snoc_player. exact Hp.
    + rewrite (pointsHit_markRel _ _ _ HR), Hsc. lia.
    + exists (evs' ++ evs). repeat split.
      * rewrite Hev. apply app_assoc.
      * rewrite countGameover_app, (countGameover_scoreEvents _ Hev'). exact Hcnt.
      * intros l Hin. apply in_app_or in Hin. destruct Hin as [Hin | Hin].
        -- exfalso. exact (scoreEvent_not_SetLives _ _ Hev' Hin).
        -- exact (Hsl l Hin).
      * intros st Hin. apply in_app_or in Hin. destruct Hin as [Hin | Hin].
        -- exfalso. exact (scoreEvent_not_SetGameState _ _ Hev' Hin).
        -- exact (Hsg st Hin).
  - (* an enemy projectile *)
    rewrite (@projectileStep_enemy p env g1 h1 Hp).
    destruct (hitPlayer_eq (Projectile.update p) env g1 h1) as (ps & k & E).
    rewrite E. clear E. rewrite Hpl.
    assert (Egain : playerGain (enemies g) (pre ++ [p]) = playerGain (enemies g) pre).
    { rewrite playerGain_snoc, Hp. lia. }
    assert (Estr : struck (player g) (pre ++ [p]) =
                   if checkCollision (Projectile.update p) (player g)
                   then S (struck (player g) pre) else struck (player g) pre).
    { rewrite struck_snoc. unfold strikes. rewrite Hp. cbn [negb andb].
      destruct (checkCollision (Projectile.update p) (player g)); lia. }
    assert (Emk : map (markHits (pre ++ [p])) (enemies g) = map (markHits pre) (enemies g))
      by (apply map_ext; intros e; apply markHits_snoc_enemy; exact Hp).
    unfold projectileOutcome. rewrite Estr, Egain, Emk.
    destruct (checkCollision (Projectile.update p) (player g)).
    2:{ repeat split; trivial. exists evs. repeat split; trivial. }
    norm. cbn [lethal]. rewrite Hli.
    replace (lives g - Z.of_nat (struck (player g) pre) - 1)%Z
      with (lives g - Z.of_nat (S (struck (player g) pre)))%Z by lia.
    repeat split; trivial.
    + destruct (lives g - Z.of_nat (S (struck (player g) pre)) <=? 0)%Z.
      * rewrite Nat.add_1_r. reflexivity.
      * rewrite Nat.add_0_r. exact Hst.
    + exists (((if (lives g - Z.of_nat (S (struck (player g) pre)) <=? 0)%Z
                then [PlaySound snd_gameover; SetGameState GAMEOVER] else [])
               ++ [PlaySound snd_explosion;
                   SetLives (lives g - Z.of_nat (S (struck (player g) pre)))]) ++ evs).
      repeat split.
      * rewrite Hev. apply app_assoc.
      * rewrite !countGameover_app, Hcnt.
        destruct (lives g - Z.of_nat (S (struck (player g) pre)) <=? 0)%Z; simpl; lia.
      * intros l Hin.
        assert (Hc : l = (lives g - Z.of_nat (S (struck (player g) pre)))%Z \/ In (SetLives l) evs).
        { apply in_app_or in Hin. destruct Hin as [Hin | Hin]; [|right; exact Hin].
          apply in_app_or in Hin. destruct Hin as [Hin | Hin].
          - destruct (lives g - Z.of_nat (S (struck (player g) pre)) <=? 0)%Z; simpl in Hin;
              [destruct Hin as [Hin | [Hin | []]]; discriminate | contradiction].
          - simpl in Hin. destruct Hin as [Hin | [Hin | []]]; [discriminate|].
            left. injection Hin as Hin. rewrite <- Hin. reflexivity. }
        destruct Hc as [-> | Hin'].
        -- exists (S (struck (player g) pre)). split; [lia | reflexivity].
        -- destruct (Hsl l Hin') as (k0 & Hk0 & ->). exists k0. split; [lia | reflexivity].
      * intros st Hin.
        apply in_app_or in Hin. destruct Hin as [Hin | Hin]; [|exact (Hsg st Hin)].
        apply in_app_or in Hin. destruct Hin as [Hin | Hin].
        -- destruct (lives g - Z.of_nat (S (struck (player g) pre)) <=? 0)%Z; simpl in Hin;
             [destruct Hin as [Hin | [Hin | []]]; [discriminate | congruence]
             | contradiction].
        -- simpl in Hin. destruct Hin as [Hin | [Hin | []]]; discriminate.
Qed.

Lemma projectilePhase_spec env g h :
  let '(_, g', h') := projectilePhase env g h in
  projectileOutcome g h (projectiles g) g' h'.
Proof.
  unfold projectilePhase. sim.
  pose proof (@forEach_ind Game Projectile.t env projectileStep (projectiles g)
                (projectileOutcome g h) (fun _ _ => True)) as L.
  assert (Hstep : forall pre a post w h0,
             projectiles g = pre ++ a :: post -> projectileOutcome g h pre w h0 ->
             let '(a', w', h'0) := projectileStep a env w h0 in
             projectileOutcome g h (pre ++ [a]) w' h'0 /\ True).
  { intros pre a post w h0 _ HI.
    pose proof (projectileStep_outcome env g h pre a w h0 HI) as Hs.
    destruct (projectileStep a env w h0) as [[a' w'] h'0]. split; trivial. }
  assert (H0 : projectileOutcome g h [] g h).
  { unfold projectileOutcome, struck, playerGain. simpl.
    repeat split; try lia.
    - symmetry. apply map_id.
    - exists []. repeat split; trivial; intros ? []. }
  specialize (L Hstep g h H0).
  destruct (forEach projectileStep (projectiles g) env g h) as [[ps' w'] h'].
  destruct L as [HI _]. sim.
  unfold projectileOutcome in *. proj. exact HI.
Qed.

Lemma powerupStep_outcome env g h p g1 h1 :
  powerupOutcome g h g1 h1 ->
  let '(_, g2, h2) := powerupStep p env g1 h1 in powerupOutcome g h g2 h2.
Proof.
  intros (Hpl & Hsc & Hlv & Hdir & Hes & Hps & Hst & Hli & evs & Hev & Hcnt & Hsl & Hsg).
  destruct (powerupStep_eq p env g1 h1) as (ps & k & E). rewrite E. clear E.
  destruct (checkCollision (Powerup.update p) (player g1)).
  2:{ repeat split; trivial; try lia. exists evs. auto. }
  unfold powerupOutcome. norm.
  repeat split; trivial; try lia.
  exists ([PlaySound snd_powerup; SetLives (Z.min (lives g1 + 1) 5)] ++ evs).
  repeat split.
  - rewrite Hev. reflexivity.
  - rewrite countGameover_app, Hcnt. reflexivity.
  - destruct H as [H | [H | H]]; [discriminate | | apply (Hsl l H)].
    injection H as <-. lia.
  - destruct H as [H | [H | H]]; [discriminate | | apply (Hsl l H)].
    injection H as <-. lia.
  - intros st [H | [H | H]]; [discriminate | discriminate | exact (Hsg st H)].
Qed.

Lemma powerupPhase_spec env g h :
  let '(_, g', h') := powerupPhase env g h in
  powerupOutcome g h (set_powerups g' (powerups g)) h'.
Proof.
  unfold powerupPhase. sim.
  pose proof (@forEach_inv Game Powerup.t env powerupStep (powerups g)
                (powerupOutcome g h) (fun _ _ => True)) as L.
  assert (Hstep : forall a w h0,
             In a (powerups g) -> powerupOutcome g h w h0 ->
             let '(a', w', h'0) := powerupStep a env w h0 in
             powerupOutcome g h w' h'0 /\ True).
  { intros a w h0 _ HI.
    pose proof (powerupStep_outcome env g h a w h0 HI) as Hs.
    destruct (powerupStep a env w h0) as [[a' w'] h'0]. split; trivial. }
  assert (H0 : powerupOutcome g h g h).
  { unfold powerupOutcome. repeat split; try lia.
    exists []. split; [reflexivity|]. split; [reflexivity|].
    split; intros ? []. }
  specialize (L Hstep g h H0).
  destruct (forEach powerupStep (powerups g) env g h) as [[ps' w'] h'].
  destruct L as [HI _]. sim.
  unfold powerupOutcome in *. proj. exact HI.
Qed.

(** *** The whole frame *)

Lemma frame_unfold env g h :
  frame env g h =
  let '(_, g1, h1) := playerPhase env g h in
  let '(_, g2, h2) := enemyPhase env g1 h1 in
  let '(_, g3, h3) := waveCompletion env g2 h2 in
  let '(_, g4, h4) := projectilePhase env g3 h3 in
  let '(_, g5, h5) := powerupPhase env g4 h4 in
  sweep env g5 h5.
Proof. reflexivity. Qed.

Lemma Player_move_y inp p :
  GameObject.y (Player.move inp p) = GameObject.y p.
Proof.
  unfold Player.move.
  destruct (left inp && _); destruct (right inp && _); reflexivity.
Qed.

Lemma advance_congr g g1 e :
  score g1 = score g -> enemyDir g1 = enemyDir g -> advance g1 e = advance g e.
Proof.
  intros Hs Hd. unfold advance, enemySpeed. rewrite Hs, Hd. reflexivity.
Qed.

Lemma hitEdge_congr g g1 :
  enemies g1 = enemies g -> score g1 = score g -> enemyDir g1 = enemyDir g ->
  hitEdge g1 = hitEdge g /\
  map (advance g1) (enemies g1) = map (advance g) (enemies g).
Proof.
  intros He Hs Hd.
  assert (Hm : map (advance g1) (enemies g1) = map (advance g) (enemies g)).
  { rewrite He. apply map_ext. intros e. apply advance_congr; assumption. }
  unfold hitEdge. rewrite Hm. split; reflexivity.
Qed.

Lemma lowEnemies_congr g g1 :
  enemies g1 = enemies g ->
  GameObject.y (player g1) = GameObject.y (player g) ->
  lowEnemies g1 = lowEnemies g.
Proof.
  intros He Hy. unfold lowEnemies. rewrite He.
  apply filter_ext. intros e. unfold reachesPlayer. rewrite Hy. reflexivity.
Qed.

Lemma playerPhase_spec env g h :
  exists g1 h1,
    playerPhase env g h = (tt, g1, h1) /\
    Player.obj (player g1) = Player.obj (Player.move (input env) (player g)) /\
    Player.speed (player g1) = Player.speed (player g) /\
    Player.lastShot (player g1) =
      (if playerFires env g then now env else Player.lastShot (player g)) /\
    projectiles g1 = projectiles g ++ shotsFired env g /\
    enemies g1 = enemies g /\ particles g1 = particles g /\
    powerups g1 = powerups g /\ score g1 = score g /\ lives g1 = lives g /\
    level g1 = level g /\ enemyDir g1 = enemyDir g /\
    gameState h1 = gameState h /\
    exists evs, events h1 = evs ++ events h /\
                (evs = [] \/ evs = [PlaySound snd_shoot]).
Proof.
  rewrite playerPhase_eq. cbv zeta. unfold shotsFired.
  assert (Hsp : forall inp p, Player.speed (Player.move inp p) = Player.speed p).
  { intros inp p. unfold Player.move.
    destruct (left inp && _); destruct (right inp && _); reflexivity. }
  destruct (playerFires env g); eexists; eexists; (split; [reflexivity|]); norm;
    rewrite ?app_nil_r;
    repeat split; trivial; try apply Hsp; try apply Player_move_lastShot.
  - exists [PlaySound snd_shoot]. split; [reflexivity | now right].
  - exists []. split; [reflexivity | now left].
Qed.

Lemma enemyPhase_spec env g h :
  exists shots g2 h2,
    enemyShots shots /\
    enemyPhase env g h = (tt, g2, h2) /\
    player g2 = player g /\
    projectiles g2 = projectiles g ++ shots /\
    enemies g2 = enemiesAfterMove g /\
    particles g2 = particles g /\ powerups g2 = powerups g /\
    score g2 = score g /\ lives g2 = livesAfterEnemies g /\ level g2 = level g /\
    enemyDir g2 = (if hitEdge g then (enemyDir g * -1)%Z else enemyDir g) /\
    gameState h2 = match lowEnemies g with [] => gameState h | _ :: _ => GAMEOVER end /\
    events h2 = gameoverRun (List.length (lowEnemies g)) ++ events h.
Proof.
  destruct (enemyPhase_eq env g h) as (shots & k & Hs & E).
  exists shots. eexists. eexists. split; [exact Hs|]. split; [exact E|].
  norm. repeat split; reflexivity.
Qed.

Lemma waveCompletion_spec env g h :
  exists g3 h3,
    waveCompletion env g h = (tt, g3, h3) /\
    player g3 = player g /\ projectiles g3 = projectiles g /\
    particles g3 = particles g /\ powerups g3 = powerups g /\
    lives g3 = lives g /\ enemyDir g3 = enemyDir g /\
    (enemies g = [] -> exists r, enemies g3 = wave r) /\
    (enemies g <> [] -> enemies g3 = enemies g) /\
    level g3 = match enemies g with [] => (level g + 1)%Z | _ :: _ => level g end /\
    score g3 = (score g + match enemies g with [] => 1000 | _ :: _ => 0 end)%Z /\
    gameState h3 = gameState h /\ events h3 = events h.
Proof.
  rewrite waveCompletion_eq.
  destruct (enemies g) as [|e es] eqn:E; eexists; eexists; (split; [reflexivity|]);
    norm; repeat split; trivial; try congruence; try lia.
  intros _. eexists. reflexivity.
Qed.

Lemma enemiesAfterMove_nil g : enemies g = [] <-> enemiesAfterMove g = [].
Proof.
  unfold enemiesAfterMove, hitEdge.
  destruct (enemies g) as [|e es]; simpl; [tauto|].
  destruct (atEdge (advance g e) || _); simpl; split; discriminate.
Qed.

Lemma gameoverRun_SetLives n l : In (SetLives l) (gameoverRun n) -> l = 0%Z /\ n <> O.
Proof.
  induction n as [|n IH]; simpl; [tauto|].
  intros [H | [H | [H | H]]]; try discriminate.
  - injection H as <-. split; [reflexivity | discriminate].
  - split; [apply (IH H) | discriminate].
Qed.

Lemma gameoverRun_SetGameState n st :
  In (SetGameState st) (gameoverRun n) -> st = GAMEOVER.
Proof.
  induction n as [|n IH]; simpl; [tauto|].
  intros [H | [H | [H | H]]]; try discriminate; [congruence | exact (IH H)].
Qed.

Lemma struck_congr pl pl' ps :
  Player.obj pl' = Player.obj pl -> struck pl' ps = struck pl ps.
Proof.
  intros H. unfold struck. f_equal. apply filter_ext. intros p.
  unfold strikes. rewrite H. reflexivity.
Qed.

Lemma lethal_add_state (s : GameState) (a b : nat) :
  match b with
  | O => match a with O => s | S _ => GAMEOVER end
  | S _ => GAMEOVER
  end = match (a + b)%nat with O => s | S _ => GAMEOVER end.
Proof. destruct a, b; simpl; try reflexivity. Qed.

Lemma Forall_filter_true {A} (f : A -> bool) (l : list A) :
  Forall (fun a => f a = true) (filter f l).
Proof.
  apply Forall_forall. intros a Ha. apply filter_In in Ha. tauto.
Qed.

Lemma frame_summary env g h :
  exists g' h' shots es3 es4 evs,
    frame env g h = (tt, g', h') /\
    FrameSummary env g h g' h' shots es3 es4 evs.
Proof.
  rewrite frame_unfold.
  destruct (playerPhase_spec env g h) as
    (g1 & h1 & E1 & Hobj1 & Hspd1 & Hls1 & Hps1 & Hes1 & Hpt1 & Hpu1 & Hsc1 & Hli1
        & Hlv1 & Hdir1 & Hst1 & evs1 & Hev1 & Hevs1).
  rewrite E1.
  destruct (enemyPhase_spec env g1 h1) as
    (shots & g2 & h2 & Hshots & E2 & Hpl2 & Hps2 & Hes2 & Hpt2 & Hpu2 & Hsc2 & Hli2
           & Hlv2 & Hdir2 & Hst2 & Hev2).
  rewrite E2.
  destruct (waveCompletion_spec env g2 h2) as
    (g3 & h3 & E3 & Hpl3 & Hps3 & Hpt3 & Hpu3 & Hli3 & Hdir3 & Hwave3 & Hkeep3
        & Hlv3 & Hsc3 & Hst3 & Hev3).
  rewrite E3.
  pose proof (projectilePhase_spec env g3 h3) as H4.
  destruct (projectilePhase env g3 h3) as [[u4 g4] h4].
  destruct H4 as (Hpl4 & Hlv4 & Hdir4 & Hes4 & Hsc4 & Hli4 & Hst4 & evs4 & Hev4
                      & Hcnt4 & Hsl4 & Hsg4).
  pose proof (powerupPhase_spec env g4 h4) as H5.
  destruct (powerupPhase env g4 h4) as [[u5 g5] h5].
  destruct H5 as (Hpl5 & Hsc5 & Hlv5 & Hdir5 & Hes5 & Hps5 & Hst5 & Hli5 & evs5 & Hev5
                      & Hcnt5 & Hsl5 & Hsg5).
  proj_all.
  rewrite sweep_eq.
  destruct (hitEdge_congr g g1 Hes1 Hsc1 Hdir1) as [Hhit Hmap].
  assert (Hlow : lowEnemies g1 = lowEnemies g).
  { apply lowEnemies_congr; [assumption|].
    rewrite Hobj1. apply Player_move_y. }
  assert (Hmove : enemiesAfterMove g1 = enemiesAfterMove g)
    by (unfold enemiesAfterMove; rewrite Hhit, Hmap; reflexivity).
  assert (Hlae : livesAfterEnemies g1 = livesAfterEnemies g)
    by (unfold livesAfterEnemies; rewrite Hlow, Hli1; reflexivity).
  assert (Hps : projectiles g3 = projectiles g ++ shotsFired env g ++ shots)
    by (rewrite Hps3, Hps2, Hps1, <- app_assoc; reflexivity).
  assert (Hstr : struck (player g3) (projectiles g3) = frameStruck env g shots).
  { unfold frameStruck. rewrite Hps. apply struck_congr.
    rewrite Hpl3, Hpl2. exact Hobj1. }
  assert (Hl3 : lives g3 = livesAfterEnemies g) by congruence.
  assert (Hnil : enemies g2 = [] <-> enemies g = []).
  { rewrite Hes2, Hmove. symmetry. apply enemiesAfterMove_nil. }
  assert (Hcnt1 : countGameover evs1 = O) by (destruct Hevs1; subst; reflexivity).
  eexists. exists h5, shots, (enemies g3), (enemies g4),
    (evs5 ++ evs4 ++ gameoverRun (List.length (lowEnemies g)) ++ evs1).
  split; [reflexivity|].
  constructor; proj.
  - exact Hshots.
  - intros Hn. apply Hwave3. apply Hnil. exact Hn.
  - intros Hn. rewrite Hkeep3 by (rewrite Hnil; exact Hn). congruence.
  - rewrite <- Hps. exact Hes4.
  - rewrite Hes5. reflexivity.
  - apply Forall_filter_true.
  - apply Forall_filter_true.
  - apply Forall_filter_true.
  - congruence.
  - congruence.
  - congruence.
  - rewrite Hdir5, Hdir4, Hdir3, Hdir2, Hhit, Hdir1. reflexivity.
  - rewrite Hlv5, Hlv4, Hlv3, Hlv2, Hlv1.
    destruct (enemies g) eqn:Eg; destruct (enemies g2) eqn:Eg2; trivial.
    + destruct Hnil as [_ Hn]. discriminate (Hn eq_refl).
    + destruct Hnil as [Hn _]. discriminate (Hn eq_refl).
  - rewrite Hsc5, Hsc4, Hsc3, Hsc2, Hsc1, Hps.
    destruct (enemies g) eqn:Eg; destruct (enemies g2) eqn:Eg2; trivial.
    + destruct Hnil as [_ Hn]. discriminate (Hn eq_refl).
    + destruct Hnil as [Hn _]. discriminate (Hn eq_refl).
  - rewrite Hli4, Hl3, Hstr in Hli5. exact Hli5.
  - rewrite Hst5, Hst4, Hst3, Hst2, Hst1, Hl3, Hstr, Hlow.
    unfold frameGameovers.
    destruct (lowEnemies g); simpl;
      destruct (lethal (livesAfterEnemies g) (frameStruck env g shots)); reflexivity.
  - rewrite Hev5, Hev4, Hev3, Hev2, Hev1, Hlow, <- !app_assoc. reflexivity.
  - rewrite !countGameover_app, Hcnt5, Hcnt4, Hcnt1, countGameover_gameoverRun,
      Hl3, Hstr.
    unfold frameGameovers. lia.
  - intros l Hin.
    apply in_app_or in Hin. destruct Hin as [Hin | Hin].
    { right. right. specialize (Hsl5 l Hin).
      rewrite Hli4, Hl3, Hstr in Hsl5. exact Hsl5. }
    apply in_app_or in Hin. destruct Hin as [Hin | Hin].
    { right. left. destruct (Hsl4 l Hin) as (k & Hk & ->).
      rewrite Hstr in Hk. rewrite Hl3. exists k. split; [exact Hk | reflexivity]. }
    apply in_app_or in Hin. destruct Hin as [Hin | Hin].
    { left. apply gameoverRun_SetLives in Hin. destruct Hin as [-> Hn].
      split; [reflexivity|]. intros E. rewrite E in Hn. apply Hn. reflexivity. }
    destruct Hevs1 as [-> | ->]; simpl in Hin; [contradiction|].
    destruct Hin as [Hin | []]. discriminate.
  - intros st Hin.
    apply in_app_or in Hin. destruct Hin as [Hin | Hin].
    { exfalso. exact (Hsg5 st Hin). }
    apply in_app_or in Hin. destruct Hin as [Hin | Hin].
    { exact (Hsg4 st Hin). }
    apply in_app_or in Hin. destruct Hin as [Hin | Hin].
    { exact (gameoverRun_SetGameState _ _ Hin). }
    destruct Hevs1 as [-> | ->]; simpl in Hin; [contradiction|].
    destruct Hin as [Hin | []]. discriminate.
Qed.

(** *** Frames of the application *)

Lemma run_animate_playing env w :
  state w = PLAYING ->
  exists g' h' shots es3 es4,
    run animate env w = ({| game := g'; state := gameState h' |}, rev (events h')) /\
    FrameSummary env (game w) (host0 w) g' h' shots es3 es4 (events h').
Proof.
  intros Hst.
  destruct (frame_summary env (game w) (host0 w))
    as (g' & h' & shots & es3 & es4 & evs & E & FS).
  exists g', h', shots, es3, es4. split.
  - unfold run, animate. fold (host0 w).
    change (gameState (host0 w)) with (state w). rewrite Hst. cbn [GameState_eqb].
    rewrite E. reflexivity.
  - assert (Hev : events h' = evs).
    { rewrite (fs_events FS). cbn [host0 events]. apply app_nil_r. }
    rewrite Hev. exact FS.
Qed.

Lemma run_animate_idle env w :
  state w <> PLAYING -> run animate env w = (w, []).
Proof.
  intros Hst. unfold run, animate. cbn [gameState].
  destruct w as [g st]. cbn [state game] in *.
  destruct st; try reflexivity. contradiction.
Qed.

Lemma reachable_frames envs w : reachable w -> reachable (frames envs w).
Proof.
  revert w. induction envs as [|env envs IH]; intros w Hw; simpl; trivial.
  apply IH. apply reachable_animate. exact Hw.
Qed.

(** ** 13. Invariants of the reachable worlds *)

Lemma Player_move_speed inp p : Player.speed (Player.move inp p) = Player.speed p.
Proof.
  unfold Player.move.
  destruct (left inp && _); destruct (right inp && _); reflexivity.
Qed.

Lemma Player_move_width inp p :
  GameObject.width (Player.move inp p) = GameObject.width p.
Proof.
  unfold Player.move.
  destruct (left inp && _); destruct (right inp && _); reflexivity.
Qed.

Lemma onLattice_left p :
  onLattice p -> (0 <? GameObject.x p) = true ->
  onLattice (Player.set_x p (GameObject.x p - 8)).
Proof.
  intros (k & Hk & Hx) Hlt. apply Qlt_bool_iff in Hlt.
  rewrite Hx in Hlt. change 0 with (inject_Z 0) in Hlt.
  rewrite <- Zlt_Qlt in Hlt.
  exists (k - 1)%Z. split; [lia|].
  cbn [Player.set_x Player.obj GameObject.set_x GameObject.x].
  rewrite Qred_correct, Hx.
  unfold Qeq, Qminus, Qplus, Qopp, inject_Z. cbn [Qnum Qden]. lia.
Qed.

Lemma onLattice_right p :
  onLattice p -> (GameObject.x p <? GAME_WIDTH - 40) = true ->
  onLattice (Player.set_x p (GameObject.x p + 8)).
Proof.
  intros (k & Hk & Hx) Hlt. apply Qlt_bool_iff in Hlt.
  rewrite Hx in Hlt.
  assert (H760 : GAME_WIDTH - 40 == inject_Z 760) by reflexivity.
  rewrite H760 in Hlt. rewrite <- Zlt_Qlt in Hlt.
  exists (k + 1)%Z. split; [lia|].
  cbn [Player.set_x Player.obj GameObject.set_x GameObject.x].
  rewrite Qred_correct, Hx.
  unfold Qeq, Qplus, inject_Z. cbn [Qnum Qden]. lia.
Qed.

Lemma playerOk_move inp p : playerOk p -> playerOk (Player.move inp p).
Proof.
  intros (Hs & Hw & Hl).
  split; [rewrite Player_move_speed; exact Hs|].
  split; [rewrite Player_move_width; exact Hw|].
  unfold Player.move. rewrite Hs.
  destruct (left inp && (0 <? GameObject.x p)) eqn:E1.
  - apply andb_true_iff in E1. destruct E1 as [_ E1].
    pose proof (onLattice_left p Hl E1) as Hl1.
    change (GameObject.width (Player.set_x p (GameObject.x p - 8)))
      with (GameObject.width p).
    change (Player.speed (Player.set_x p (GameObject.x p - 8)))
      with (Player.speed p).
    rewrite Hw, Hs.
    destruct (right inp && _) eqn:E2; [|exact Hl1].
    apply andb_true_iff in E2. destruct E2 as [_ E2].
    exact (onLattice_right _ Hl1 E2).
  - rewrite Hw, ?Hs.
    destruct (right inp && _) eqn:E2; [|exact Hl].
    apply andb_true_iff in E2. destruct E2 as [_ E2].
    exact (onLattice_right _ Hl E2).
Qed.

Lemma onLattice_bounds p : onLattice p -> -4 <= GameObject.x p <= 764.
Proof.
  intros (k & Hk & Hx). rewrite Hx.
  change (-4) with (inject_Z (-4)). change 764 with (inject_Z 764).
  rewrite <- !Zle_Qle. lia.
Qed.

Lemma playerOk_new : playerOk Player.new.
Proof.
  split; [reflexivity|]. split; [reflexivity|].
  exists 47%Z. split; [lia | reflexivity].
Qed.

Lemma wave_enemyOk r : Forall enemyOk (wave r).
Proof.
  apply Forall_forall. intros e He. unfold wave in He.
  apply in_flat_map in He. destruct He as (row & _ & He).
  apply in_map_iff in He. destruct He as (c & <- & _).
  unfold enemyOk, Enemy.new. cbn [Enemy.points].
  destruct (row =? 0)%Z; [cbn; lia|]. destruct (row =? 1)%Z; cbn; lia.
Qed.

Lemma wave_length r : List.length (wave r) = 32%nat.
Proof. reflexivity. Qed.

Lemma wave_unmarked r :
  Forall (fun e : Enemy.t => GameObject.markedForDeletion e = false) (wave r).
Proof.
  apply Forall_forall. intros e He. unfold wave in He.
  apply in_flat_map in He. destruct He as (row & _ & He).
  apply in_map_iff in He. destruct He as (c & <- & _).
  unfold Enemy.new. cbn [Enemy.obj].
  destruct (_ && _); reflexivity.
Qed.

Lemma enemiesAfterMove_enemyOk g :
  Forall enemyOk (enemies g) -> Forall enemyOk (enemiesAfterMove g).
Proof.
  intros H. unfold enemiesAfterMove.
  assert (Ha : Forall enemyOk (map (advance g) (enemies g))).
  { apply Forall_map. revert H. apply Forall_impl. intros e He. exact He. }
  destruct (hitEdge g); trivial.
  apply Forall_map. revert Ha. apply Forall_impl. intros e He. exact He.
Qed.

Lemma markRel_enemyOk es es' :
  Forall2 markRel es es' -> Forall enemyOk es -> Forall enemyOk es'.
Proof.
  induction 1 as [|e e' es es' H _ IH]; intros Hok; constructor.
  - inversion Hok; subst. unfold enemyOk. rewrite (markRel_points _ _ H). assumption.
  - apply IH. inversion Hok; assumption.
Qed.

Lemma Forall_filter_keep {A} (P : A -> Prop) (f : A -> bool) (l : list A) :
  Forall P l -> Forall P (filter f l).
Proof.
  rewrite !Forall_forall. intros H a Ha. apply filter_In in Ha. apply H. tauto.
Qed.

Lemma pointsHit_nonneg p es : Forall enemyOk es -> (0 <= pointsHit p es)%Z.
Proof.
  unfold pointsHit. induction 1 as [|e es He _ IH]; simpl; [lia|].
  unfold enemyOk in He. destruct (checkCollision p e); lia.
Qed.

Lemma playerGain_nonneg es ps : Forall enemyOk es -> (0 <= playerGain es ps)%Z.
Proof.
  intros H. unfold playerGain. induction ps as [|p ps IH]; simpl; [lia|].
  pose proof (pointsHit_nonneg (Projectile.update p) es H).
  destruct (Projectile.isPlayer p); lia.
Qed.

Lemma run_startGame env w :
  run startGame env w =
  if needsInit (game w)
  then ({| game := newGame (random env 0); state := PLAYING |},
        [SetGameState PLAYING; SetScore 0; SetLives 3])
  else ({| game := game w; state := PLAYING |}, [SetGameState PLAYING]).
Proof.
  unfold run, startGame, needsInit. sim.
  destruct ((lives (game w) <=? 0)%Z || (List.length (enemies (game w)) =? 0)%nat);
    reflexivity.
Qed.

Lemma Inv_world0 : Inv world0.
Proof.
  constructor; cbn.
  - exact playerOk_new.
  - constructor.
  - constructor.
  - now left.
  - lia.
  - discriminate.
Qed.

Lemma Inv_startGame env w : Inv w -> Inv (fst (run startGame env w)).
Proof.
  intros [Hp He Hu Hd Hmax Hpl]. rewrite run_startGame.
  destruct (needsInit (game w)) eqn:E; cbn [fst].
  - constructor; cbn [game state newGame player enemies enemyDir lives].
    + exact playerOk_new.
    + apply wave_enemyOk.
    + apply wave_unmarked.
    + now left.
    + lia.
    + lia.
  - constructor; cbn [game state]; trivial.
    intros _. unfold needsInit in E. apply orb_false_iff in E. destruct E as [E _].
    apply Z.leb_gt in E. lia.
Qed.

Lemma alive_unmarked {A} (obj : A -> GameObject.t) (l : list A) :
  Forall (fun a => alive obj a = true) l -> unmarked obj l.
Proof.
  apply Forall_impl. intros a H. unfold alive in H.
  destruct (GameObject.markedForDeletion (obj a)); [discriminate | reflexivity].
Qed.

Lemma lethal_none_margin l n : lethal l n = O -> (1 <= l)%Z -> (1 <= l - Z.of_nat n)%Z.
Proof.
  intros H Hl. pose proof (lethal_closed l n) as C. rewrite H in C. lia.
Qed.

Lemma Inv_animate env w : Inv w -> Inv (fst (run animate env w)).
Proof.
  intros HI. destruct (GameState_eqb (state w) PLAYING) eqn:Est.
  2:{ rewrite run_animate_idle; [exact HI|]. intros E. rewrite E in Est. discriminate. }
  assert (Hst : state w = PLAYING) by (destruct (state w); try discriminate; reflexivity).
  destruct (run_animate_playing env w Hst) as (g' & h' & shots & es3 & es4 & E & FS).
  rewrite E. cbn [fst]. destruct HI as [[Hs [Hw Hl]] He Hu Hd Hmax Hpl].
  specialize (Hpl Hst).
  assert (Hes3 : Forall enemyOk es3).
  { destruct (enemies (game w)) eqn:Eg.
    - destruct (fs_wave FS Eg) as (r & ->). apply wave_enemyOk.
    - rewrite (fs_moved FS) by (rewrite Eg; discriminate).
      apply enemiesAfterMove_enemyOk. rewrite Eg. exact He. }
  assert (Hlae : (livesAfterEnemies (game w) <= 5)%Z).
  { unfold livesAfterEnemies. destruct (lowEnemies (game w)); lia. }
  constructor; cbn [game state].
  - pose proof (playerOk_move (input env) _ (conj Hs (conj Hw Hl))) as (Hs' & Hw' & Hl').
    split; [rewrite (fs_speed FS); exact Hs|].
    split; [rewrite (fs_player FS); exact Hw'|].
    unfold onLattice. rewrite (fs_player FS). exact Hl'.
  - rewrite (fs_enemies FS). apply Forall_filter_keep.
    apply (markRel_enemyOk es3); [|exact Hes3].
    rewrite (fs_marks FS). apply markHits_markRel.
  - rewrite (fs_enemies FS). apply alive_unmarked, Forall_filter_true.
  - rewrite (fs_enemyDir FS). destruct (hitEdge (game w)); [|exact Hd].
    destruct Hd as [-> | ->]; [now right | now left].
  - pose proof (fs_lives FS). lia.
  - intros Hg. rewrite (fs_state FS) in Hg.
    unfold frameGameovers in Hg.
    destruct (lowEnemies (game w)) as [|e0 l0] eqn:Elow; [|discriminate].
    cbn [List.length Nat.add] in Hg.
    destruct (lethal (livesAfterEnemies (game w)) (frameStruck env (game w) shots))
      eqn:Elet; [|discriminate].
    assert (Hl2 : livesAfterEnemies (game w) = lives (game w))
      by (unfold livesAfterEnemies; rewrite Elow; reflexivity).
    pose proof (lethal_none_margin _ _ Elet) as Hm. rewrite Hl2 in Hm.
    specialize (Hm Hpl). pose proof (fs_lives FS) as Hlv. rewrite Hl2 in Hlv. lia.
Qed.

Theorem reachable_Inv w : reachable w -> Inv w.
Proof.
  induction 1.
  - exact Inv_world0.
  - apply Inv_startGame. assumption.
  - apply Inv_animate. assumption.
Qed.

(** ** 14. The properties of the specification *)

(** C9. The AABB overlap test is symmetric: for all rectangles [a] and [b],
    [checkCollision a b = checkCollision b a]. *)
Theorem checkCollision_symmetric (a b : GameObject.t) :
  checkCollision a b = checkCollision b a.
Proof.
  unfold checkCollision.
  destruct (GameObject.x a <? GameObject.x b + GameObject.width b);
    destruct (GameObject.x b <? GameObject.x a + GameObject.width a);
    destruct (GameObject.y a <? GameObject.y b + GameObject.height b);
    destruct (GameObject.y b <? GameObject.y a + GameObject.height a);
    reflexivity.
Qed.

(** The test is the half-open overlap of the two rectangles on both axes. *)
Lemma checkCollision_iff (a b : GameObject.t) :
  checkCollision a b = true <->
  GameObject.x a < GameObject.x b + GameObject.width b /\
  GameObject.x a + GameObject.width a > GameObject.x b /\
  GameObject.y a < GameObject.y b + GameObject.height b /\
  GameObject.y a + GameObject.height a > GameObject.y b.
Proof.
  unfold checkCollision. rewrite !andb_true_iff, !Qlt_bool_iff. tauto.
Qed.

(** C6. After any complete frame run while PLAYING, every entity left in
    the four collections has [markedForDeletion = false]. *)
Theorem sweep_invariant (env : Env) (w : World) :
  state w = PLAYING ->
  let g' := game (fst (run animate env w)) in
  unmarked Enemy.obj (enemies g') /\
  unmarked Projectile.obj (projectiles g') /\
  unmarked Powerup.obj (powerups g') /\
  unmarked Particle.obj (particles g').
Proof.
  intros Hst.
  destruct (run_animate_playing env w Hst) as (g' & h' & shots & es3 & es4 & E & FS).
  rewrite E. cbn [fst game].
  split; [|split; [|split]]; apply alive_unmarked.
  - rewrite (fs_enemies FS). apply Forall_filter_true.
  - exact (fs_clean_projectiles FS).
  - exact (fs_clean_powerups FS).
  - exact (fs_clean_particles FS).
Qed.

Lemma sweep_invariant_witness :
  state world1 = PLAYING /\
  let g' := game (fst (run animate quietEnv world1)) in
  unmarked Enemy.obj (enemies g') /\
  unmarked Projectile.obj (projectiles g') /\
  unmarked Powerup.obj (powerups g') /\
  unmarked Particle.obj (particles g').
Proof.
  split; [reflexivity|].
  apply (sweep_invariant quietEnv world1). reflexivity.
Defined.

Lemma pointsHit_filter p es :
  pointsHit p es = sumZ (map Enemy.points (filter (collides p) es)).
Proof.
  unfold pointsHit. induction es as [|e es IH]; simpl; trivial.
  unfold collides at 1. destruct (checkCollision p e); simpl; rewrite IH; reflexivity.
Qed.

(** C10. A player projectile that overlaps several enemies in a frame marks
    every one of them and adds the sum of their point values to the score:
    the inner loop goes on after the first hit. *)
Theorem projectile_hits_every_enemy (env : Env) (g : Game) (h : Host) (p : Projectile.t) :
  Projectile.isPlayer p = true ->
  let p1 := Projectile.update p in
  let '(p', g', _) := projectileStep p env g h in
  enemies g' = map (fun e : Enemy.t => if checkCollision p1 e then Enemy.mark e else e)
                   (enemies g) /\
  score g' = (score g + sumZ (map Enemy.points (filter (collides p1) (enemies g))))%Z /\
  (forall e, In e (enemies g) -> checkCollision p1 e = true ->
             In (Enemy.mark e) (enemies g') /\
             GameObject.markedForDeletion (Enemy.mark e) = true) /\
  (existsb (collides p1) (enemies g) = true -> GameObject.markedForDeletion p' = true).
Proof.
  intros Hp p1.
  destruct (projectileStep_player p env g h Hp) as (pus & ps & k & evs & _ & E).
  fold p1 in E. rewrite E. cbn [enemies score].
  split; [reflexivity|]. split; [rewrite pointsHit_filter; reflexivity|]. split.
  - intros e He Hc. split; [|reflexivity].
    apply in_map_iff. exists e. split; [|exact He].
    unfold markIfHit. rewrite Hc. reflexivity.
  - intros Hex. rewrite Hex. reflexivity.
Qed.

Lemma projectile_hits_every_enemy_witness :
  let p := Projectile.new 110 130 (-12) COLORS.yellow true in
  let g := twoEnemies in
  let h := {| gameState := PLAYING; randomCalls := 0; events := [] |} in
  let p1 := Projectile.update p in
  let '(p', g', _) := projectileStep p quietEnv g h in
  enemies g' = map (fun e : Enemy.t => if checkCollision p1 e then Enemy.mark e else e)
                   (enemies g) /\
  score g' = (score g + sumZ (map Enemy.points (filter (collides p1) (enemies g))))%Z /\
  (forall e, In e (enemies g) -> checkCollision p1 e = true ->
             In (Enemy.mark e) (enemies g') /\
             GameObject.markedForDeletion (Enemy.mark e) = true) /\
  (existsb (collides p1) (enemies g) = true -> GameObject.markedForDeletion p' = true).
Proof.
  exact (projectile_hits_every_enemy quietEnv twoEnemies
           {| gameState := PLAYING; randomCalls := 0; events := [] |}
           (Projectile.new 110 130 (-12) COLORS.yellow true) eq_refl).
Defined.

(** On that input both enemies are swept and the score rises by 50 + 10. *)
Example twoEnemies_frame :
  let w := fst (run animate quietEnv {| game := twoEnemies; state := PLAYING |}) in
  enemies (game w) = [] /\ projectiles (game w) = [] /\ score (game w) = 60%Z.
Proof. vm_compute. repeat split. Qed.

(** C3, as the code has it. With [input.shoot] set, the player fires iff
    strictly more than 200 ms have passed since the last shot; a shot pushes
    exactly two player projectiles, at the two wingtips of the moved ship,
    sets [lastShot] to the current time and plays "shoot"; otherwise no
    projectile is pushed and [lastShot] is unchanged. *)
Theorem player_fires_iff (env : Env) (g : Game) (h : Host) :
  shoot (input env) = true ->
  let p1 := Player.move (input env) (player g) in
  let '(_, g', h') := playerPhase env g h in
  ((200 < now env - Player.lastShot (player g))%Z ->
     projectiles g' =
       projectiles g ++
       [Projectile.new (GameObject.x p1) (GameObject.y p1) (-12) COLORS.yellow true;
        Projectile.new (GameObject.x p1 + GameObject.width p1) (GameObject.y p1) (-12)
          COLORS.yellow true] /\
     Player.lastShot (player g') = now env /\
     events h' = PlaySound snd_shoot :: events h) /\
  ((now env - Player.lastShot (player g) <= 200)%Z ->
     projectiles g' = projectiles g /\
     Player.lastShot (player g') = Player.lastShot (player g) /\
     events h' = events h).
Proof.
  intros Hshoot p1. rewrite playerPhase_eq. cbv zeta. fold p1.
  unfold playerFires. rewrite Hshoot. cbn [andb].
  destruct (200 <? now env - Player.lastShot (player g))%Z eqn:E.
  - apply Z.ltb_lt in E. split; [|lia]. intros _. norm. repeat split.
  - apply Z.ltb_ge in E. split; [lia|]. intros _. norm.
    repeat split. unfold p1. apply Player_move_lastShot.
Qed.

Lemma player_fires_iff_witness :
  let env := shootEnv 1000 in
  let g := game world1 in
  let h := host0 world1 in
  shoot (input env) = true /\
  let p1 := Player.move (input env) (player g) in
  let '(_, g', h') := playerPhase env g h in
  ((200 < now env - Player.lastShot (player g))%Z ->
     projectiles g' =
       projectiles g ++
       [Projectile.new (GameObject.x p1) (GameObject.y p1) (-12) COLORS.yellow true;
        Projectile.new (GameObject.x p1 + GameObject.width p1) (GameObject.y p1) (-12)
          COLORS.yellow true] /\
     Player.lastShot (player g') = now env /\
     events h' = PlaySound snd_shoot :: events h) /\
  ((now env - Player.lastShot (player g) <= 200)%Z ->
     projectiles g' = projectiles g /\
     Player.lastShot (player g') = Player.lastShot (player g) /\
     events h' = events h).
Proof.
  split; [reflexivity|].
  exact (player_fires_iff (shootEnv 1000) (game world1) (host0 world1) eq_refl).
Defined.

(** Against C3 as stated: the player shot at time 1000; at time 1200, 200 ms
    later and with [input.shoot] still set, no projectile is pushed. *)
Lemma no_shot_at_200ms :
  let w := fst (run animate (shootEnv 1000) world1) in
  let '(_, g', h') := playerPhase (shootEnv 1200) (game w) (host0 w) in
  Player.lastShot (player (game w)) = 1000%Z /\
  (200 <= now (shootEnv 1200) - Player.lastShot (player (game w)))%Z /\
  projectiles g' = projectiles (game w) /\
  events h' = [].
Proof. vm_compute. repeat split. discriminate. Qed.

Lemma reachable_world1 : reachable world1.
Proof.
  unfold world1. apply reachable_start; [apply reachable_init | discriminate].
Qed.



(** The movement itself: a step of [speed] to the left when [left] is held
    and [x > 0], then a step to the right when [right] is held and the
    (possibly moved) x is below [800 - width]. *)
Lemma Player_move_x (inp : InputState) (p : Player.t) :
  let x1 := if left inp && (0 <? GameObject.x p)
            then Qred (GameObject.x p - Player.speed p) else GameObject.x p in
  GameObject.x (Player.move inp p) =
  if right inp && (x1 <? GAME_WIDTH - GameObject.width p)
  then Qred (x1 + Player.speed p) else x1.
Proof.
  unfold Player.move.
  destruct (left inp && (0 <? GameObject.x p)); cbv zeta;
    cbn [Player.set_x Player.obj GameObject.set_x GameObject.x GameObject.width
         Player.speed];
    match goal with |- context [if ?c then _ else _] => destruct c end;
    reflexivity.
Qed.

(** For any position, not only those the game reaches: from inside the
    viewport the ship overshoots an edge by less than one step. *)
Lemma Player_move_range (inp : InputState) (p : Player.t) :
  Player.speed p = 8 -> GameObject.width p = 40 ->
  0 <= GameObject.x p <= GAME_WIDTH - 40 ->
  -8 < GameObject.x (Player.move inp p) < GAME_WIDTH - 40 + 8.
Proof.
  intros Hs Hw Hx. rewrite Player_move_x. cbv zeta. rewrite Hs, Hw.
  unfold GAME_WIDTH in *.
  destruct (left inp && (0 <? GameObject.x p)) eqn:E1.
  - apply andb_true_iff in E1. destruct E1 as [_ E1]. apply Qlt_bool_iff in E1.
    destruct (right inp && _) eqn:E2.
    + apply andb_true_iff in E2. destruct E2 as [_ E2]. apply Qlt_bool_iff in E2.
      rewrite Qred_correct in E2. rewrite !Qred_correct. lra.
    + rewrite Qred_correct. lra.
  - destruct (right inp && _) eqn:E2.
    + apply andb_true_iff in E2. destruct E2 as [_ E2]. apply Qlt_bool_iff in E2.
      rewrite Qred_correct. lra.
    + lra.
Qed.


Lemma advance_x g e :
  GameObject.x (advance g e) == GameObject.x e + enemySpeed g.
Proof. apply Qred_correct. Qed.

Lemma stepDown_y e : GameObject.y (stepDown e) == GameObject.y e + 20.
Proof. apply Qred_correct. Qed.


Lemma Forall2_In_r {A B} (R : A -> B -> Prop) l l' b :
  Forall2 R l l' -> In b l' -> exists a, In a l /\ R a b.
Proof.
  induction 1 as [|a b' l l' H _ IH]; intros Hin; [destruct Hin|].
  destruct Hin as [<- | Hin].
  - exists a. split; [now left | exact H].
  - destruct (IH Hin) as (a0 & Ha0 & HR). exists a0. split; [now right | exact HR].
Qed.




Lemma filter_alive_markHits ps es :
  unmarked Enemy.obj es ->
  filter (alive Enemy.obj) (map (markHits ps) es) =
  filter (fun e => negb (hitBy ps e)) es.
Proof.
  induction 1 as [|e es He _ IH]; cbn [map filter]; trivial.
  assert (Em : markHits ps e = if hitBy ps e then Enemy.mark e else e) by reflexivity.
  rewrite Em. destruct (hitBy ps e); cbn [negb].
  - change (alive Enemy.obj (Enemy.mark e)) with false. cbv iota. exact IH.
  - unfold alive at 1. rewrite He. cbn [negb]. f_equal. exact IH.
Qed.

(** The enemies left by a frame, exactly: those of the frame's enemies
    (translated, or fresh) that no player projectile has hit. *)
Lemma frame_enemies_exact env g h g' h' shots es3 es4 evs :
  FrameSummary env g h g' h' shots es3 es4 evs ->
  unmarked Enemy.obj es3 ->
  enemies g' =
  filter (fun e => negb (hitBy (projectiles g ++ shotsFired env g ++ shots) e)) es3.
Proof.
  intros FS Hu. rewrite (fs_enemies FS), (fs_marks FS).
  apply filter_alive_markHits. exact Hu.
Qed.

(** The edge bounce, run: 139 frames after the start no enemy has reached a
    margin; in frame 140 the rightmost column reaches x = 760, the direction
    becomes -1 and the 32 enemies are 20 lower. *)
Example edge_bounce :
  let w := frames (repeat quietEnv 139) world1 in
  let w' := fst (run animate quietEnv w) in
  enemyDir (game world1) = 1%Z /\ enemyDir (game w) = 1%Z /\
  hitEdge (game w) = true /\
  enemyDir (game w') = (-1)%Z /\
  map (fun e : Enemy.t => Qred (GameObject.y e)) (enemies (game w')) =
  map (fun e : Enemy.t => Qred (GameObject.y e + 20)) (enemies (game w)) /\
  List.length (enemies (game w')) = 32%nat.
Proof. vm_compute. repeat split. Qed.

Lemma animate_score_le env w :
  Inv w -> (score (game w) <= score (game (fst (run animate env w))))%Z.
Proof.
  intros HI. destruct (GameState_eqb (state w) PLAYING) eqn:Est.
  2:{ rewrite run_animate_idle; [cbn; lia|]. intros E. rewrite E in Est. discriminate. }
  assert (Hst : state w = PLAYING) by (destruct (state w); try discriminate; reflexivity).
  destruct (run_animate_playing env w Hst) as (g' & h' & shots & es3 & es4 & E & FS).
  rewrite E. cbn [fst game]. rewrite (fs_score FS).
  assert (Hes3 : Forall enemyOk es3).
  { destruct (enemies (game w)) eqn:Eg.
    - destruct (fs_wave FS Eg) as (r & ->). apply wave_enemyOk.
    - rewrite (fs_moved FS) by (rewrite Eg; discriminate).
      apply enemiesAfterMove_enemyOk. exact (inv_enemies HI). }
  pose proof (playerGain_nonneg es3
                (projectiles (game w) ++ shotsFired env (game w) ++ shots) Hes3).
  destruct (enemies (game w)); lia.
Qed.

(** C7. Within a run, the score never decreases: after any sequence of
    frames from a reachable world it is at least what it was. *)
Theorem score_monotone (w : World) (envs : list Env) :
  reachable w -> (score (game w) <= score (game (frames envs w)))%Z.
Proof.
  revert w. induction envs as [|env envs IH]; intros w Hr; simpl; [lia|].
  pose proof (animate_score_le env w (reachable_Inv w Hr)) as H1.
  pose proof (IH _ (reachable_animate env Hr)) as H2. lia.
Qed.

Lemma score_monotone_witness :
  reachable world1 /\
  (score (game world1) <= score (game (frames [shootEnv 1000; quietEnv] world1)))%Z.
Proof.
  assert (Hr : reachable world1)
    by (apply reachable_start; [apply reachable_init | discriminate]).
  split; [exact Hr|].
  exact (score_monotone world1 [shootEnv 1000; quietEnv] Hr).
Defined.

(** C4, as the code has it. When a frame starts with no enemy, the wave
    completion raises [level] by exactly 1 and [score] by exactly 1000,
    leaves [lives] alone and builds a wave of 32 unmarked enemies. Over the
    whole frame [level] rises by exactly 1 and [score] by 1000 plus the
    points of the fresh enemies that player projectiles hit in the same
    frame; the enemies left are the fresh ones that were not hit. *)
Theorem wave_clear (env : Env) (w : World) :
  state w = PLAYING -> enemies (game w) = [] ->
  let g := game w in
  (forall h0, let '(_, g3, _) := waveCompletion env g h0 in
     level g3 = (level g + 1)%Z /\ score g3 = (score g + 1000)%Z /\
     lives g3 = lives g /\ List.length (enemies g3) = 32%nat /\
     unmarked Enemy.obj (enemies g3)) /\
  let g' := game (fst (run animate env w)) in
  level g' = (level g + 1)%Z /\
  exists r shots,
    enemyShots shots /\
    let ps := projectiles g ++ shotsFired env g ++ shots in
    enemies g' = filter (fun e => negb (hitBy ps e)) (wave r) /\
    score g' = (score g + 1000 + playerGain (wave r) ps)%Z /\
    (score g + 1000 <= score g')%Z.
Proof.
  intros Hst Hnil g. split.
  - intros h0. rewrite waveCompletion_eq. fold g in Hnil. rewrite Hnil. norm.
    repeat split. apply wave_unmarked.
  - destruct (run_animate_playing env w Hst) as (g' & h' & shots & es3 & es4 & E & FS).
    rewrite E. cbn [fst game]. fold g in FS, Hnil.
    destruct (fs_wave FS Hnil) as (r & Er).
    split; [rewrite (fs_level FS), Hnil; reflexivity|].
    exists r, shots. rewrite <- Er.
    split; [exact (fs_shots FS)|]. cbv zeta.
    split.
    { rewrite (fs_enemies FS), (fs_marks FS).
      apply filter_alive_markHits. rewrite Er. apply wave_unmarked. }
    assert (Hsc : score g' =
                  (score g + 1000
                   + playerGain es3 (projectiles g ++ shotsFired env g ++ shots))%Z)
      by (rewrite (fs_score FS), Hnil; reflexivity).
    split; [exact Hsc|].
    assert (Hok : Forall enemyOk es3) by (rewrite Er; apply wave_enemyOk).
    pose proof (playerGain_nonneg es3 (projectiles g ++ shotsFired env g ++ shots) Hok).
    lia.
Qed.

Lemma wave_clear_witness :
  state clearedWorld = PLAYING /\ enemies (game clearedWorld) = [] /\
  let env := keyEnv 397 kN true in
  let g := game clearedWorld in
  (forall h0, let '(_, g3, _) := waveCompletion env g h0 in
     level g3 = (level g + 1)%Z /\ score g3 = (score g + 1000)%Z /\
     lives g3 = lives g /\ List.length (enemies g3) = 32%nat /\
     unmarked Enemy.obj (enemies g3)) /\
  let g' := game (fst (run animate env clearedWorld)) in
  level g' = (level g + 1)%Z /\
  exists r shots,
    enemyShots shots /\
    let ps := projectiles g ++ shotsFired env g ++ shots in
    enemies g' = filter (fun e => negb (hitBy ps e)) (wave r) /\
    score g' = (score g + 1000 + playerGain (wave r) ps)%Z /\
    (score g + 1000 <= score g')%Z.
Proof.
  assert (H1 : state clearedWorld = PLAYING) by (vm_compute; reflexivity).
  assert (H2 : enemies (game clearedWorld) = []) by (vm_compute; reflexivity).
  split; [exact H1|]. split; [exact H2|].
  exact (wave_clear (keyEnv 397 kN true) clearedWorld H1 H2).
Defined.

(** The session, in numbers: its last frame shoots the last enemy; eleven
    projectiles are then in flight, the fifth at x = 228, y = 204. The next
    frame builds the wave, whose enemy of row 3, column 0 is at x = 200,
    y = 200 (35 by 35), and moves that projectile to y = 192, onto it. *)
Example session_positions :
  List.length sessionEnvs = 396%nat /\
  List.length (enemies (game (frames (firstn 395 sessionEnvs) world1))) = 1%nat /\
  score (game clearedWorld) = 800%Z /\ lives (game clearedWorld) = 3%Z /\
  map (fun p : Projectile.t => (GameObject.x p, GameObject.y p, Projectile.isPlayer p))
      (projectiles (game clearedWorld)) =
  [(100, 36, true); (140, 36, true); (156, 120, true); (188, 204, true);
   (228, 204, true); (204, 288, true); (244, 288, true); (220, 372, true);
   (260, 372, true); (236, 456, true); (276, 456, true)].
Proof. vm_compute. repeat split. Qed.

(** Against C4 as stated: in a reachable world, the frame that follows the
    clearing of the wave raises the score by 1010, not 1000, since a
    projectile still in flight hits an enemy of the fresh wave in that same
    frame; 31 enemies are left. *)
Lemma wave_clear_scores_more :
  let w1 := clearedWorld in
  let w2 := fst (run animate (keyEnv 397 kN true) w1) in
  reachable w1 /\
  enemies (game w1) = [] /\ state w1 = PLAYING /\
  level (game w2) = (level (game w1) + 1)%Z /\
  score (game w2) = (score (game w1) + 1010)%Z /\
  score (game w2) <> (score (game w1) + 1000)%Z /\
  List.length (enemies (game w2)) = 31%nat.
Proof.
  cbv zeta. split; [apply reachable_frames, reachable_world1|].
  vm_compute. repeat split; discriminate.
Qed.

Lemma reachable_beforeVolley : reachable beforeVolley.
Proof. apply reachable_frames, reachable_world1. Qed.


Lemma frame_state env w g' h' shots es3 es4 evs :
  state w = PLAYING ->
  FrameSummary env (game w) (host0 w) g' h' shots es3 es4 evs ->
  (gameState h' = PLAYING /\ frameGameovers env (game w) shots = O) \/
  (gameState h' = GAMEOVER /\ (1 <= frameGameovers env (game w) shots)%nat).
Proof.
  intros Hst FS. rewrite (fs_state FS). cbn [host0 gameState]. rewrite Hst.
  destruct (frameGameovers env (game w) shots); [left | right]; split; trivial; lia.
Qed.

(** The run of [volleyEnv], in numbers: before frame 90 the ship is at
    x = 228 with 3 lives and the four shots are at y = 525, at
    x = 266.5, 231.5, 246.5 and 261.5; frame 90 moves them to y = 530, where
    all four overlap the ship (228 <= x < 268, 540 <= y < 580). *)
Example volley_positions :
  Qred (GameObject.x (player (game beforeVolley))) = 228 /\
  Qred (GameObject.y (player (game beforeVolley))) = 540 /\
  map (fun p : Projectile.t =>
         (Qred (GameObject.x p), Qred (GameObject.y p), Projectile.isPlayer p))
      (projectiles (game beforeVolley)) =
  [(533 # 2, 525, false); (463 # 2, 525, false);
   (493 # 2, 525, false); (523 # 2, 525, false)].
Proof. vm_compute. repeat split. Qed.

Example volley_events :
  snd (run animate (volleyEnv 90) beforeVolley) =
  [SetLives 2; PlaySound snd_explosion;
   SetLives 1; PlaySound snd_explosion;
   SetLives 0; PlaySound snd_explosion; SetGameState GAMEOVER; PlaySound snd_gameover;
   SetLives (-1); PlaySound snd_explosion; SetGameState GAMEOVER; PlaySound snd_gameover].
Proof. vm_compute. reflexivity. Qed.

(** C1, as the code has it. In every reachable world [lives <= 5], and
    [lives >= 1] while PLAYING. A frame that sets [lives] to 0 or below, or
    ends with [lives <= 0], ends in GAMEOVER; within such a frame further
    hits take [lives] below 0, so that -1 and less are reachable. *)
Theorem lives_bounds (w : World) :
  reachable w ->
  (lives (game w) <= 5)%Z /\
  (state w = PLAYING ->
   (1 <= lives (game w))%Z /\
   forall env,
     let w' := fst (run animate env w) in
     let evs := snd (run animate env w) in
     (forall l, In (SetLives l) evs -> (l <= 0)%Z -> state w' = GAMEOVER) /\
     ((lives (game w') <= 0)%Z -> state w' = GAMEOVER)).
Proof.
  intros Hr. pose proof (reachable_Inv w Hr) as HI.
  split; [exact (inv_lives_max HI)|].
  intros Hst. split; [exact (inv_lives_playing HI Hst)|].
  intros env w' evs.
  pose proof (reachable_Inv _ (reachable_animate env Hr)) as HI'.
  destruct (run_animate_playing env w Hst) as (g' & h' & shots & es3 & es4 & E & FS).
  unfold w', evs in *. rewrite E in *. cbn [fst snd game state] in *.
  pose proof (inv_lives_playing HI Hst) as Hl1.
  destruct (frame_state env w g' h' shots es3 es4 _ Hst FS) as [[Hpl Hz] | [Hgo Hpos]].
  2:{ split; intros; exact Hgo. }
  split.
  - intros l Hin Hl. exfalso. apply in_rev in Hin.
    unfold frameGameovers in Hz.
    assert (Hlow : lowEnemies (game w) = []).
    { destruct (lowEnemies (game w)); [reflexivity | simpl in Hz; lia]. }
    assert (Hlet : lethal (livesAfterEnemies (game w)) (frameStruck env (game w) shots) = O)
      by lia.
    assert (Hl2 : livesAfterEnemies (game w) = lives (game w))
      by (unfold livesAfterEnemies; rewrite Hlow; reflexivity).
    pose proof (lethal_none_margin _ _ Hlet) as Hm. rewrite Hl2 in Hm.
    specialize (Hm Hl1).
    destruct (fs_SetLives FS l Hin) as [[_ Hne] | [(k & Hk & ->) | Hb]].
    + contradiction.
    + pose proof (lethal_pos _ _ k Hk Hl) as Hp. lia.
    + rewrite Hl2 in Hb. lia.
  - intros Hle. pose proof (inv_lives_playing HI' Hpl) as Hge.
    cbn [game] in Hge. lia.
Qed.

Lemma lives_bounds_witness :
  reachable world1 /\
  (lives (game world1) <= 5)%Z /\
  (state world1 = PLAYING ->
   (1 <= lives (game world1))%Z /\
   forall env,
     let w' := fst (run animate env world1) in
     let evs := snd (run animate env world1) in
     (forall l, In (SetLives l) evs -> (l <= 0)%Z -> state w' = GAMEOVER) /\
     ((lives (game w') <= 0)%Z -> state w' = GAMEOVER)).
Proof.
  assert (Hr : reachable world1)
    by (apply reachable_start; [apply reachable_init | discriminate]).
  split; [exact Hr|].
  exact (lives_bounds world1 Hr).
Defined.

(** Against C1 as stated: a reachable world in PLAYING with 3 lives from
    which one frame leaves [lives = -1]. *)
Lemma lives_go_negative :
  let w := beforeVolley in
  let w' := fst (run animate (volleyEnv 90) w) in
  reachable w /\ state w = PLAYING /\ lives (game w) = 3%Z /\
  lives (game w') = (-1)%Z /\ (lives (game w') < 0)%Z.
Proof.
  cbv zeta. split; [exact reachable_beforeVolley|].
  vm_compute. repeat split.
Qed.




(** The same happens without any projectile when several enemies reach
    the player's row together: one sound per enemy. *)
Example gameover_sound_per_enemy :
  let w := {| game := set_enemies gameRef0
                        [Enemy.new 200 505 3 false; Enemy.new 250 505 3 false];
              state := PLAYING |} in
  state (fst (run animate quietEnv w)) = GAMEOVER /\
  countGameover (snd (run animate quietEnv w)) = 2%nat.
Proof. vm_compute. split; reflexivity. Qed.

(** ** 15. Further properties of the code *)

(** *** Boxes: [checkCollision] *)




(** *** The wave: [initEnemies] *)

Lemma powerupIndex_range (r : Q) :
  0 <= r -> r < 1 -> (0 <= Qfloor (r * inject_Z (Z.of_nat 8)) < 8)%Z.
Proof.
  intros H0 H1. change (inject_Z (Z.of_nat 8)) with 8. split.
  - change 0%Z with (Qfloor 0). apply Qfloor_resp_le. lra.
  - pose proof (Qfloor_le (r * 8)) as H.
    rewrite Zlt_Qlt. change (inject_Z 8) with 8. lra.
Qed.

(** X2. When [Math.random()] returns a number of [0, 1), [initEnemies]
    replaces the enemies by a grid of 4 rows of 8, in row order: the enemy
    of row [r] and column [c] is an unmarked 35 x 35 box at
    [(200 + 50 c, 50 + 50 r)], its row gives its type (1, 2, 3, 3) and its
    points (50, 30, 10, 10), and exactly one enemy carries a powerup, in
    row 0, in the column [floor (8 * random)]. *)
Theorem initEnemies_grid (env : Env) (g : Game) (h : Host) :
  0 <= random env (randomCalls h) -> random env (randomCalls h) < 1 ->
  let '(_, g', h') := initEnemies env g h in
  List.length (enemies g') = 32%nat /\
  List.length (filter Enemy.hasPowerup (enemies g')) = 1%nat /\
  exists pc : nat,
    Z.of_nat pc = Qfloor (random env (randomCalls h) * 8) /\
    forall r c : nat, (r < 4)%nat -> (c < 8)%nat ->
      exists e : Enemy.t,
        nth_error (enemies g') (8 * r + c) = Some e /\
        GameObject.x e == 200 + 50 * inject_Z (Z.of_nat c) /\
        GameObject.y e == 50 + 50 * inject_Z (Z.of_nat r) /\
        GameObject.width e = 35 /\ GameObject.height e = 35 /\
        GameObject.markedForDeletion e = false /\
        Enemy.type e = rowType r /\ Enemy.points e = rowPoints r /\
        Enemy.hasPowerup e = ((r =? 0)%nat && (c =? pc)%nat).
Proof.
  intros H0 H1. rewrite initEnemies_eq. cbn [enemies set_enemies].
  pose proof (powerupIndex_range _ H0 H1) as Hpi.
  split; [reflexivity|].
  unfold wave. cbv zeta.
  change (random env (randomCalls h) * 8)
    with (random env (randomCalls h) * inject_Z (Z.of_nat 8)).
  generalize dependent (Qfloor (random env (randomCalls h) * inject_Z (Z.of_nat 8))).
  intros pi Hpi.
  assert (Hn : exists pc : nat, (pc < 8)%nat /\ pi = Z.of_nat pc).
  { exists (Z.to_nat pi). lia. }
  destruct Hn as (pc & Hpc & ->). clear Hpi.
  assert (Cpc : (pc = 0 \/ pc = 1 \/ pc = 2 \/ pc = 3 \/ pc = 4 \/ pc = 5 \/ pc = 6 \/ pc = 7)%nat)
    by lia.
  clear Hpc.
  repeat (destruct Cpc as [Cpc | Cpc]); subst pc;
    (split; [reflexivity|]);
    (eexists; split; [reflexivity|]);
    intros r c Hr Hc;
    assert (Cr : (r = 0 \/ r = 1 \/ r = 2 \/ r = 3)%nat) by lia;
    assert (Cc : (c = 0 \/ c = 1 \/ c = 2 \/ c = 3 \/ c = 4 \/ c = 5 \/ c = 6 \/ c = 7)%nat)
      by lia;
    clear Hr Hc;
    repeat (destruct Cr as [Cr | Cr]); subst r;
    repeat (destruct Cc as [Cc | Cc]); subst c;
    eexists; (split; [vm_compute; reflexivity|]); vm_compute; repeat split; discriminate.
Qed.

Lemma initEnemies_grid_witness :
  0 <= random quietEnv (randomCalls (host0 world0)) /\
  random quietEnv (randomCalls (host0 world0)) < 1 /\
  let '(_, g', h') := initEnemies quietEnv gameRef0 (host0 world0) in
  List.length (enemies g') = 32%nat /\
  List.length (filter Enemy.hasPowerup (enemies g')) = 1%nat /\
  exists pc : nat,
    Z.of_nat pc = Qfloor (random quietEnv (randomCalls (host0 world0)) * 8) /\
    forall r c : nat, (r < 4)%nat -> (c < 8)%nat ->
      exists e : Enemy.t,
        nth_error (enemies g') (8 * r + c) = Some e /\
        GameObject.x e == 200 + 50 * inject_Z (Z.of_nat c) /\
        GameObject.y e == 50 + 50 * inject_Z (Z.of_nat r) /\
        GameObject.width e = 35 /\ GameObject.height e = 35 /\
        GameObject.markedForDeletion e = false /\
        Enemy.type e = rowType r /\ Enemy.points e = rowPoints r /\
        Enemy.hasPowerup e = ((r =? 0)%nat && (c =? pc)%nat).
Proof.
  split; [discriminate|]. split; [reflexivity|].
  apply (initEnemies_grid quietEnv gameRef0 (host0 world0)); [discriminate | reflexivity].
Defined.

(** *** The formation of the enemies *)

Lemma apartb_iff (a b : GameObject.t) :
  apartb a b = true <->
  GameObject.x a + 50 <= GameObject.x b \/ GameObject.x b + 50 <= GameObject.x a \/
  GameObject.y a + 50 <= GameObject.y b \/ GameObject.y b + 50 <= GameObject.y a.
Proof.
  unfold apartb. rewrite !orb_true_iff, !Qle_bool_iff. tauto.
Qed.

Lemma apart_no_collision (a b : Enemy.t) :
  enemyShape a -> enemyShape b -> apart a b -> checkCollision a b = false.
Proof.
  intros (Hwa & Hha & _) (Hwb & Hhb & _) H. apply apartb_iff in H.
  destruct (checkCollision a b) eqn:E; trivial.
  apply checkCollision_iff in E. rewrite Hwa, Hha, Hwb, Hhb in E. lra.
Qed.

Lemma apart_sym (a b : Enemy.t) : apart a b -> apart b a.
Proof. unfold apart. rewrite !apartb_iff. tauto. Qed.

Lemma FOP_map {A B} (R : A -> A -> Prop) (R' : B -> B -> Prop) (f : A -> B) l :
  (forall a b, R a b -> R' (f a) (f b)) ->
  ForallOrdPairs R l -> ForallOrdPairs R' (map f l).
Proof.
  intros Hf. induction 1 as [|a l Ha _ IH]; simpl; constructor; trivial.
  apply Forall_map. revert Ha. apply Forall_impl. intros b. apply Hf.
Qed.

Lemma FOP_filter {A} (R : A -> A -> Prop) (f : A -> bool) l :
  ForallOrdPairs R l -> ForallOrdPairs R (filter f l).
Proof.
  induction 1 as [|a l Ha _ IH]; simpl; [constructor|].
  destruct (f a); trivial. constructor; trivial.
  apply Forall_filter_keep. exact Ha.
Qed.

Lemma FOP_nth {A} (R : A -> A -> Prop) l :
  ForallOrdPairs R l ->
  forall i j a b, (i < j)%nat -> nth_error l i = Some a -> nth_error l j = Some b -> R a b.
Proof.
  induction 1 as [|x l Hx _ IH]; intros i j a b Hij Hi Hj.
  - destruct i; discriminate.
  - destruct j as [|j]; [lia|]. destruct i as [|i]; simpl in *.
    + injection Hi as <-. rewrite Forall_forall in Hx. apply Hx.
      eapply nth_error_In. exact Hj.
    + apply (IH i j); trivial. lia.
Qed.

Lemma filter_length_le {A} (f : A -> bool) l :
  (List.length (filter f l) <= List.length l)%nat.
Proof. induction l as [|a l IH]; simpl; [lia|]. destruct (f a); simpl; lia. Qed.

Lemma filter_filter_le {A} (f k : A -> bool) l :
  (List.length (filter f (filter k l)) <= List.length (filter f l))%nat.
Proof.
  induction l as [|a l IH]; simpl; [lia|].
  destruct (k a); simpl; destruct (f a); simpl; lia.
Qed.

Lemma filter_map_same {A} (f : A -> bool) (m : A -> A) l :
  (forall a, f (m a) = f a) -> filter f (map m l) = map m (filter f l).
Proof.
  intros H. induction l as [|a l IH]; simpl; trivial.
  rewrite H. destruct (f a); simpl; congruence.
Qed.

Lemma enemyShape_sameKind e e' : sameKind e e' -> enemyShape e -> enemyShape e'.
Proof.
  intros (Hw & Hh & Hc & Ht & Hp & Hu). unfold enemyShape.
  rewrite Hw, Hh, Hc, Ht, Hp, Hu. trivial.
Qed.

Lemma formation_map (m : Enemy.t -> Enemy.t) es :
  (forall e, sameKind e (m e)) ->
  (forall a b, apart a b -> apart (m a) (m b)) ->
  formation es -> formation (map m es).
Proof.
  intros Hk Ha (H1 & H2 & H3 & H4). repeat split.
  - apply (FOP_map apart apart); assumption.
  - apply Forall_map. revert H2. apply Forall_impl. intros e. apply enemyShape_sameKind, Hk.
  - rewrite length_map. exact H3.
  - rewrite filter_map_same, length_map; [exact H4|].
    intros e. apply (Hk e).
Qed.

Lemma formation_filter (f : Enemy.t -> bool) es : formation es -> formation (filter f es).
Proof.
  intros (H1 & H2 & H3 & H4). repeat split.
  - apply FOP_filter. exact H1.
  - apply Forall_filter_keep. exact H2.
  - pose proof (filter_length_le f es). lia.
  - pose proof (filter_filter_le Enemy.hasPowerup f es). lia.
Qed.

Lemma apart_advance g a b : apart a b -> apart (advance g a) (advance g b).
Proof.
  unfold apart. rewrite !apartb_iff.
  change (GameObject.y (advance g a)) with (GameObject.y a).
  change (GameObject.y (advance g b)) with (GameObject.y b).
  rewrite !advance_x. intros H. lra.
Qed.

Lemma apart_stepDown a b : apart a b -> apart (stepDown a) (stepDown b).
Proof.
  unfold apart. rewrite !apartb_iff.
  change (GameObject.x (stepDown a)) with (GameObject.x a).
  change (GameObject.x (stepDown b)) with (GameObject.x b).
  rewrite !stepDown_y. intros H. lra.
Qed.

Lemma apart_markHits ps a b : apart a b -> apart (markHits ps a) (markHits ps b).
Proof.
  unfold markHits. destruct (hitBy ps a), (hitBy ps b); trivial.
Qed.

Lemma formation_enemiesAfterMove g :
  formation (enemies g) -> formation (enemiesAfterMove g).
Proof.
  intros H. unfold enemiesAfterMove.
  assert (Ha : formation (map (advance g) (enemies g))).
  { apply formation_map; trivial.
    - intros e. repeat split.
    - apply apart_advance. }
  destruct (hitEdge g); trivial.
  apply formation_map; trivial.
  - intros e. repeat split.
  - apply apart_stepDown.
Qed.

Lemma formation_markHits ps es : formation es -> formation (map (markHits ps) es).
Proof.
  apply formation_map.
  - intros e. unfold markHits. destruct (hitBy ps e); repeat split.
  - apply apart_markHits.
Qed.

Lemma pairwiseb_FOP {A} (r : A -> A -> bool) l :
  pairwiseb r l = true -> ForallOrdPairs (fun a b => r a b = true) l.
Proof.
  induction l as [|a l IH]; simpl; intros H; constructor;
    apply andb_true_iff in H; destruct H as [H1 H2].
  - apply Forall_forall. rewrite forallb_forall in H1. exact H1.
  - apply IH. exact H2.
Qed.

(** The position and the size of a fresh enemy do not depend on its
    powerup. *)
Lemma wave_boxes r :
  map (fun e : Enemy.t => box e) (wave r) = map (fun e : Enemy.t => box e) (wave 0).
Proof.
  unfold wave. cbv zeta. rewrite !flat_map_concat_map, !concat_map, !map_map.
  f_equal. apply map_ext. intros row. rewrite !map_map. apply map_ext. intros c.
  unfold Enemy.new, box. cbn [Enemy.obj].
  destruct (_ && _); destruct (_ && _); reflexivity.
Qed.

Lemma apart_boxes (a a' b b' : Enemy.t) :
  box a = box a' -> box b = box b' -> apart a' b' -> apart a b.
Proof.
  unfold apart, apartb, box. intros Ea Eb.
  injection Ea as -> -> _ _. injection Eb as -> -> _ _. trivial.
Qed.

Lemma map_eq_Forall2 {A B} (f : A -> B) l l' :
  map f l = map f l' -> Forall2 (fun a b => f a = f b) l l'.
Proof.
  revert l'. induction l as [|a l IH]; intros [|a' l'] E; try discriminate; constructor.
  - simpl in E. congruence.
  - apply IH. simpl in E. congruence.
Qed.

Lemma FOP_apart_boxes es es' :
  Forall2 (fun e e' : Enemy.t => box e = box e') es es' ->
  ForallOrdPairs apart es' -> ForallOrdPairs apart es.
Proof.
  induction 1 as [|a a' es es' Ea Hes IH]; intros H; [constructor|].
  inversion H as [|? ? Ha' H']; subst.
  constructor; [|exact (IH H')].
  clear IH H H'. induction Hes as [|b b' es es' Eb _ IH]; [constructor|].
  inversion Ha'; subst. constructor.
  - apply (apart_boxes a a' b b'); assumption.
  - apply IH. assumption.
Qed.

Lemma wave_enemyShape r : Forall enemyShape (wave r).
Proof.
  apply Forall_forall. intros e He. unfold wave in He.
  apply in_flat_map in He. destruct He as (row & Hrow & He).
  apply in_map_iff in He. destruct He as (c & <- & _).
  unfold enemyShape, Enemy.new.
  cbn [Enemy.obj Enemy.type Enemy.points Enemy.hasPowerup].
  assert (Cr : row = 0%Z \/ row = 1%Z \/ row = 2%Z \/ row = 3%Z).
  { unfold range in Hrow. simpl in Hrow. intuition. }
  destruct Cr as [-> | [-> | [-> | ->]]]; cbn [Z.eqb andb].
  - destruct (c =? _)%Z; cbn; auto 10.
  - cbn. auto 10.
  - cbn. auto 10.
  - cbn. auto 10.
Qed.

Lemma wave_carriers r : (List.length (filter Enemy.hasPowerup (wave r)) <= 1)%nat.
Proof.
  unfold wave. cbv zeta.
  generalize (Qfloor (r * inject_Z (Z.of_nat 8))). intros pi.
  destruct (Z.lt_ge_cases pi 0) as [L | L]; [|destruct (Z.lt_ge_cases 7 pi) as [U | U]].
  3:{ assert (C : (pi = 0 \/ pi = 1 \/ pi = 2 \/ pi = 3 \/ pi = 4 \/ pi = 5 \/ pi = 6 \/ pi = 7)%Z)
        by lia.
      repeat (destruct C as [C | C]); subst pi; vm_compute; lia. }
  all: match goal with |- (List.length ?l <= 1)%nat => assert (E : l = []) end;
    [|rewrite E; simpl; lia];
    match goal with |- filter ?f ?l = [] =>
      destruct (filter f l) as [|e l0] eqn:F; [reflexivity | exfalso] end;
    assert (Hin : In e (e :: l0)) by (now left); rewrite <- F in Hin;
    apply filter_In in Hin; destruct Hin as [Hin He];
    apply in_flat_map in Hin; destruct Hin as (row & _ & Hin);
    apply in_map_iff in Hin; destruct Hin as (c & <- & Hc);
    unfold Enemy.new in He; cbn [Enemy.hasPowerup] in He;
    apply andb_true_iff in He; destruct He as [_ He]; apply Z.eqb_eq in He;
    unfold range in Hc; simpl in Hc; intuition lia.
Qed.

Lemma formation_wave r : formation (wave r).
Proof.
  split; [|split; [apply wave_enemyShape | split; [rewrite wave_length; lia | apply wave_carriers]]].
  apply (FOP_apart_boxes _ (wave 0)).
  { apply (map_eq_Forall2 (fun e : Enemy.t => box e)), wave_boxes. }
  apply (pairwiseb_FOP (fun a b : Enemy.t => apartb a b)). vm_compute. reflexivity.
Qed.

(** The enemies that the projectiles of a frame are tested against. *)
Lemma formation_es3 env g h g' h' shots es3 es4 evs :
  FrameSummary env g h g' h' shots es3 es4 evs ->
  formation (enemies g) -> formation es3.
Proof.
  intros FS H. destruct (enemies g) eqn:Eg.
  - destruct (fs_wave FS Eg) as (r & ->). apply formation_wave.
  - rewrite (fs_moved FS) by (rewrite Eg; discriminate).
    apply formation_enemiesAfterMove. rewrite Eg. exact H.
Qed.

Lemma formation_frame env g h g' h' shots es3 es4 evs :
  FrameSummary env g h g' h' shots es3 es4 evs ->
  formation (enemies g) -> formation (enemies g').
Proof.
  intros FS H. rewrite (fs_enemies FS), (fs_marks FS).
  apply formation_filter, formation_markHits.
  exact (formation_es3 _ _ _ _ _ _ _ _ _ FS H).
Qed.

Lemma formation_nil : formation [].
Proof. repeat split; simpl; try constructor; lia. Qed.

Lemma GameState_eqb_eq s t : GameState_eqb s t = true <-> s = t.
Proof. destruct s, t; simpl; split; intros H; try reflexivity; discriminate. Qed.

(** A frame of the application, from a world that is PLAYING or not. *)
Lemma run_animate_cases env w :
  (state w <> PLAYING /\ run animate env w = (w, [])) \/
  (state w = PLAYING /\
   exists g' h' shots es3 es4,
     run animate env w = ({| game := g'; state := gameState h' |}, rev (events h')) /\
     FrameSummary env (game w) (host0 w) g' h' shots es3 es4 (events h')).
Proof.
  destruct (GameState_eqb (state w) PLAYING) eqn:Est.
  - right. apply GameState_eqb_eq in Est. split; [exact Est|].
    apply run_animate_playing. exact Est.
  - left. assert (Hn : state w <> PLAYING).
    { intros E. rewrite E in Est. discriminate. }
    split; [exact Hn | apply run_animate_idle; exact Hn].
Qed.

Lemma reachable_formation w : reachable w -> formation (enemies (game w)).
Proof.
  induction 1 as [|env w Hr IH Hst|env w Hr IH].
  - apply formation_nil.
  - rewrite run_startGame. destruct (needsInit (game w)); cbn [fst game]; trivial.
    apply formation_wave.
  - destruct (run_animate_cases env w)
      as [[_ E] | (_ & g' & h' & shots & es3 & es4 & E & FS)]; rewrite E; cbn [fst game].
    + exact IH.
    + exact (formation_frame _ _ _ _ _ _ _ _ _ FS IH).
Qed.

(** X3. Enemies never overlap each other: in every reachable world, two
    enemies at different places of [g.enemies] do not collide. *)
Theorem enemies_never_overlap (w : World) (i j : nat) (e1 e2 : Enemy.t) :
  reachable w -> i <> j ->
  nth_error (enemies (game w)) i = Some e1 ->
  nth_error (enemies (game w)) j = Some e2 ->
  checkCollision e1 e2 = false.
Proof.
  intros Hr Hij H1 H2. destruct (reachable_formation w Hr) as (Hp & Hs & _).
  rewrite Forall_forall in Hs.
  pose proof (Hs _ (nth_error_In _ _ H1)) as S1.
  pose proof (Hs _ (nth_error_In _ _ H2)) as S2.
  destruct (Nat.lt_ge_cases i j) as [L | L].
  - apply apart_no_collision; trivial. exact (FOP_nth _ _ Hp i j e1 e2 L H1 H2).
  - apply apart_no_collision; trivial. apply apart_sym.
    apply (FOP_nth _ _ Hp j i e2 e1); trivial. lia.
Qed.

Lemma enemies_never_overlap_witness :
  reachable world1 /\ 0%nat <> 1%nat /\
  nth_error (enemies (game world1)) 0 = Some (Enemy.new 200 50 1 false) /\
  nth_error (enemies (game world1)) 1 = Some (Enemy.new 250 50 1 false) /\
  checkCollision (Enemy.new 200 50 1 false) (Enemy.new 250 50 1 false) = false.
Proof.
  assert (Hr : reachable world1)
    by (apply reachable_start; [apply reachable_init | discriminate]).
  split; [exact Hr|]. split; [discriminate|].
  split; [reflexivity|]. split; [reflexivity|].
  apply (enemies_never_overlap world1 0 1 _ _ Hr); [discriminate | reflexivity | reflexivity].
Defined.

(** X4. In every reachable world there are at most 32 enemies, at most one
    of them carries a powerup, and each is a 35 x 35 box whose type fixes
    its points (1: 50, 2: 30, 3: 10) and whose colour tells its type and,
    for type 1, the only one that carries powerups, whether it has one. *)
Theorem enemies_shape (w : World) :
  reachable w ->
  (List.length (enemies (game w)) <= 32)%nat /\
  (List.length (filter Enemy.hasPowerup (enemies (game w))) <= 1)%nat /\
  Forall enemyShape (enemies (game w)).
Proof.
  intros Hr. destruct (reachable_formation w Hr) as (_ & Hs & Hl & Hc). auto.
Qed.

Lemma enemies_shape_witness :
  reachable world1 /\
  (List.length (enemies (game world1)) <= 32)%nat /\
  (List.length (filter Enemy.hasPowerup (enemies (game world1))) <= 1)%nat /\
  Forall enemyShape (enemies (game world1)).
Proof.
  assert (Hr : reachable world1)
    by (apply reachable_start; [apply reachable_init | discriminate]).
  split; [exact Hr|]. exact (enemies_shape world1 Hr).
Defined.

(** *** The states of the game *)

Lemma reachable_state w :
  reachable w -> w = world0 \/ state w = PLAYING \/ state w = GAMEOVER.
Proof.
  induction 1 as [|env w Hr IH Hst|env w Hr IH].
  - now left.
  - right. left. rewrite run_startGame. destruct (needsInit (game w)); reflexivity.
  - destruct (run_animate_cases env w)
      as [[_ E] | (Hst & g' & h' & shots & es3 & es4 & E & FS)]; rewrite E; cbn [fst state].
    + exact IH.
    + right.
      destruct (frame_state env w g' h' shots es3 es4 _ Hst FS) as [[-> _] | [-> _]]; auto.
Qed.

(** X5. PAUSED is never entered, and START is only the state before the
    first start: a reachable world in START is the initial world. *)
Theorem states_reached (w : World) :
  reachable w ->
  state w <> PAUSED /\ (state w = START -> w = world0).
Proof.
  intros Hr. destruct (reachable_state w Hr) as [-> | [E | E]].
  - split; [discriminate | reflexivity].
  - rewrite E. split; discriminate.
  - rewrite E. split; discriminate.
Qed.

Lemma states_reached_witness :
  reachable world1 /\ state world1 <> PAUSED /\ (state world1 = START -> world1 = world0).
Proof.
  assert (Hr : reachable world1)
    by (apply reachable_start; [apply reachable_init | discriminate]).
  split; [exact Hr|]. exact (states_reached world1 Hr).
Defined.

(** *** Score and level *)

Lemma pointsLeft_wave r : pointsLeft (wave r) = 800%Z.
Proof. vm_compute. reflexivity. Qed.

Lemma pointsLeft_map (m : Enemy.t -> Enemy.t) es :
  (forall e, Enemy.points (m e) = Enemy.points e) -> pointsLeft (map m es) = pointsLeft es.
Proof.
  intros H. unfold pointsLeft. rewrite map_map. f_equal. apply map_ext. exact H.
Qed.

Lemma pointsLeft_enemiesAfterMove g :
  pointsLeft (enemiesAfterMove g) = pointsLeft (enemies g).
Proof.
  unfold enemiesAfterMove. destruct (hitEdge g); rewrite ?pointsLeft_map; trivial.
Qed.

(** The points of an enemy that is hit are part of the gain. *)
Lemma hits_le_gain e ps :
  (0 <= Enemy.points e)%Z ->
  ((if hitBy ps e then Enemy.points e else 0) <=
   sumZ (map (fun p => if Projectile.isPlayer p && checkCollision (Projectile.update p) e
                       then Enemy.points e else 0) ps))%Z.
Proof.
  intros H. induction ps as [|p ps IH]; simpl; [lia|].
  unfold hitBy in *. simpl.
  destruct (Projectile.isPlayer p && checkCollision (Projectile.update p) e); simpl.
  - destruct (existsb _ ps); lia.
  - exact IH.
Qed.

Lemma playerGain_cons e es ps :
  playerGain (e :: es) ps =
  (sumZ (map (fun p => if Projectile.isPlayer p && checkCollision (Projectile.update p) e
                       then Enemy.points e else 0) ps)
   + playerGain es ps)%Z.
Proof.
  unfold playerGain. induction ps as [|p ps IH]; simpl; [reflexivity|].
  rewrite IH. unfold pointsHit. simpl.
  destruct (Projectile.isPlayer p); simpl; [|lia].
  destruct (checkCollision (Projectile.update p) e); lia.
Qed.

Lemma playerGain_nil ps : playerGain [] ps = 0%Z.
Proof.
  unfold playerGain. induction ps as [|p ps IH]; simpl; trivial.
  rewrite IH. destruct (Projectile.isPlayer p); reflexivity.
Qed.

Lemma points_conserved es ps :
  Forall enemyOk es ->
  (pointsLeft es <=
   pointsLeft (filter (fun e => negb (hitBy ps e)) es) + playerGain es ps)%Z.
Proof.
  induction 1 as [|e es He _ IH]; simpl.
  - rewrite playerGain_nil. unfold pointsLeft. simpl. lia.
  - rewrite playerGain_cons. pose proof (hits_le_gain e ps He) as Hh.
    unfold pointsLeft in *. destruct (hitBy ps e); simpl; lia.
Qed.

Lemma pointsLeft_filter_le (f : Enemy.t -> bool) es :
  Forall enemyOk es -> (0 <= pointsLeft (filter f es) <= pointsLeft es)%Z.
Proof.
  induction 1 as [|e es He _ IH]; unfold pointsLeft in *; simpl; [lia|].
  unfold enemyOk in He. destruct (f e); simpl; lia.
Qed.

Lemma enemyShape_tens e : enemyShape e -> (10 | Enemy.points e)%Z.
Proof.
  intros (_ & _ & [(_ & -> & _) | [(_ & -> & _) | (_ & -> & _)]]).
  - exists 5%Z. reflexivity.
  - exists 3%Z. reflexivity.
  - exists 1%Z. reflexivity.
Qed.

Lemma pointsHit_tens p es : Forall enemyShape es -> (10 | pointsHit p es)%Z.
Proof.
  unfold pointsHit. induction 1 as [|e es He _ IH]; simpl.
  - apply Z.divide_0_r.
  - apply Z.divide_add_r; [|exact IH].
    destruct (checkCollision p e); [apply enemyShape_tens; exact He | apply Z.divide_0_r].
Qed.

Lemma playerGain_tens es ps : Forall enemyShape es -> (10 | playerGain es ps)%Z.
Proof.
  intros H. unfold playerGain. induction ps as [|p ps IH]; simpl.
  - apply Z.divide_0_r.
  - apply Z.divide_add_r; [|exact IH].
    destruct (Projectile.isPlayer p); [apply pointsHit_tens; exact H | apply Z.divide_0_r].
Qed.

Lemma accounted_newGame r : accounted (newGame r).
Proof.
  unfold accounted, newGame. cbn [level score enemies]. rewrite pointsLeft_wave.
  repeat split; try lia. apply Z.divide_0_r.
Qed.

Lemma accounted_frame env g h g' h' shots es3 es4 evs :
  FrameSummary env g h g' h' shots es3 es4 evs ->
  Forall enemyOk (enemies g) -> unmarked Enemy.obj (enemies g) ->
  formation (enemies g) ->
  accounted g -> accounted g'.
Proof.
  intros FS Hok Hu Hform (Hl & Hp & Hs & Hd). unfold accounted.
  rewrite (fs_level FS), (fs_score FS).
  set (ps := projectiles g ++ shotsFired env g ++ shots).
  pose proof (formation_es3 _ _ _ _ _ _ _ _ _ FS Hform) as (_ & Hshape3 & _).
  assert (H3 : Forall enemyOk es3 /\ unmarked Enemy.obj es3 /\
               pointsLeft es3 = match enemies g with
                                | [] => 800%Z | _ :: _ => pointsLeft (enemies g) end).
  { destruct (enemies g) eqn:Eg.
    - destruct (fs_wave FS Eg) as (r & ->).
      split; [apply wave_enemyOk|]. split; [apply wave_unmarked | apply pointsLeft_wave].
    - rewrite (fs_moved FS) by (rewrite Eg; discriminate).
      split; [apply enemiesAfterMove_enemyOk; rewrite Eg; exact Hok|].
      split.
      + unfold enemiesAfterMove, unmarked.
        destruct (hitEdge g); rewrite ?Forall_map; rewrite Eg;
          revert Hu; apply Forall_impl; intros e He; exact He.
      + rewrite pointsLeft_enemiesAfterMove, Eg. reflexivity. }
  destruct H3 as (Hok3 & Hu3 & Hp3).
  rewrite (frame_enemies_exact _ _ _ _ _ _ _ _ _ FS Hu3). fold ps.
  pose proof (points_conserved es3 ps Hok3) as Hc.
  pose proof (pointsLeft_filter_le (fun e => negb (hitBy ps e)) es3 Hok3) as Hf.
  pose proof (playerGain_tens es3 ps Hshape3) as Hg.
  assert (Hd' : (10 | score g + match enemies g with [] => 1000 | _ :: _ => 0 end
                      + playerGain es3 ps)%Z).
  { apply Z.divide_add_r; [|exact Hg]. apply Z.divide_add_r; [exact Hd|].
    destruct (enemies g); [exists 100%Z; reflexivity | apply Z.divide_0_r]. }
  destruct (enemies g) eqn:Eg; cbv iota in *; rewrite Hp3 in *.
  - change (pointsLeft []) with 0%Z in *. repeat split; trivial; lia.
  - repeat split; trivial; lia.
Qed.

Lemma reachable_accounted w : reachable w -> state w <> START -> accounted (game w).
Proof.
  induction 1 as [|env w Hr IH Hst|env w Hr IH]; intros Hs.
  - exfalso. apply Hs. reflexivity.
  - rewrite run_startGame. destruct (needsInit (game w)) eqn:En; cbn [fst game].
    + apply accounted_newGame.
    + apply IH. intros E.
      destruct (reachable_state w Hr) as [H0 | [H0 | H0]];
        [rewrite H0 in En | rewrite H0 in E | rewrite H0 in E]; discriminate.
  - destruct (run_animate_cases env w)
      as [[_ E] | (Hst & g' & h' & shots & es3 & es4 & E & FS)];
      rewrite E in *; cbn [fst game state] in *.
    + apply IH. exact Hs.
    + pose proof (reachable_Inv w Hr) as HI.
      apply (accounted_frame _ _ _ _ _ _ _ _ _ FS (inv_enemies HI) (inv_unmarked HI)
               (reachable_formation w Hr)).
      apply IH. rewrite Hst. discriminate.
Qed.

(** X6. A level has its price: a wave is worth 800 points and clearing it
    1000 more, so that in every reachable world [level >= 1] and
    [score >= 1800 * (level - 1)]. *)
Theorem level_costs_points (w : World) :
  reachable w ->
  (1 <= level (game w))%Z /\ (1800 * (level (game w) - 1) <= score (game w))%Z.
Proof.
  intros Hr. destruct (reachable_state w Hr) as [-> | Hs].
  - cbn. lia.
  - destruct (reachable_accounted w Hr) as (H1 & H2 & H3 & _).
    { destruct Hs as [-> | ->]; discriminate. }
    lia.
Qed.

Lemma level_costs_points_witness :
  reachable clearedWorld /\
  (1 <= level (game clearedWorld))%Z /\
  (1800 * (level (game clearedWorld) - 1) <= score (game clearedWorld))%Z.
Proof.
  assert (Hr : reachable clearedWorld).
  { apply reachable_frames. apply reachable_start; [apply reachable_init | discriminate]. }
  split; [exact Hr|]. exact (level_costs_points clearedWorld Hr).
Defined.

(** X7. The score is always a multiple of 10. *)
Theorem score_multiple_of_ten (w : World) :
  reachable w -> (10 | score (game w))%Z.
Proof.
  intros Hr. destruct (reachable_state w Hr) as [-> | Hs].
  - apply Z.divide_0_r.
  - destruct (reachable_accounted w Hr) as (_ & _ & _ & H).
    { destruct Hs as [-> | ->]; discriminate. }
    exact H.
Qed.

Lemma score_multiple_of_ten_witness :
  reachable world1 /\ (10 | score (game world1))%Z.
Proof.
  assert (Hr : reachable world1)
    by (apply reachable_start; [apply reachable_init | discriminate]).
  split; [exact Hr|]. exact (score_multiple_of_ten world1 Hr).
Defined.

(** *** The entities in flight *)

Lemma grown_refl g : grown g g.
Proof. split; exists []; rewrite app_nil_r; split; trivial. Qed.

Lemma grown_trans g1 g2 g3 : grown g1 g2 -> grown g2 g3 -> grown g1 g3.
Proof.
  intros [(a & Ea & Ha) (b & Eb & Hb)] [(a' & Ea' & Ha') (b' & Eb' & Hb')].
  split.
  - exists (a ++ a'). rewrite Ea', Ea, app_assoc. split; trivial. apply Forall_app; auto.
  - exists (b ++ b'). rewrite Eb', Eb, app_assoc. split; trivial. apply Forall_app; auto.
Qed.

Lemma spawnParticles_exact n x y c env g h :
  spawnParticles n x y c env g h =
  (tt, set_particles g (particles g ++ burst n x y c env (randomCalls h)),
   {| gameState := gameState h; randomCalls := (2 * n + randomCalls h)%nat;
      events := events h |}).
Proof.
  unfold spawnParticles. revert g h.
  induction n as [|n IH]; intros g h.
  - cbn [repeatM burst]. rewrite app_nil_r. destruct g, h. reflexivity.
  - cbn [repeatM burst]. unfold bind at 1.
    assert (E : (pt <- Particle.new x y c ;; modify (push_particle pt)) env g h =
                (tt, push_particle
                       {| Particle.obj := GameObject.new x y 3 3 c;
                          Particle.vx := Qred ((random env (randomCalls h) - 0.5) * 8);
                          Particle.vy := Qred ((random env (S (randomCalls h)) - 0.5) * 8);
                          Particle.life := 1 |} g,
                 {| gameState := gameState h; randomCalls := S (S (randomCalls h));
                    events := events h |})) by reflexivity.
    rewrite E, IH. norm. rewrite <- app_assoc. cbn [app].
    replace (2 * S n + randomCalls h)%nat with (2 * n + S (S (randomCalls h)))%nat by lia.
    reflexivity.
Qed.

Lemma burst_fresh n x y c env k : Forall freshParticle (burst n x y c env k).
Proof.
  revert k. induction n as [|n IH]; intros k; simpl; constructor; [|apply IH].
  unfold freshParticle. do 5 eexists. reflexivity.
Qed.

Lemma burst_length n x y c env k : List.length (burst n x y c env k) = n.
Proof. revert k. induction n as [|n IH]; intros k; simpl; [|rewrite IH]; reflexivity. Qed.

(** *** The callbacks, exactly *)

Lemma hitEnemy_exact p e env g h :
  hitEnemy p e env g h =
  if checkCollision p e then
    (Projectile.mark p, Enemy.mark e,
     set_particles (dropPowerup e (set_score g (score g + Enemy.points e)))
       (particles g ++ burst 5 (GameObject.x e) (GameObject.y e) (GameObject.color e) env
                         (randomCalls h)),
     withHost h (gameState h) (10 + randomCalls h)
       [PlaySound snd_explosion; SetScore (score g + Enemy.points e)])
  else (p, e, g, h).
Proof.
  unfold hitEnemy, dropPowerup. sim.
  destruct (checkCollision p e); [|reflexivity].
  change (Enemy.hasPowerup (Enemy.mark e)) with (Enemy.hasPowerup e).
  destruct (Enemy.hasPowerup e); sim; rewrite spawnParticles_exact; reflexivity.
Qed.

Lemma hitPlayer_exact p env g h :
  hitPlayer p env g h =
  if checkCollision p (player g) then
    (Projectile.mark p,
     set_particles (set_lives g (lives g - 1))
       (particles g ++ burst 10 (GameObject.x (player g)) (GameObject.y (player g))
                         COLORS.blue env (randomCalls h)),
     withHost h (if (lives g - 1 <=? 0)%Z then GAMEOVER else gameState h)
       (20 + randomCalls h)
       ((if (lives g - 1 <=? 0)%Z
         then [PlaySound snd_gameover; SetGameState GAMEOVER] else [])
        ++ [PlaySound snd_explosion; SetLives (lives g - 1)]))
  else (p, g, h).
Proof.
  unfold hitPlayer. sim.
  destruct (checkCollision p (player g)); [|reflexivity].
  rewrite spawnParticles_exact. destruct (lives g - 1 <=? 0)%Z; reflexivity.
Qed.

Lemma powerupStep_exact p env g h :
  powerupStep p env g h =
  if checkCollision (Powerup.update p) (player g) then
    (Powerup.mark (Powerup.update p),
     set_particles (set_lives g (Z.min (lives g + 1) 5))
       (particles g ++ burst 8 (GameObject.x (player g)) (GameObject.y (player g))
                         COLORS.green env (randomCalls h)),
     withHost h (gameState h) (16 + randomCalls h)
       [PlaySound snd_powerup; SetLives (Z.min (lives g + 1) 5)])
  else (Powerup.update p, g, h).
Proof.
  unfold powerupStep. sim.
  destruct (checkCollision (Powerup.update p) (player g)); [|reflexivity].
  rewrite spawnParticles_exact. reflexivity.
Qed.

Lemma hitEnemy_grown p e env g h :
  let '(_, g', _) := hitEnemy p e env g h in grown g g'.
Proof.
  rewrite hitEnemy_exact. destruct (checkCollision p e); [|apply grown_refl].
  unfold dropPowerup. split.
  - eexists. split; [destruct (Enemy.hasPowerup e); reflexivity | apply burst_fresh].
  - destruct (Enemy.hasPowerup e).
    + eexists. split; [reflexivity|]. constructor; [|constructor].
      eexists. eexists. reflexivity.
    + exists []. rewrite app_nil_r. split; [reflexivity | constructor].
Qed.

Lemma hitPlayer_grown p env g h :
  let '(p', g', _) := hitPlayer p env g h in
  grown g g' /\ (p' = p \/ p' = Projectile.mark p).
Proof.
  rewrite hitPlayer_exact. destruct (checkCollision p (player g)).
  - split; [|now right]. split.
    + eexists. split; [reflexivity | apply burst_fresh].
    + exists []. rewrite app_nil_r. split; [reflexivity | constructor].
  - split; [apply grown_refl | now left].
Qed.

Lemma projectileStep_grown p env g h :
  let '(p', g', _) := projectileStep p env g h in
  grown g g' /\ projectileStepped p p'.
Proof.
  destruct (Projectile.isPlayer p) eqn:Hp.
  - destruct (@projectileStep_player p env g h Hp) as (pus & ps & k & evs & _ & E).
    pose proof (@forEachWith_inv Game Enemy.t Projectile.t env hitEnemy (enemies g)
                  (fun _ g1 _ => grown g g1) (fun _ _ => True)) as L.
    assert (Hstep : forall b a w h0, In a (enemies g) -> grown g w ->
               let '(ba, w', h') := hitEnemy b a env w h0 in grown g w' /\ True).
    { intros b a w h0 _ Hg. pose proof (hitEnemy_grown b a env w h0) as H.
      destruct (hitEnemy b a env w h0) as [[ba w'] h']. split; trivial.
      exact (grown_trans _ _ _ Hg H). }
    specialize (L Hstep (Projectile.update p) g h (grown_refl g)).
    unfold projectileStep in *. cbv zeta in *.
    rewrite Projectile_update_isPlayer, Hp in *.
    revert E L. sim.
    destruct (forEachWith hitEnemy (Projectile.update p) (enemies g) env g h)
      as [[r w'] h']. sim. intros E [Hg _]. split.
    + destruct Hg as [Ha Hb]. split; assumption.
    + injection E as -> _ _. unfold projectileStepped.
      destruct (existsb _ _); [now right | now left].
  - rewrite (@projectileStep_enemy p env g h Hp).
    apply hitPlayer_grown.
Qed.

Lemma projectilePhase_grown env g h :
  let '(_, g', _) := projectilePhase env g h in
  grown g g' /\ Forall2 projectileStepped (projectiles g) (projectiles g').
Proof.
  unfold projectilePhase. sim.
  pose proof (@forEach_inv Game Projectile.t env projectileStep (projectiles g)
                (fun g1 _ => grown g g1) projectileStepped) as L.
  assert (Hstep : forall a w h0, In a (projectiles g) -> grown g w ->
             let '(a', w', h') := projectileStep a env w h0 in
             grown g w' /\ projectileStepped a a').
  { intros a w h0 _ Hg. pose proof (projectileStep_grown a env w h0) as H.
    destruct (projectileStep a env w h0) as [[a' w'] h']. destruct H as [H1 H2].
    split; trivial. exact (grown_trans _ _ _ Hg H1). }
  specialize (L Hstep g h (grown_refl g)).
  destruct (forEach projectileStep (projectiles g) env g h) as [[ps' w'] h'].
  sim. destruct L as [[Ha Hb] HR]. repeat split; assumption.
Qed.

Lemma powerupPhase_grown env g h :
  let '(_, g', _) := powerupPhase env g h in
  (exists pts, particles g' = particles g ++ pts /\ Forall freshParticle pts) /\
  projectiles g' = projectiles g /\
  Forall2 powerupStepped (powerups g) (powerups g').
Proof.
  unfold powerupPhase. sim.
  pose proof (@forEach_inv Game Powerup.t env powerupStep (powerups g)
                (fun g1 _ => (exists pts, particles g1 = particles g ++ pts /\
                                          Forall freshParticle pts) /\
                             projectiles g1 = projectiles g)
                powerupStepped) as L.
  assert (Hstep : forall a w h0, In a (powerups g) ->
             ((exists pts, particles w = particles g ++ pts /\ Forall freshParticle pts) /\
              projectiles w = projectiles g) ->
             let '(a', w', h') := powerupStep a env w h0 in
             ((exists pts, particles w' = particles g ++ pts /\ Forall freshParticle pts) /\
              projectiles w' = projectiles g) /\ powerupStepped a a').
  { intros a w h0 _ [(pts & E & Hf) Hp]. rewrite powerupStep_exact.
    destruct (checkCollision (Powerup.update a) (player w)).
    - split; [|now right]. norm. split; [|exact Hp].
      eexists. rewrite E, <- app_assoc. split; [reflexivity|].
      apply Forall_app. split; [exact Hf | apply burst_fresh].
    - split; [|now left]. split; [|exact Hp]. exists pts. auto. }
  assert (H0 : (exists pts, particles g = particles g ++ pts /\ Forall freshParticle pts) /\
               projectiles g = projectiles g).
  { split; trivial. exists []. rewrite app_nil_r. split; trivial. }
  specialize (L Hstep g h H0).
  destruct (forEach powerupStep (powerups g) env g h) as [[ps' w'] h'].
  sim. destruct L as [[Ha Hb] HR]. repeat split; assumption.
Qed.

Lemma enemyPhase_shots env g h :
  let '(_, g2, _) := enemyPhase env g h in
  exists shots, projectiles g2 = projectiles g ++ shots /\ Forall enemyShotOf shots.
Proof.
  unfold enemyPhase. sim.
  pose proof (@forEachWith_inv Game Enemy.t bool env enemyStep (enemies g)
                (fun _ g1 _ => exists shots, projectiles g1 = projectiles g ++ shots /\
                                             Forall enemyShotOf shots)
                (fun _ _ => True)) as L.
  assert (Hstep : forall b a w h0, In a (enemies g) ->
             (exists shots, projectiles w = projectiles g ++ shots /\
                            Forall enemyShotOf shots) ->
             let '(ba, w', h') := enemyStep b a env w h0 in
             (exists shots, projectiles w' = projectiles g ++ shots /\
                            Forall enemyShotOf shots) /\ True).
  { intros b a w h0 _ (shots & E & Hf). rewrite enemyStep_eq. cbv zeta.
    split; trivial.
    destruct (enemyFires env w (randomCalls h0)).
    - exists (shots ++ [enemyShot (advance w a)]).
      split.
      + destruct (reachesPlayer w a); norm; rewrite E, <- app_assoc; reflexivity.
      + apply Forall_app. split; trivial. constructor; [|constructor].
        eexists. reflexivity.
    - exists shots. split; trivial. destruct (reachesPlayer w a); norm; exact E. }
  assert (H0 : exists shots, projectiles g = projectiles g ++ shots /\
                             Forall enemyShotOf shots).
  { exists []. rewrite app_nil_r. split; trivial. }
  specialize (L Hstep false g h H0).
  destruct (forEachWith enemyStep false (enemies g) env g h) as [[r w'] h'].
  destruct L as [L _]. sim. destruct r as [[|] es']; sim; exact L.
Qed.

Lemma shotsFired_playerShotOf env g : Forall playerShotOf (shotsFired env g).
Proof.
  unfold shotsFired. destruct (playerFires env g); [|constructor].
  unfold playerShots. repeat constructor; eexists; eexists; reflexivity.
Qed.

(** Where the entities at the end of a frame come from: each is an entity
    of the start of the frame, or one created in the frame, after its
    [update]; and it is not marked. *)
Lemma frame_entities env g h :
  let '(_, g', _) := frame env g h in
  (forall p', In p' (projectiles g') ->
     GameObject.markedForDeletion p' = false /\
     exists p, (In p (projectiles g) \/ playerShotOf p \/ enemyShotOf p) /\
               p' = Projectile.update p) /\
  (forall q', In q' (powerups g') ->
     GameObject.markedForDeletion q' = false /\
     exists q, (In q (powerups g) \/ freshPowerup q) /\ q' = Powerup.update q) /\
  (forall pt', In pt' (particles g') ->
     GameObject.markedForDeletion pt' = false /\
     exists pt, (In pt (particles g) \/ freshParticle pt) /\ pt' = Particle.update pt).
Proof.
  rewrite frame_unfold.
  destruct (playerPhase_spec env g h) as
    (g1 & h1 & E1 & _ & _ & _ & Hps1 & _ & Hpt1 & Hpu1 & _).
  rewrite E1.
  pose proof (enemyPhase_shots env g1 h1) as S2.
  destruct (enemyPhase_spec env g1 h1) as
    (shots & g2 & h2 & _ & E2 & _ & Hps2 & _ & Hpt2 & Hpu2 & _).
  rewrite E2 in *. destruct S2 as (shots' & Hps2' & Hshots).
  assert (shots' = shots) by (rewrite Hps2 in Hps2'; apply app_inv_head in Hps2'; congruence).
  subst shots'. clear Hps2'.
  destruct (waveCompletion_spec env g2 h2) as
    (g3 & h3 & E3 & _ & Hps3 & Hpt3 & Hpu3 & _).
  rewrite E3.
  pose proof (projectilePhase_grown env g3 h3) as H4.
  destruct (projectilePhase env g3 h3) as [[u4 g4] h4].
  destruct H4 as [[(pts4 & Hpt4 & Hf4) (pus4 & Hpu4 & Hg4)] HR4].
  pose proof (powerupPhase_grown env g4 h4) as H5.
  destruct (powerupPhase env g4 h4) as [[u5 g5] h5].
  destruct H5 as ((pts5 & Hpt5 & Hf5) & Hps5 & HR5).
  rewrite sweep_eq. cbn [projectiles powerups particles].
  assert (Hmark : forall (o : GameObject.t) (b : bool),
             negb (GameObject.markedForDeletion o) = true ->
             GameObject.markedForDeletion o = false).
  { intros o b H. destruct (GameObject.markedForDeletion o); [discriminate | reflexivity]. }
  split; [|split].
  - intros p' Hin. apply filter_In in Hin. destruct Hin as [Hin Hal].
    unfold alive in Hal. split; [exact (Hmark _ true Hal)|].
    rewrite Hps5 in Hin.
    destruct (Forall2_In_r _ _ _ _ HR4 Hin) as (p & Hp & Hrel).
    exists p. split.
    + rewrite Hps3, Hps2, Hps1 in Hp.
      apply in_app_or in Hp. destruct Hp as [Hp | Hp].
      * apply in_app_or in Hp. destruct Hp as [Hp | Hp]; [now left|].
        right. left. pose proof (shotsFired_playerShotOf env g) as Hs.
        rewrite Forall_forall in Hs. exact (Hs _ Hp).
      * right. right. rewrite Forall_forall in Hshots. exact (Hshots _ Hp).
    + destruct Hrel as [-> | ->]; [reflexivity|].
      exfalso. cbn in Hal. discriminate.
  - intros q' Hin. apply filter_In in Hin. destruct Hin as [Hin Hal].
    unfold alive in Hal. split; [exact (Hmark _ true Hal)|].
    destruct (Forall2_In_r _ _ _ _ HR5 Hin) as (q & Hq & Hrel).
    exists q. split.
    + rewrite Hpu4, Hpu3, Hpu2, Hpu1 in Hq.
      apply in_app_or in Hq. destruct Hq as [Hq | Hq]; [now left|].
      right. rewrite Forall_forall in Hg4. exact (Hg4 _ Hq).
    + destruct Hrel as [-> | ->]; [reflexivity|].
      exfalso. cbn in Hal. discriminate.
  - intros pt' Hin. apply filter_In in Hin. destruct Hin as [Hin Hal].
    unfold alive in Hal. split; [exact (Hmark _ true Hal)|].
    apply in_map_iff in Hin. destruct Hin as (pt & <- & Hpt).
    exists pt. split; [|reflexivity].
    rewrite Hpt5, Hpt4, Hpt3, Hpt2, Hpt1 in Hpt.
    apply in_app_or in Hpt. destruct Hpt as [Hpt | Hpt].
    + apply in_app_or in Hpt. destruct Hpt as [Hpt | Hpt]; [now left|].
      right. rewrite Forall_forall in Hf4. exact (Hf4 _ Hpt).
    + right. rewrite Forall_forall in Hf5. exact (Hf5 _ Hpt).
Qed.

Lemma Projectile_update_ok (p : Projectile.t) :
  GameObject.width p = 4 -> GameObject.height p = 12 ->
  ((Projectile.isPlayer p = true /\ Projectile.speed p = (-12) /\
    GameObject.color p = COLORS.yellow) \/
   (Projectile.isPlayer p = false /\ Projectile.speed p = 5 /\
    GameObject.color p = COLORS.red)) ->
  GameObject.markedForDeletion (Projectile.update p) = false ->
  projectileOk (Projectile.update p).
Proof.
  intros Hw Hh Hk Hm. unfold projectileOk. split; [exact Hm|].
  unfold Projectile.update in *. cbv zeta in *.
  match goal with |- context [if ?c then _ else _] => destruct c eqn:Ec end.
  - exfalso. cbn in Hm. discriminate.
  - cbn [Projectile.obj Projectile.set_obj GameObject.set_y GameObject.width
         GameObject.height GameObject.y GameObject.color Projectile.isPlayer
         Projectile.speed] in *.
    apply orb_false_iff in Ec. destruct Ec as [E1 E2].
    apply Qlt_bool_false_iff in E1. apply Qlt_bool_false_iff in E2.
    repeat split; trivial.
Qed.

Lemma Powerup_update_ok (q : Powerup.t) :
  GameObject.width q = 20 -> GameObject.height q = 20 ->
  GameObject.markedForDeletion (Powerup.update q) = false ->
  powerupOk (Powerup.update q).
Proof.
  intros Hw Hh Hm. unfold powerupOk. split; [exact Hm|].
  unfold Powerup.update in *. cbv zeta in *.
  match goal with |- context [if ?c then _ else _] => destruct c eqn:Ec end.
  - exfalso. cbn in Hm. discriminate.
  - cbn [Powerup.obj GameObject.set_y GameObject.width GameObject.height GameObject.y] in *.
    apply Qlt_bool_false_iff in Ec. repeat split; trivial.
Qed.

Lemma Particle_update_ok (pt : Particle.t) :
  GameObject.width pt = 3 -> GameObject.height pt = 3 -> Particle.life pt <= 1 ->
  GameObject.markedForDeletion (Particle.update pt) = false ->
  particleOk (Particle.update pt).
Proof.
  intros Hw Hh Hl Hm. unfold particleOk. split; [exact Hm|].
  unfold Particle.update in *. cbv zeta in *.
  cbn [Particle.obj Particle.life] in *.
  destruct (Qred (Particle.life pt - 0.04) <=? 0) eqn:Ec.
  - exfalso. cbn in Hm. discriminate.
  - cbn [GameObject.set_y GameObject.set_x GameObject.width GameObject.height].
    apply Qle_bool_false_iff in Ec. rewrite Qred_correct in *.
    repeat split; trivial. lra.
Qed.

Lemma entitiesOk_frame env g h :
  entitiesOk g -> let '(_, g', _) := frame env g h in entitiesOk g'.
Proof.
  intros (Hp & Hq & Hpt). pose proof (frame_entities env g h) as F.
  destruct (frame env g h) as [[u g'] h']. destruct F as (F1 & F2 & F3).
  rewrite Forall_forall in Hp, Hq, Hpt.
  split; [|split]; apply Forall_forall.
  - intros p' Hin. destruct (F1 p' Hin) as (Hm & p & Hsrc & ->).
    destruct Hsrc as [H0 | [(x & y & ->) | (e & ->)]].
    + destruct (Hp p H0) as (_ & Hw & Hh & _ & Hk). apply Projectile_update_ok; assumption.
    + apply Projectile_update_ok; trivial. left. repeat split.
    + apply Projectile_update_ok; trivial. right. repeat split.
  - intros q' Hin. destruct (F2 q' Hin) as (Hm & q & Hsrc & ->).
    destruct Hsrc as [H0 | (x & y & ->)].
    + destruct (Hq q H0) as (_ & Hw & Hh & _). apply Powerup_update_ok; assumption.
    + apply Powerup_update_ok; trivial.
  - intros pt' Hin. destruct (F3 pt' Hin) as (Hm & pt & Hsrc & ->).
    destruct Hsrc as [H0 | (x & y & c & vx & vy & ->)].
    + destruct (Hpt pt H0) as (_ & Hw & Hh & _ & Hl). apply Particle_update_ok; assumption.
    + apply Particle_update_ok; trivial. cbn. lra.
Qed.

Lemma reachable_entitiesOk w : reachable w -> entitiesOk (game w).
Proof.
  induction 1 as [|env w Hr IH Hst|env w Hr IH].
  - repeat split; constructor.
  - rewrite run_startGame. destruct (needsInit (game w)); cbn [fst game]; trivial.
    repeat split; constructor.
  - unfold run, animate. cbn [gameState].
    destruct (GameState_eqb (state w) PLAYING); [|exact IH].
    pose proof (entitiesOk_frame env (game w)
                  {| gameState := state w; randomCalls := 0; events := [] |} IH) as F.
    destruct (frame env (game w) _) as [[u g'] h']. exact F.
Qed.


(** X8. In every reachable world each projectile is an unmarked 4 x 12 box
    with [-20 <= y <= 620]; it is either a yellow projectile of the player
    with speed -12 or a red projectile of an enemy with speed 5. *)
Theorem projectiles_in_flight (w : World) :
  reachable w -> Forall projectileOk (projectiles (game w)).
Proof. intros Hr. apply (reachable_entitiesOk w Hr). Qed.

Lemma projectiles_in_flight_witness :
  reachable clearedWorld /\ Forall projectileOk (projectiles (game clearedWorld)).
Proof.
  assert (Hr : reachable clearedWorld).
  { apply reachable_frames. apply reachable_start; [apply reachable_init | discriminate]. }
  split; [exact Hr|]. exact (projectiles_in_flight clearedWorld Hr).
Defined.

(** X9. In every reachable world each powerup is an unmarked 20 x 20 box
    with [y <= 600], and each particle is an unmarked 3 x 3 box with
    [0 < life <= 1]. *)
Theorem powerups_and_particles (w : World) :
  reachable w ->
  Forall powerupOk (powerups (game w)) /\ Forall particleOk (particles (game w)).
Proof. intros Hr. apply (reachable_entitiesOk w Hr). Qed.

Lemma powerups_and_particles_witness :
  reachable clearedWorld /\
  Forall powerupOk (powerups (game clearedWorld)) /\
  Forall particleOk (particles (game clearedWorld)).
Proof.
  assert (Hr : reachable clearedWorld).
  { apply reachable_frames. apply reachable_start; [apply reachable_init | discriminate]. }
  split; [exact Hr|]. exact (powerups_and_particles clearedWorld Hr).
Defined.

(** *** The ship *)

(** X10. With left and right held together the ship stays where it is,
    unless it is at the left edge or beyond ([x <= 0]), where it moves 8 to
    the right. *)
Theorem left_and_right_held (env : Env) (w : World) (h : Host) :
  reachable w ->
  left (input env) = true -> right (input env) = true ->
  let '(_, g', _) := playerPhase env (game w) h in
  GameObject.x (player g') ==
  if 0 <? GameObject.x (player (game w))
  then GameObject.x (player (game w))
  else GameObject.x (player (game w)) + 8.
Proof.
  intros Hr Hl Hrt. apply reachable_Inv in Hr. destruct Hr as [(Hs & Hw & Hlat) _ _ _ _ _].
  destruct (playerPhase_spec env (game w) h) as (g1 & h1 & E & Hobj & _).
  rewrite E, Hobj, Player_move_x. cbv zeta. rewrite Hl, Hrt, Hs, Hw.
  cbn [andb]. apply onLattice_bounds in Hlat. unfold GAME_WIDTH.
  destruct (0 <? GameObject.x (player (game w))) eqn:E0.
  - match goal with |- context [if ?c then _ else _] => destruct c eqn:E1 end.
    + rewrite !Qred_correct. lra.
    + apply Qlt_bool_false_iff in E1. rewrite Qred_correct in E1. lra.
  - match goal with |- context [if ?c then _ else _] => destruct c eqn:E1 end.
    + rewrite Qred_correct. lra.
    + apply Qlt_bool_false_iff in E0. apply Qlt_bool_false_iff in E1. lra.
Qed.

Lemma left_and_right_held_witness :
  reachable world1 /\ left (input bothEnv) = true /\ right (input bothEnv) = true /\
  let '(_, g', _) := playerPhase bothEnv (game world1) (host0 world1) in
  GameObject.x (player g') ==
  if 0 <? GameObject.x (player (game world1))
  then GameObject.x (player (game world1))
  else GameObject.x (player (game world1)) + 8.
Proof.
  assert (Hr : reachable world1)
    by (apply reachable_start; [apply reachable_init | discriminate]).
  split; [exact Hr|]. split; [reflexivity|]. split; [reflexivity|].
  exact (left_and_right_held bothEnv world1 (host0 world1) Hr eq_refl eq_refl).
Defined.

(** *** Particles *)

Lemma set_particles_twice g ps ps' :
  set_particles (set_particles g ps) ps' = set_particles g ps'.
Proof. reflexivity. Qed.

Lemma blind_ret {A} (a : A) : blind (ret a).
Proof. intros env g h ps. exists ps. reflexivity. Qed.

Lemma blind_bind {A B} (m : M Game A) (k : A -> M Game B) :
  blind m -> (forall a, blind (k a)) -> blind (bind m k).
Proof.
  intros Hm Hk env g h ps. unfold bind.
  destruct (Hm env g h ps) as (ps1 & E1). rewrite E1.
  destruct (m env g h) as [[a g1] h1].
  destruct (Hk a env g1 h1 ps1) as (ps2 & E2). rewrite E2.
  exists ps2. reflexivity.
Qed.

Lemma blind_gets {A} (f : Game -> A) :
  (forall g ps, f (set_particles g ps) = f g) -> blind (gets f).
Proof. intros Hf env g h ps. exists ps. unfold gets. rewrite Hf. reflexivity. Qed.

Lemma blind_modify (f : Game -> Game) :
  (forall g ps, exists ps', f (set_particles g ps) = set_particles (f g) ps') ->
  blind (modify f).
Proof.
  intros Hf env g h ps. destruct (Hf g ps) as (ps' & E). exists ps'.
  unfold modify. rewrite E. reflexivity.
Qed.

Lemma blind_host {A} (m : Env -> Host -> A * Host) :
  blind (fun env g h => let '(a, h') := m env h in (a, g, h')).
Proof. intros env g h ps. exists ps. destruct (m env h). reflexivity. Qed.

Lemma blind_emit e : blind (@emit Game e).
Proof. intros env g h ps. exists ps. reflexivity. Qed.

Lemma blind_setGameState s : blind (@setGameState Game s).
Proof. intros env g h ps. exists ps. reflexivity. Qed.

Lemma blind_Math_random : blind (@Math_random Game).
Proof. intros env g h ps. exists ps. reflexivity. Qed.

Lemma blind_Date_now : blind (@Date_now Game).
Proof. intros env g h ps. exists ps. reflexivity. Qed.

Lemma blind_getInput : blind (@getInput Game).
Proof. intros env g h ps. exists ps. reflexivity. Qed.

Lemma blind_if {A} (c : bool) (m1 m2 : M Game A) :
  blind m1 -> blind m2 -> blind (if c then m1 else m2).
Proof. destruct c; trivial. Qed.

Lemma blind_forEach {A} (f : A -> M Game A) l :
  (forall a, blind (f a)) -> blind (forEach f l).
Proof.
  intros Hf. induction l as [|a l IH]; cbn [forEach].
  - apply blind_ret.
  - apply blind_bind; [apply Hf|]. intros a'.
    apply blind_bind; [exact IH|]. intros r. apply blind_ret.
Qed.

Lemma blind_forEachWith {A B} (f : B -> A -> M Game (B * A)) b l :
  (forall b a, blind (f b a)) -> blind (forEachWith f b l).
Proof.
  intros Hf. revert b. induction l as [|a l IH]; intros b; cbn [forEachWith].
  - apply blind_ret.
  - apply blind_bind; [apply Hf|]. intros ba.
    apply blind_bind; [apply IH|]. intros r. apply blind_ret.
Qed.

Lemma blind_repeatM n (body : M Game unit) : blind body -> blind (repeatM n body).
Proof.
  intros Hb. induction n as [|n IH]; cbn [repeatM].
  - apply blind_ret.
  - apply blind_bind; [exact Hb|]. intros _. exact IH.
Qed.

(** A field update and a push commute with a change of the particles. *)
Ltac blind_field :=
  intros ? ?; eexists; reflexivity.

Ltac blind_step :=
  lazymatch goal with
  | |- blind (ret _) => apply blind_ret
  | |- blind (emit _) => apply blind_emit
  | |- blind (setGameState _) => apply blind_setGameState
  | |- blind Math_random => apply blind_Math_random
  | |- blind Date_now => apply blind_Date_now
  | |- blind getInput => apply blind_getInput
  | |- blind (gets _) => apply blind_gets; intros ? ?; reflexivity
  | |- blind (modify _) => apply blind_modify; blind_field
  | |- blind (bind _ _) => apply blind_bind; [|intros ?]
  | |- blind (if _ then _ else _) => apply blind_if
  | |- blind (forEach _ _) => apply blind_forEach; intros ?
  | |- blind (forEachWith _ _ _) => apply blind_forEachWith; intros ? ?
  | |- blind (repeatM _ _) => apply blind_repeatM
  end.

Ltac blind_auto := repeat blind_step.

Lemma blind_spawnParticles n x y c : blind (spawnParticles n x y c).
Proof. unfold spawnParticles, Particle.new. blind_auto. Qed.

Lemma blind_hitEnemy p e : blind (hitEnemy p e).
Proof.
  unfold hitEnemy, playSound, setScore. blind_auto; apply blind_spawnParticles.
Qed.

Lemma blind_hitPlayer p : blind (hitPlayer p).
Proof.
  unfold hitPlayer, playSound, setLives. blind_auto; apply blind_spawnParticles.
Qed.

Lemma blind_projectileStep p : blind (projectileStep p).
Proof.
  unfold projectileStep. cbv zeta. blind_auto;
    [apply blind_hitEnemy | apply blind_hitPlayer].
Qed.

Lemma blind_powerupStep p : blind (powerupStep p).
Proof.
  unfold powerupStep, playSound, setLives. cbv zeta. blind_auto;
    apply blind_spawnParticles.
Qed.

Lemma blind_enemyStep b e : blind (enemyStep b e).
Proof. unfold enemyStep, playSound, setLives. cbv zeta. blind_auto. Qed.

Lemma blind_initEnemies : blind initEnemies.
Proof. unfold initEnemies. cbv zeta. blind_auto. Qed.

Lemma blind_playerPhase : blind playerPhase.
Proof. unfold playerPhase, Player.update, playSound. cbv zeta. blind_auto. Qed.

Lemma blind_frame : blind frame.
Proof.
  unfold frame, enemyPhase, waveCompletion, projectilePhase, powerupPhase, sweep.
  apply blind_bind; [apply blind_playerPhase | intros _].
  blind_auto;
    first [apply blind_enemyStep | apply blind_initEnemies
          | apply blind_projectileStep | apply blind_powerupStep].
Qed.

(** X11. Particles are cosmetic: a frame run from a world with other
    particles leaves the same host (game state, events, calls of
    [Math.random]) and the same world but for its particles. *)
Theorem particles_are_cosmetic (env : Env) (g : Game) (h : Host) (ps : list Particle.t) :
  let '(_, g1, h1) := frame env g h in
  let '(_, g2, h2) := frame env (set_particles g ps) h in
  h2 = h1 /\
  player g2 = player g1 /\ projectiles g2 = projectiles g1 /\
  enemies g2 = enemies g1 /\ powerups g2 = powerups g1 /\
  score g2 = score g1 /\ lives g2 = lives g1 /\ level g2 = level g1 /\
  enemyDir g2 = enemyDir g1.
Proof.
  destruct (blind_frame env g h ps) as (ps' & E). rewrite E.
  destruct (frame env g h) as [[u g1] h1]. repeat split.
Qed.

(** *** The HUD in the course of a frame *)

Lemma lastLives_gameoverRun n r d :
  lastLives (gameoverRun n ++ r) d = match n with O => lastLives r d | S _ => 0%Z end.
Proof. destruct n; reflexivity. Qed.

Lemma lastScore_gameoverRun n r d :
  lastScore (gameoverRun n ++ r) d = lastScore r d.
Proof. induction n as [|n IH]; simpl; trivial. Qed.

Lemma no_collision_pointsHit p es :
  existsb (collides p) es = false ->
  pointsHit p es = 0%Z /\ map (markIfHit p) es = es.
Proof.
  unfold pointsHit. induction es as [|e es IH]; simpl; intros H; [auto|].
  apply orb_false_iff in H. destruct H as [H1 H2]. unfold collides in H1.
  destruct (IH H2) as [E1 E2]. unfold markIfHit at 1. rewrite H1, E1, E2. auto.
Qed.

Lemma hitLoop_events p es env g h dl ds :
  let '(_, _, h1) := forEachWith hitEnemy p es env g h in
  lastLives (events h1) dl = lastLives (events h) dl /\
  (existsb (collides p) es = false -> lastScore (events h1) ds = lastScore (events h) ds).
Proof.
  pose proof (@forEachWith_ind Game Enemy.t Projectile.t env hitEnemy es
                (fun pre b g1 h1 =>
                   (b = p \/ b = Projectile.mark p) /\
                   lastLives (events h1) dl = lastLives (events h) dl /\
                   (existsb (collides p) pre = false ->
                    lastScore (events h1) ds = lastScore (events h) ds))
                (fun _ _ => True)) as L.
  assert (Hstep : forall pre a post b w h0,
             es = pre ++ a :: post ->
             ((b = p \/ b = Projectile.mark p) /\
              lastLives (events h0) dl = lastLives (events h) dl /\
              (existsb (collides p) pre = false ->
               lastScore (events h0) ds = lastScore (events h) ds)) ->
             let '(ba, w', h') := hitEnemy b a env w h0 in
             ((fst ba = p \/ fst ba = Projectile.mark p) /\
              lastLives (events h') dl = lastLives (events h) dl /\
              (existsb (collides p) (pre ++ [a]) = false ->
               lastScore (events h') ds = lastScore (events h) ds)) /\ True).
  { intros pre a post b w h0 _ (Hb & Hl & Hs). rewrite hitEnemy_exact.
    assert (Ec : checkCollision b a = checkCollision p a)
      by (destruct Hb as [-> | ->]; reflexivity).
    rewrite Ec. rewrite existsb_app. cbn [existsb]. rewrite orb_false_r.
    unfold collides at 2.
    destruct (checkCollision p a); cbn [fst]; (split; [|trivial]).
    - split; [destruct Hb as [-> | ->]; now right|].
      split; [exact Hl|]. rewrite orb_true_r. discriminate.
    - split; [exact Hb|]. split; [exact Hl|]. rewrite orb_false_r. exact Hs. }
  specialize (L Hstep p g h).
  destruct (forEachWith hitEnemy p es env g h) as [[r w'] h'].
  destruct L as [(_ & Hl & Hs) _]; [|split; assumption].
  split; [now left|]. split; trivial.
Qed.

Lemma hitLoop_scored p es env g h ds :
  existsb (collides p) es = true ->
  let '(_, g1, h1) := forEachWith hitEnemy p es env g h in
  lastScore (events h1) ds = score g1.
Proof.
  intros Hex.
  pose proof (@forEachWith_ind Game Enemy.t Projectile.t env hitEnemy es
                (fun pre b g1 h1 =>
                   (b = p \/ b = Projectile.mark p) /\
                   (existsb (collides p) pre = true ->
                    lastScore (events h1) ds = score g1))
                (fun _ _ => True)) as L.
  assert (Hstep : forall pre a post b w h0,
             es = pre ++ a :: post ->
             ((b = p \/ b = Projectile.mark p) /\
              (existsb (collides p) pre = true -> lastScore (events h0) ds = score w)) ->
             let '(ba, w', h') := hitEnemy b a env w h0 in
             ((fst ba = p \/ fst ba = Projectile.mark p) /\
              (existsb (collides p) (pre ++ [a]) = true ->
               lastScore (events h') ds = score w')) /\ True).
  { intros pre a post b w h0 _ (Hb & Hs). rewrite hitEnemy_exact.
    assert (Ec : checkCollision b a = checkCollision p a)
      by (destruct Hb as [-> | ->]; reflexivity).
    rewrite Ec. rewrite existsb_app. cbn [existsb]. rewrite orb_false_r.
    unfold collides at 2.
    destruct (checkCollision p a); cbn [fst]; (split; [|trivial]).
    - split; [destruct Hb as [-> | ->]; now right|].
      intros _. unfold dropPowerup. destruct (Enemy.hasPowerup a); reflexivity.
    - split; [exact Hb|]. rewrite orb_false_r. exact Hs. }
  specialize (L Hstep p g h).
  destruct (forEachWith hitEnemy p es env g h) as [[r w'] h'].
  destruct L as [(_ & Hs) _]; [|exact (Hs Hex)].
  split; [now left | discriminate].
Qed.

Lemma projectileStep_hud p env g h dl ds g0 h0 :
  livesShown dl g h -> scoreShown ds g0 h0 g h ->
  let '(_, g1, h1) := projectileStep p env g h in
  livesShown dl g1 h1 /\ scoreShown ds g0 h0 g1 h1.
Proof.
  unfold livesShown, scoreShown. intros Hl Hs.
  destruct (Projectile.isPlayer p) eqn:Hp.
  - pose proof (hitLoop_events (Projectile.update p) (enemies g) env g h dl ds) as Hev.
    pose proof (hitLoop_scored (Projectile.update p) (enemies g) env g h ds) as Hsc.
    destruct (hitEnemies_spec (Projectile.update p) (enemies g) env g h)
      as (pus & pts & k & evs & _ & E).
    unfold projectileStep. cbv zeta. rewrite Projectile_update_isPlayer, Hp. sim.
    rewrite E in *. sim. destruct Hev as [Hev1 Hev2].
    cbn [events withHost] in *. split; [congruence|].
    destruct (existsb (collides (Projectile.update p)) (enemies g)) eqn:Ex.
    + left. apply Hsc. reflexivity.
    + destruct (no_collision_pointsHit _ _ Ex) as [E1 E2].
      rewrite (Hev2 eq_refl), E1, E2, Z.add_0_r. exact Hs.
  - rewrite (@projectileStep_enemy p env g h Hp), hitPlayer_exact.
    destruct (checkCollision (Projectile.update p) (player g)); [|auto].
    norm. split.
    + destruct (lives g - 1 <=? 0)%Z; reflexivity.
    + assert (Es : forall r, lastScore
                 (((if (lives g - 1 <=? 0)%Z
                    then [PlaySound snd_gameover; SetGameState GAMEOVER] else [])
                   ++ [PlaySound snd_explosion; SetLives (lives g - 1)]) ++ r) ds =
                 lastScore r ds)
        by (intros r; destruct (lives g - 1 <=? 0)%Z; reflexivity).
      rewrite Es. exact Hs.
Qed.

Lemma projectilePhase_hud env g h dl ds :
  livesShown dl g h ->
  let '(_, g1, h1) := projectilePhase env g h in
  livesShown dl g1 h1 /\
  (lastScore (events h) ds = score g -> lastScore (events h1) ds = score g1) /\
  (lastScore (events h1) ds = score g1 \/
   (lastScore (events h1) ds = lastScore (events h) ds /\
    score g1 = score g /\ enemies g1 = enemies g)).
Proof.
  intros Hl. unfold projectilePhase. sim.
  pose proof (@forEach_inv Game Projectile.t env projectileStep (projectiles g)
                (fun g1 h1 => livesShown dl g1 h1 /\ scoreShown ds g h g1 h1)
                (fun _ _ => True)) as L.
  assert (Hstep : forall a w h0, In a (projectiles g) ->
             livesShown dl w h0 /\ scoreShown ds g h w h0 ->
             let '(a', w', h') := projectileStep a env w h0 in
             (livesShown dl w' h' /\ scoreShown ds g h w' h') /\ True).
  { intros a w h0 _ [H1 H2].
    pose proof (projectileStep_hud a env w h0 dl ds g h H1 H2) as H.
    destruct (projectileStep a env w h0) as [[a' w'] h']. split; trivial. }
  assert (H0 : livesShown dl g h /\ scoreShown ds g h g h).
  { split; [exact Hl|]. right. auto. }
  specialize (L Hstep g h H0).
  destruct (forEach projectileStep (projectiles g) env g h) as [[ps' w'] h'].
  destruct L as [[H1 H2] _]. sim. unfold livesShown, scoreShown in *. proj.
  split; [exact H1|]. split; [|exact H2].
  intros E. destruct H2 as [H2 | (H2 & H3 & _)]; congruence.
Qed.

Lemma powerupPhase_hud env g h dl ds :
  livesShown dl g h ->
  let '(_, g1, h1) := powerupPhase env g h in
  livesShown dl g1 h1 /\ lastScore (events h1) ds = lastScore (events h) ds /\
  score g1 = score g /\ enemies g1 = enemies g.
Proof.
  intros Hl. unfold powerupPhase. sim.
  pose proof (@forEach_inv Game Powerup.t env powerupStep (powerups g)
                (fun g1 h1 => livesShown dl g1 h1 /\
                              lastScore (events h1) ds = lastScore (events h) ds /\
                              score g1 = score g /\ enemies g1 = enemies g)
                (fun _ _ => True)) as L.
  assert (Hstep : forall a w h0, In a (powerups g) ->
             (livesShown dl w h0 /\
              lastScore (events h0) ds = lastScore (events h) ds /\
              score w = score g /\ enemies w = enemies g) ->
             let '(a', w', h') := powerupStep a env w h0 in
             (livesShown dl w' h' /\
              lastScore (events h') ds = lastScore (events h) ds /\
              score w' = score g /\ enemies w' = enemies g) /\ True).
  { intros a w h0 _ H. rewrite powerupStep_exact.
    destruct (checkCollision (Powerup.update a) (player w)); [|auto].
    destruct H as (H1 & H2 & H3 & H4). unfold livesShown. norm. auto. }
  specialize (L Hstep g h).
  destruct (forEach powerupStep (powerups g) env g h) as [[ps' w'] h'].
  destruct L as [H _]; [auto|]. sim. unfold livesShown in *. proj. exact H.
Qed.

Lemma filter_alive_unmarked {A} (obj : A -> GameObject.t) (l : list A) :
  unmarked obj l -> filter (alive obj) l = l.
Proof.
  induction 1 as [|a l Ha _ IH]; simpl; trivial.
  unfold alive at 1. rewrite Ha. simpl. f_equal. exact IH.
Qed.

Lemma unmarked_enemiesAfterMove g :
  unmarked Enemy.obj (enemies g) -> unmarked Enemy.obj (enemiesAfterMove g).
Proof.
  intros Hu. unfold enemiesAfterMove, unmarked.
  destruct (hitEdge g); rewrite ?Forall_map; revert Hu; apply Forall_impl;
    intros e He; exact He.
Qed.

(** What the HUD shows after a frame: the lives of the game; and the score
    of the game, unless no enemy was hit in the frame. *)
Lemma frame_hud env g h dl ds :
  livesShown dl g h ->
  let '(_, g', h') := frame env g h in
  livesShown dl g' h' /\
  (lastScore (events h') ds = score g' \/
   (lastScore (events h') ds = lastScore (events h) ds /\
    score g' = (score g + match enemies g with [] => 1000 | _ :: _ => 0 end)%Z /\
    (unmarked Enemy.obj (enemies g) -> enemies g' <> []))).
Proof.
  intros Hl. rewrite frame_unfold.
  destruct (playerPhase_spec env g h) as
    (g1 & h1 & E1 & _ & _ & _ & _ & Hes1 & _ & _ & Hsc1 & Hli1 & _ & Hdir1 & _ & evs1 & Hev1 & Hevs1).
  rewrite E1.
  destruct (enemyPhase_spec env g1 h1) as
    (shots & g2 & h2 & _ & E2 & _ & _ & Hes2 & _ & _ & Hsc2 & Hli2 & _ & _ & _ & Hev2).
  rewrite E2.
  destruct (waveCompletion_spec env g2 h2) as
    (g3 & h3 & E3 & _ & _ & _ & _ & Hli3 & _ & Hwave3 & Hkeep3 & _ & Hsc3 & _ & Hev3).
  rewrite E3.
  assert (Hl1 : lastLives (events h1) dl = lives g1 /\
                lastScore (events h1) ds = lastScore (events h) ds).
  { unfold livesShown in Hl. rewrite Hev1, Hli1.
    destruct Hevs1 as [-> | ->]; cbn; auto. }
  destruct Hl1 as [Hl1 Hs1].
  assert (Hl3 : livesShown dl g3 h3).
  { unfold livesShown. rewrite Hev3, Hev2, Hli3, Hli2, lastLives_gameoverRun.
    unfold livesAfterEnemies. destruct (lowEnemies g1); simpl; [exact Hl1 | reflexivity]. }
  assert (Hs3 : lastScore (events h3) ds = lastScore (events h) ds).
  { rewrite Hev3, Hev2, lastScore_gameoverRun. exact Hs1. }
  pose proof (projectilePhase_hud env g3 h3 dl ds Hl3) as H4.
  destruct (projectilePhase env g3 h3) as [[u4 g4] h4].
  destruct H4 as (Hl4 & _ & Hs4).
  pose proof (powerupPhase_hud env g4 h4 dl ds Hl4) as H5.
  destruct (powerupPhase env g4 h4) as [[u5 g5] h5].
  destruct H5 as (Hl5 & Hs5 & Hsc5 & Hes5).
  rewrite sweep_eq. unfold livesShown in *. proj.
  split; [exact Hl5|].
  destruct Hs4 as [Hs4 | (Hs4 & Hsc4 & Hes4)]; [left; congruence|].
  right. split; [congruence|].
  assert (Hnil : enemies g2 = [] <-> enemies g = []).
  { rewrite Hes2. unfold enemiesAfterMove.
    assert (Hh : hitEdge g1 = hitEdge g /\ map (advance g1) (enemies g1) = map (advance g) (enemies g))
      by (apply hitEdge_congr; assumption).
    destruct Hh as [-> ->].
    destruct (enemies g); simpl; [destruct (hitEdge g); tauto|].
    destruct (hitEdge g); simpl; split; discriminate. }
  split.
  - rewrite Hsc5, Hsc4, Hsc3, Hsc2, Hsc1.
    destruct (enemies g) eqn:Eg; destruct (enemies g2) eqn:Eg2; trivial.
    + destruct Hnil as [_ Hn]. discriminate (Hn eq_refl).
    + destruct Hnil as [Hn _]. discriminate (Hn eq_refl).
  - intros Hu. rewrite Hes5, Hes4.
    assert (Hu2 : unmarked Enemy.obj (enemies g2)).
    { rewrite Hes2. apply unmarked_enemiesAfterMove. rewrite Hes1. exact Hu. }
    destruct (enemies g2) eqn:Eg2.
    + destruct (Hwave3 eq_refl) as (r & ->).
      rewrite (filter_alive_unmarked Enemy.obj _ (wave_unmarked r)). discriminate.
    + rewrite Hkeep3 by discriminate.
      rewrite (filter_alive_unmarked Enemy.obj _ Hu2). discriminate.
Qed.

(** *** The application *)

Lemma applyEvent_fields b a e :
  App.world (applyEvent b a e) = App.world a /\
  App.showInfo (applyEvent b a e) = App.showInfo a /\
  App.isMobile (applyEvent b a e) = App.isMobile a /\
  App.inputRef (applyEvent b a e) = App.inputRef a.
Proof. destruct e; cbn; auto. Qed.

Lemma fold_applyEvent_fields b evs a :
  App.world (fold_left (applyEvent b) evs a) = App.world a /\
  App.showInfo (fold_left (applyEvent b) evs a) = App.showInfo a /\
  App.isMobile (fold_left (applyEvent b) evs a) = App.isMobile a /\
  App.inputRef (fold_left (applyEvent b) evs a) = App.inputRef a.
Proof.
  revert a. induction evs as [|e evs IH]; intros a; simpl; [auto|].
  destruct (IH (applyEvent b a e)) as (H1 & H2 & H3 & H4).
  destruct (applyEvent_fields b a e) as (E1 & E2 & E3 & E4).
  rewrite H1, H2, H3, H4. auto.
Qed.

Lemma fold_applyEvent_hud b evs a :
  App.score (fold_left (applyEvent b) evs a) = lastScore (rev evs) (App.score a) /\
  App.lives (fold_left (applyEvent b) evs a) = lastLives (rev evs) (App.lives a).
Proof.
  revert a. induction evs as [|e evs IH] using rev_ind; intros a; [auto|].
  rewrite fold_left_app, rev_app_distr. cbn [fold_left rev app].
  destruct (IH a) as [H1 H2]. destruct e; cbn; auto.
Qed.

Lemma runIn_fields m b a :
  App.world (runIn m b a) = fst (run m (envOf b (App.inputRef a)) (App.world a)) /\
  App.showInfo (runIn m b a) = App.showInfo a /\
  App.isMobile (runIn m b a) = App.isMobile a /\
  App.inputRef (runIn m b a) = App.inputRef a.
Proof.
  unfold runIn. destruct (run m _ _) as [w evs].
  destruct (fold_applyEvent_fields b evs (set_world a w)) as (H1 & H2 & H3 & H4).
  rewrite H1, H2, H3, H4. auto.
Qed.

(** [startGame] of [App]: it ends at [resume], or it runs [startGame] from
    the application with the audio context. *)
Lemma App_startGame_cases b a :
  let o := AudioService.resume (audio b) (App.audioService a) (App.audioContexts a) in
  let a1 := set_audio a (AudioService.service o) (AudioService.built o) in
  (AudioService.result o = None /\ a1 = a /\ App_startGame b a = a) \/
  (AudioService.result o = Some tt /\
   App_startGame b a = set_showInfo (runIn startGame b a1) false).
Proof.
  cbv zeta. unfold App_startGame, AudioService.resume, AudioService.getContext. cbv zeta.
  destruct (AudioService.ctx (App.audioService a)) eqn:E; cbn.
  - right. auto.
  - destruct (AudioService.constructs (audio b)); cbn.
    + right. auto.
    + left. destruct a as [? ? ? ? ? ? [c] ?]. cbn in *. auto.
Qed.

Lemma App_startGame_world b a :
  App.world (App_startGame b a) = App.world a \/
  App.world (App_startGame b a) =
    fst (run startGame (envOf b (App.inputRef a)) (App.world a)).
Proof.
  destruct (App_startGame_cases b a) as [(_ & _ & ->) | (_ & ->)]; [now left|].
  right. cbn [set_showInfo App.world].
  match goal with |- App.world (runIn _ _ ?a1) = _ =>
    destruct (runIn_fields startGame b a1) as (H & _); exact H end.
Qed.

Lemma App_startGame_inputRef b a : App.inputRef (App_startGame b a) = App.inputRef a.
Proof.
  destruct (App_startGame_cases b a) as [(_ & _ & ->) | (_ & ->)]; [reflexivity|].
  cbn [set_showInfo App.inputRef].
  match goal with |- App.inputRef (runIn _ _ ?a1) = _ =>
    destruct (runIn_fields startGame b a1) as (_ & _ & _ & H); exact H end.
Qed.

(** The world of the application, step by step: it stays, or [startGame]
    runs outside PLAYING, or a frame runs. *)
Lemma step_world b act a :
  enabled a act = true ->
  App.world (step b act a) = App.world a \/
  (state (App.world a) <> PLAYING /\
   exists env, App.world (step b act a) = fst (run startGame env (App.world a))) \/
  (exists env, App.world (step b act a) = fst (run animate env (App.world a))).
Proof.
  intros Hen. destruct act; cbn [step]; try (left; reflexivity).
  - (* KeyDown *)
    cbv zeta.
    destruct (String.eqb code "Enter" && _) eqn:E; [|left; reflexivity].
    apply andb_true_iff in E. destruct E as [_ E].
    destruct (App_startGame_world b (set_inputRef a (handleKey true code (App.inputRef a))))
      as [-> | ->]; [left; reflexivity|].
    right. left. split.
    + intros Hs. cbn [set_inputRef App.world] in E. rewrite Hs in E. discriminate.
    + eexists. reflexivity.
  - (* ClickJugar *)
    destruct (App_startGame_world b a) as [-> | ->]; [left; reflexivity|].
    right. left. cbn [enabled mounted] in Hen. apply andb_true_iff in Hen.
    destruct Hen as [Hen _]. apply GameState_eqb_eq in Hen. split.
    + rewrite Hen. discriminate.
    + eexists. reflexivity.
  - (* ClickReintentar *)
    destruct (App_startGame_world b a) as [-> | ->]; [left; reflexivity|].
    right. left. cbn [enabled mounted] in Hen. apply GameState_eqb_eq in Hen. split.
    + rewrite Hen. discriminate.
    + eexists. reflexivity.
  - (* AnimationFrame *)
    right. right. eexists. apply runIn_fields.
Qed.

Lemma appReachable_world a : appReachable a -> reachable (App.world a).
Proof.
  induction 1 as [|b act a Ha IH Hen].
  - apply reachable_init.
  - destruct (step_world b act a Hen) as [E | [(Hs & env & E) | (env & E)]]; rewrite E.
    + exact IH.
    + apply reachable_start; assumption.
    + apply reachable_animate; assumption.
Qed.

Lemma step_key b a (down : bool) code :
  String.eqb code "Enter" = false ->
  step b ((if down then KeyDown else KeyUp) code) a =
  set_inputRef a (handleKey down code (App.inputRef a)).
Proof.
  intros E. destruct down; cbn [step]; [|reflexivity].
  cbv zeta. rewrite E. reflexivity.
Qed.

(** The keys bring the controls to any state, and leave the world. *)
Lemma steps_setInput b i a :
  appReachable a ->
  appReachable (steps (map (pair b) (setInput i)) a) /\
  App.world (steps (map (pair b) (setInput i)) a) = App.world a /\
  App.inputRef (steps (map (pair b) (setInput i)) a) = i.
Proof.
  intros Ha. cbn [setInput map steps]. split.
  - repeat apply appReachable_step; try exact Ha;
      destruct i as [[|] [|] [|]]; reflexivity.
  - rewrite !step_key by reflexivity. split; [reflexivity|].
    destruct i as [l r s]. destruct (App.inputRef a) as [l0 r0 s0]. reflexivity.
Qed.

Lemma App_startGame_audio b a :
  AudioService.constructs (audio b) = true ->
  App.world (App_startGame b a) =
  fst (run startGame (envOf b (App.inputRef a)) (App.world a)).
Proof.
  intros Hc. destruct (App_startGame_cases b a) as [(Hn & _) | (_ & ->)].
  - exfalso. revert Hn. unfold AudioService.resume, AudioService.getContext.
    rewrite Hc. destruct (AudioService.ctx (App.audioService a)); discriminate.
  - cbn [set_showInfo App.world].
    match goal with |- App.world (runIn _ _ ?a1) = _ =>
      destruct (runIn_fields startGame b a1) as (H & _); exact H end.
Qed.

Lemma envOf_browserOf env : envOf (browserOf env) (input env) = env.
Proof. destruct env; reflexivity. Qed.

(** Every reachable world is the world of the application after some
    actions of the user, in a browser with audio. *)
Lemma reachable_in_app w : reachable w -> exists a, appReachable a /\ App.world a = w.
Proof.
  induction 1 as [|env w Hr (a & Ha & Ew) Hst|env w Hr (a & Ha & Ew)].
  - exists app0. split; [apply appReachable_init | reflexivity].
  - destruct (steps_setInput (browserOf env) (input env) a Ha) as (Ha' & Ew' & Ei').
    exists (step (browserOf env) (KeyDown "Enter")
                 (steps (map (pair (browserOf env)) (setInput (input env))) a)).
    split; [apply appReachable_step; [exact Ha' | reflexivity]|].
    cbn [step]. cbv zeta. cbn [set_inputRef App.world]. rewrite Ew', Ew.
    destruct (state w) eqn:Es; try (exfalso; apply Hst; reflexivity);
      cbn [String.eqb Ascii.eqb Bool.eqb GameState_eqb negb andb];
      rewrite App_startGame_audio by reflexivity;
      cbn [set_inputRef App.world App.inputRef]; rewrite Ew', Ew, Ei';
      change (handleKey true "Enter" (input env)) with (input env);
      rewrite envOf_browserOf; reflexivity.
  - destruct (steps_setInput (browserOf env) (input env) a Ha) as (Ha' & Ew' & Ei').
    exists (step (browserOf env) AnimationFrame
                 (steps (map (pair (browserOf env)) (setInput (input env))) a)).
    split; [apply appReachable_step; [exact Ha' | reflexivity]|].
    cbn [step].
    match goal with |- App.world (runIn _ _ ?a1) = _ =>
      destruct (runIn_fields animate (browserOf env) a1) as (H & _); rewrite H end.
    rewrite Ew', Ew, Ei', envOf_browserOf. reflexivity.
Qed.

(** X12. The worlds of the application are exactly the reachable worlds.
    Whatever the user does (keys, the buttons of the screen that is
    rendered, touch controls, frames), the world is a reachable one: the
    application offers [startGame] only outside PLAYING. And every
    reachable world is the world of the application after some actions, in
    a browser with audio: the keys set the controls, Enter starts the game.
    What holds in all reachable worlds holds in the application, and no
    more. *)
Theorem app_world_reachable (w : World) :
  reachable w <-> exists a, appReachable a /\ App.world a = w.
Proof.
  split.
  - apply reachable_in_app.
  - intros (a & Ha & E). rewrite <- E. apply appReachable_world. exact Ha.
Qed.

Lemma app_world_reachable_witness : reachable (App.world app1).
Proof.
  apply (proj2 (app_world_reachable (App.world app1))).
  exists app1. split; [|reflexivity].
  exact (@appReachable_step browser0 ClickJugar app0 appReachable_init eq_refl).
Defined.

(** *** The screens *)

Lemma App_startGame_showInfo b a :
  (App.showInfo a = true -> state (App.world a) = START) ->
  App.showInfo (App_startGame b a) = true ->
  state (App.world (App_startGame b a)) = START.
Proof.
  intros Hinv. destruct (App_startGame_cases b a) as [(_ & _ & ->) | (_ & ->)].
  - exact Hinv.
  - cbn [set_showInfo App.showInfo]. discriminate.
Qed.

Lemma step_showInfo b act a :
  enabled a act = true ->
  (App.showInfo a = true -> state (App.world a) = START) ->
  App.showInfo (step b act a) = true -> state (App.world (step b act a)) = START.
Proof.
  intros Hen Hinv.
  destruct act; cbn [step]; trivial.
  - cbv zeta. destruct (String.eqb code "Enter" && _); [apply App_startGame_showInfo|];
      exact Hinv.
  - apply App_startGame_showInfo. exact Hinv.
  - intros _. cbn [enabled mounted] in Hen. apply andb_true_iff in Hen.
    destruct Hen as [Hen _]. apply GameState_eqb_eq in Hen. exact Hen.
  - apply App_startGame_showInfo. exact Hinv.
  - cbn. discriminate.
  - destruct (runIn_fields animate b a) as (Hw & Hs & _). rewrite Hw, Hs.
    intros Hi. specialize (Hinv Hi).
    rewrite run_animate_idle; [exact Hinv|]. rewrite Hinv. discriminate.
Qed.

Lemma appReachable_showInfo a :
  appReachable a -> App.showInfo a = true -> state (App.world a) = START.
Proof.
  induction 1 as [|b act a Ha IH Hen].
  - discriminate.
  - apply step_showInfo; assumption.
Qed.

(** X13. One screen at a time: in every state of the application exactly
    one of the start screen, the instructions, the game over screen and
    the logo of a running game is rendered; the instructions are shown
    only in START. *)
Theorem one_screen_at_a_time (a : App.t) :
  appReachable a ->
  (App.showInfo a = true -> state (App.world a) = START) /\
  exists wd,
    In wd [StartScreen; InfoScreen; GameOverScreen; PlayingLogo] /\
    forall wd', In wd' [StartScreen; InfoScreen; GameOverScreen; PlayingLogo] ->
                (mounted a wd' = true <-> wd' = wd).
Proof.
  intros Ha. pose proof (appReachable_showInfo a Ha) as Hi.
  split; [exact Hi|].
  assert (Hp : state (App.world a) <> PAUSED)
    by (destruct (reachable_state _ (appReachable_world a Ha)) as [-> | [-> | ->]];
        discriminate).
  unfold mounted. cbv zeta.
  destruct (state (App.world a)) eqn:Es; [| | |contradiction].
  - destruct (App.showInfo a) eqn:Ei.
    + exists InfoScreen. split; [simpl; auto|].
      intros wd' [<- | [<- | [<- | [<- | []]]]]; cbn; rewrite ?Ei; split; congruence.
    + exists StartScreen. split; [simpl; auto|].
      intros wd' [<- | [<- | [<- | [<- | []]]]]; cbn; rewrite ?Ei; split; congruence.
  - assert (Ei : App.showInfo a = false).
    { destruct (App.showInfo a); [discriminate (Hi eq_refl) | reflexivity]. }
    exists PlayingLogo. split; [simpl; auto|].
    intros wd' [<- | [<- | [<- | [<- | []]]]]; cbn; rewrite ?Ei; split; congruence.
  - assert (Ei : App.showInfo a = false).
    { destruct (App.showInfo a); [discriminate (Hi eq_refl) | reflexivity]. }
    exists GameOverScreen. split; [simpl; auto|].
    intros wd' [<- | [<- | [<- | [<- | []]]]]; cbn; rewrite ?Ei; split; congruence.
Qed.

Lemma one_screen_at_a_time_witness :
  appReachable app1 /\
  (App.showInfo app1 = true -> state (App.world app1) = START) /\
  exists wd,
    In wd [StartScreen; InfoScreen; GameOverScreen; PlayingLogo] /\
    forall wd', In wd' [StartScreen; InfoScreen; GameOverScreen; PlayingLogo] ->
                (mounted app1 wd' = true <-> wd' = wd).
Proof.
  assert (Ha : appReachable app1)
    by (exact (@appReachable_step browser0 ClickJugar app0 appReachable_init eq_refl)).
  split; [exact Ha|]. exact (one_screen_at_a_time app1 Ha).
Defined.

(** *** The HUD *)

Lemma hudOk_fields a a' :
  App.world a' = App.world a -> App.score a' = App.score a -> App.lives a' = App.lives a ->
  hudOk a -> hudOk a'.
Proof. unfold hudOk. intros -> -> ->. trivial. Qed.

Lemma hudOk_runIn_startGame b a :
  hudOk a -> hudOk (runIn startGame b a).
Proof.
  intros H. unfold runIn. rewrite run_startGame.
  destruct (needsInit (game (App.world a))); cbn.
  - unfold hudOk. cbn. repeat split; auto. lia.
  - exact H.
Qed.

Lemma hudOk_runIn_animate b a :
  reachable (App.world a) -> hudOk a -> hudOk (runIn animate b a).
Proof.
  intros Hr (Hl & H0 & Hs).
  destruct (GameState_eqb (state (App.world a)) PLAYING) eqn:Est.
  2:{ unfold runIn. rewrite run_animate_idle.
      - cbn. destruct a; repeat split; assumption.
      - intros E. rewrite E in Est. discriminate. }
  pose proof (reachable_animate (envOf b (App.inputRef a)) Hr) as Hr'.
  assert (Hls : (1 <= level (game (fst (run animate (envOf b (App.inputRef a)) (App.world a)))))%Z /\
                (1800 * (level (game (fst (run animate (envOf b (App.inputRef a))
                                                (App.world a)))) - 1)
                 <= score (game (fst (run animate (envOf b (App.inputRef a))
                                           (App.world a)))))%Z).
  { destruct (reachable_state _ Hr') as [-> | Hs'].
    - cbn. lia.
    - destruct (reachable_accounted _ Hr') as (H1 & H2 & H3 & _); [|lia].
      destruct Hs' as [-> | ->]; discriminate. }
  destruct Hls as [Hlev Hsc'].
  pose proof (inv_unmarked (reachable_Inv _ Hr)) as Hu.
  revert Hr' Hlev Hsc'.
  unfold runIn, run, animate. cbn [gameState]. rewrite Est.
  pose proof (frame_hud (envOf b (App.inputRef a)) (game (App.world a))
                {| gameState := state (App.world a); randomCalls := 0; events := [] |}
                (App.lives a) (App.score a)) as F.
  destruct (frame _ _ _) as [[u g'] h']. cbn [fst game]. intros Hr' Hlev Hsc'.
  destruct F as [F1 F2]; [exact Hl|].
  destruct (fold_applyEvent_hud b (rev (events h'))
              (set_world a {| game := g'; state := gameState h' |})) as [E1 E2].
  rewrite rev_involutive in E1, E2. cbn [set_world App.score App.lives] in E1, E2.
  destruct (fold_applyEvent_fields b (rev (events h'))
              (set_world a {| game := g'; state := gameState h' |})) as (Ew & _).
  unfold hudOk. cbv zeta. rewrite Ew, E1, E2. cbn [set_world App.world game].
  unfold livesShown in F1. split; [exact F1|].
  cbn [events] in F2.
  destruct F2 as [F2 | (F2 & F3 & F4)].
  - rewrite F2. split; [lia | now left].
  - change (lastScore [] (App.score a)) with (App.score a) in F2. rewrite F2.
    split; [exact H0|]. specialize (F4 Hu).
    destruct (enemies (game (App.world a))) eqn:Eg.
    + destruct Hs as [Hs | [_ Hs]]; [|contradiction]. right. split; [lia | exact F4].
    + destruct Hs as [Hs | [Hs _]]; [left; lia | right; split; [lia | exact F4]].
Qed.

Lemma hudOk_startGame b a : hudOk a -> hudOk (App_startGame b a).
Proof.
  intros H. destruct (App_startGame_cases b a) as [(_ & _ & ->) | (_ & ->)]; [exact H|].
  match goal with |- hudOk (set_showInfo (runIn _ _ ?a1) _) =>
    apply (hudOk_fields (runIn startGame b a1)); try reflexivity;
    apply hudOk_runIn_startGame; apply (hudOk_fields a); try reflexivity; exact H
  end.
Qed.

Lemma appReachable_hudOk a : appReachable a -> hudOk a.
Proof.
  induction 1 as [|b act a Ha IH Hen].
  - unfold hudOk. cbn. repeat split; auto. lia.
  - pose proof (appReachable_world a Ha) as Hr.
    destruct act; cbn [step];
      try (apply (hudOk_fields a); [reflexivity | reflexivity | reflexivity | exact IH]).
    + cbv zeta. destruct (String.eqb code "Enter" && _).
      * apply hudOk_startGame.
        apply (hudOk_fields a); [reflexivity | reflexivity | reflexivity | exact IH].
      * apply (hudOk_fields a); [reflexivity | reflexivity | reflexivity | exact IH].
    + apply hudOk_startGame. exact IH.
    + apply hudOk_startGame. exact IH.
    + apply hudOk_runIn_animate; assumption.
Qed.

(** X14. The HUD shows the lives of the game: the React state [lives] is
    [g.lives] in every state of the application, and the text of the HUD is
    one heart for each life, between 0 and 5 hearts; it is never the
    [RangeError] of a negative [repeat], also when [g.lives] is negative. *)
Theorem hud_lives (a : App.t) :
  appReachable a ->
  App.lives a = lives (game (App.world a)) /\
  exists k : nat,
    livesText a = Some (concatN heart k) /\ (k <= 5)%nat /\
    Z.of_nat k = Z.max 0 (lives (game (App.world a))).
Proof.
  intros Ha. destruct (appReachable_hudOk a Ha) as (Hl & _).
  split; [exact Hl|].
  pose proof (inv_lives_max (reachable_Inv _ (appReachable_world a Ha))) as Hmax.
  exists (Z.to_nat (Z.max 0 (App.lives a))).
  unfold livesText, String_repeat.
  destruct (Z.max 0 (App.lives a) <? 0)%Z eqn:E; [apply Z.ltb_lt in E; lia|].
  split; [reflexivity|]. rewrite Hl. lia.
Qed.

Lemma hud_lives_witness :
  appReachable app1 /\
  App.lives app1 = lives (game (App.world app1)) /\
  exists k : nat,
    livesText app1 = Some (concatN heart k) /\ (k <= 5)%nat /\
    Z.of_nat k = Z.max 0 (lives (game (App.world app1))).
Proof.
  assert (Ha : appReachable app1)
    by (exact (@appReachable_step browser0 ClickJugar app0 appReachable_init eq_refl)).
  split; [exact Ha|]. exact (hud_lives app1 Ha).
Defined.

(** X15. The HUD shows the score of the game, or 1000 less: the bonus of a
    cleared wave is added to [g.score] without a call of [setScore], and it
    reaches the HUD with the next enemy that is hit. *)
Theorem hud_score (a : App.t) :
  appReachable a ->
  let g := game (App.world a) in
  App.score a = score g \/
  (score g = (App.score a + 1000)%Z /\ enemies g <> []).
Proof. intros Ha. apply (appReachable_hudOk a Ha). Qed.

Lemma hud_score_witness :
  appReachable app1 /\
  let g := game (App.world app1) in
  App.score app1 = score g \/
  (score g = (App.score app1 + 1000)%Z /\ enemies g <> []).
Proof.
  assert (Ha : appReachable app1)
    by (exact (@appReachable_step browser0 ClickJugar app0 appReachable_init eq_refl)).
  split; [exact Ha|]. exact (hud_score app1 Ha).
Defined.

Lemma length_repeatChar c n : String.length (repeatChar c n) = n.
Proof. induction n as [|n IH]; simpl; congruence. Qed.

Lemma length_append (s t : string) :
  String.length (s ++ t) = (String.length s + String.length t)%nat.
Proof. induction s as [|c s IH]; simpl; congruence. Qed.

Lemma padStart_length s n c :
  String.length (padStart s n c) = Nat.max n (String.length s).
Proof. unfold padStart. rewrite length_append, length_repeatChar. lia. Qed.

Lemma uint_of_zeros n s d :
  NilEmpty.uint_of_string s = Some d ->
  NilEmpty.uint_of_string (repeatChar "0" n ++ s) = Some (Nat.iter n Decimal.D0 d).
Proof.
  intros H. induction n as [|n IH]; simpl; [exact H|]. rewrite IH. reflexivity.
Qed.

Lemma of_uint_zeros n d : Z.of_uint (Nat.iter n Decimal.D0 d) = Z.of_uint d.
Proof. induction n as [|n IH]; simpl; [reflexivity | exact IH]. Qed.

Lemma Number_toString_parse (n : Z) :
  (0 <= n)%Z ->
  exists d, NilEmpty.uint_of_string (Number_toString n) = Some d /\ Z.of_uint d = n.
Proof.
  intros Hn. unfold Number_toString.
  destruct n as [|p|p]; [| |lia].
  - exists (Decimal.D0 Decimal.Nil). split; reflexivity.
  - cbn [Z.to_int NilZero.string_of_int]. exists (Pos.to_uint p).
    split.
    + unfold NilZero.string_of_uint.
      destruct (Pos.to_uint p) eqn:E; try apply NilEmpty.usu.
      exfalso. exact (DecimalPos.Unsigned.to_uint_nonnil p E).
    + unfold Z.of_uint. rewrite DecimalPos.Unsigned.of_to. reflexivity.
Qed.

(** X16. The score text of the HUD is the React state [score] in decimal,
    padded with zeros on the left to six characters (and longer when the
    score has more digits): read as a number, it is the score. *)
Theorem hud_score_text (a : App.t) :
  appReachable a ->
  String.length (scoreText a) =
    Nat.max 6 (String.length (Number_toString (App.score a))) /\
  exists d, NilEmpty.uint_of_string (scoreText a) = Some d /\ Z.of_uint d = App.score a.
Proof.
  intros Ha. destruct (appReachable_hudOk a Ha) as (_ & H0 & _).
  unfold scoreText. split; [apply padStart_length|].
  destruct (Number_toString_parse (App.score a) H0) as (d & Hd & Hz).
  unfold padStart. eexists. split; [apply uint_of_zeros; exact Hd|].
  rewrite of_uint_zeros. exact Hz.
Qed.

Lemma hud_score_text_witness :
  appReachable app1 /\
  String.length (scoreText app1) =
    Nat.max 6 (String.length (Number_toString (App.score app1))) /\
  exists d, NilEmpty.uint_of_string (scoreText app1) = Some d /\
            Z.of_uint d = App.score app1.
Proof.
  assert (Ha : appReachable app1)
    by (exact (@appReachable_step browser0 ClickJugar app0 appReachable_init eq_refl)).
  split; [exact Ha|]. exact (hud_score_text app1 Ha).
Defined.

(** *** The controls *)

Lemma held_handleKey c active code i :
  held c (handleKey active code i) =
  if String.eqb code (keyOf c) then active else held c i.
Proof.
  unfold handleKey.
  destruct (String.eqb_spec code "ArrowLeft") as [E1 | E1];
    destruct (String.eqb_spec code "ArrowRight") as [E2 | E2];
    destruct (String.eqb_spec code "Space") as [E3 | E3];
    try (exfalso; congruence);
    destruct c; cbn [keyOf held set_left set_right set_shoot left right shoot];
    match goal with
    | |- context [String.eqb code ?k] => destruct (String.eqb_spec code k) as [E | E]
    end; try reflexivity; exfalso; congruence.
Qed.

Lemma step_held c b act a :
  held c (App.inputRef (step b act a)) =
  match pressOf c act with Some v => v | None => held c (App.inputRef a) end.
Proof.
  destruct act; cbn [step pressOf].
  - assert (E : forall a0 : App.t,
               App.inputRef (if String.eqb code "Enter" &&
                                negb (GameState_eqb (state (App.world a0)) PLAYING)
                             then App_startGame b a0 else a0) = App.inputRef a0).
    { intros a0. destruct (String.eqb code "Enter" && _);
        rewrite ?App_startGame_inputRef; reflexivity. }
    cbv zeta. rewrite E. cbn [set_inputRef App.inputRef].
    rewrite held_handleKey. destruct (String.eqb code (keyOf c)); reflexivity.
  - cbn [set_inputRef App.inputRef].
    rewrite held_handleKey. destruct (String.eqb code (keyOf c)); reflexivity.
  - rewrite App_startGame_inputRef. reflexivity.
  - reflexivity.
  - rewrite App_startGame_inputRef. reflexivity.
  - reflexivity.
  - destruct key, c; reflexivity.
  - destruct c; reflexivity.
  - reflexivity.
  - destruct (runIn_fields animate b a) as (_ & _ & _ & ->). reflexivity.
Qed.

(** X17. A control is held exactly when its last press or release was a
    press: the keyboard and the touch buttons write the same three flags of
    [inputRef], and nothing else changes them (starting or restarting a
    game does not release a control). *)
Theorem control_follows_last_event (c : Control) (l : list (Browser * Action)) (a : App.t) :
  held c (App.inputRef (steps l a)) = latest c (map snd l) (held c (App.inputRef a)).
Proof.
  revert a. induction l as [|[b act] l IH]; intros a; cbn [steps map snd latest]; trivial.
  rewrite IH, step_held. reflexivity.
Qed.

(** *** The audio service *)










(** X19. [playSound] never throws. When it has a context it plays one
    oscillator through one gain node, from the current time for the
    duration of the sound (0.1, 0.3, 1.5 or 0.3 s): every ramp ends when
    the oscillator stops, no exponential ramp has the target 0, the gain
    stays within [0, 0.1] and the frequency within [10, 1200]. *)
Theorem playSound_tone (type : Sound) (b : AudioService.Browser) (this : AudioService.t)
        (n : nat) :
  let o := AudioService.playSound type b this n in
  let now := AudioService.currentTime b in
  AudioService.result o = Some tt /\
  (AudioService.calls o = [] \/ AudioService.calls o = AudioService.tone type now) /\
  (forall t, In (AudioService.start t) (AudioService.tone type now) -> t == now) /\
  (forall t, In (AudioService.stop t) (AudioService.tone type now) ->
             t == now + AudioService.duration type) /\
  (forall p v t,
     In (AudioService.exponentialRampToValueAtTime p v t) (AudioService.tone type now) ->
     0 < v /\ t == now + AudioService.duration type) /\
  (forall p v t,
     In (AudioService.linearRampToValueAtTime p v t) (AudioService.tone type now) ->
     0 <= v /\ t == now + AudioService.duration type) /\
  (forall c v, In c (AudioService.tone type now) ->
               AudioService.valueOf AudioService.gain c = Some v -> 0 <= v <= 0.1) /\
  (forall c v, In c (AudioService.tone type now) ->
               AudioService.valueOf AudioService.frequency c = Some v -> 10 <= v <= 1200).
Proof.
  cbv zeta. split; [|split].
  - unfold AudioService.playSound, AudioService.getContext. cbv zeta.
    destruct (AudioService.ctx this); cbn;
      try (destruct (AudioService.constructs b); cbn); reflexivity.
  - unfold AudioService.playSound, AudioService.getContext. cbv zeta.
    destruct (AudioService.ctx this); cbn;
      try (destruct (AudioService.constructs b); cbn); auto.
  - repeat split; intros;
      destruct type; simpl in *;
      repeat match goal with
             | H : _ \/ _ |- _ => destruct H as [H | H]
             | H : False |- _ => contradiction
             | H : _ = AudioService.start _ |- _ => inversion H; clear H; subst
             | H : _ = AudioService.stop _ |- _ => inversion H; clear H; subst
             | H : _ = AudioService.exponentialRampToValueAtTime _ _ _ |- _ =>
                 inversion H; clear H; subst
             | H : _ = AudioService.linearRampToValueAtTime _ _ _ |- _ =>
                 inversion H; clear H; subst
             end;
      try reflexivity; try lra; subst; cbn in *;
      try discriminate;
      try match goal with H : Some _ = Some _ |- _ => injection H as <- end; lra.
Qed.



(** *** Pictures *)

Ltac box_points :=
  intros c pt Hc Hpt; simpl in Hc;
  repeat (destruct Hc as [<- | Hc]; [simpl in Hpt | ]); try contradiction;
  repeat (destruct Hpt as [<- | Hpt]; [unfold inBox; cbn [fst snd]; lra | ]);
  try contradiction.

Lemma projectile_drawn_in_box (p : Projectile.t) :
  0 <= GameObject.width p -> 0 <= GameObject.height p ->
  forall c pt, In c (Projectile_draw p) -> In pt (Canvas.points c) -> inBox 0 p pt.
Proof. intros Hw Hh. unfold Projectile_draw. box_points. Qed.

Lemma enemy_drawn_in_box (e : Enemy.t) :
  8 <= GameObject.width e -> GameObject.width e <= GameObject.height e ->
  forall c pt, In c (Enemy_draw e) -> In pt (Canvas.points c) -> inBox 0 e pt.
Proof.
  intros Hw Hh. unfold Enemy_draw. cbv zeta.
  assert (Hw2 : GameObject.width e / 2 == GameObject.width e * (1 # 2)) by reflexivity.
  assert (Hh2 : GameObject.height e / 2 == GameObject.height e * (1 # 2)) by reflexivity.
  destruct (Enemy.type e =? 1)%Z; [|destruct (Enemy.type e =? 2)%Z];
    destruct (Enemy.hasPowerup e); cbn [app];
    intros c pt Hc Hpt; simpl in Hc;
    repeat (destruct Hc as [<- | Hc]; [simpl in Hpt | ]); try contradiction;
    repeat (destruct Hpt as [<- | Hpt];
            [unfold inBox; cbn [fst snd]; rewrite ?Hw2, ?Hh2; lra | ]);
    try contradiction.
Qed.

Lemma powerup_drawn_in_box (q : Powerup.t) :
  0 <= GameObject.width q -> GameObject.width q <= GameObject.height q ->
  forall c pt, In c (Powerup_draw q) -> In pt (Canvas.points c) -> inBox 0 q pt.
Proof.
  intros Hw Hh. unfold Powerup_draw. cbv zeta.
  assert (Hw2 : GameObject.width q / 2 == GameObject.width q * (1 # 2)) by reflexivity.
  assert (Hh2 : GameObject.height q / 2 == GameObject.height q * (1 # 2)) by reflexivity.
  intros c pt Hc Hpt; simpl in Hc;
    repeat (destruct Hc as [<- | Hc]; [simpl in Hpt | ]); try contradiction;
    repeat (destruct Hpt as [<- | Hpt];
            [unfold inBox; cbn [fst snd]; rewrite ?Hw2, ?Hh2; lra | ]);
    try contradiction.
Qed.

Lemma particle_drawn_in_box (p : Particle.t) :
  0 <= GameObject.width p -> 0 <= GameObject.height p ->
  forall c pt, In c (Particle_draw p) -> In pt (Canvas.points c) -> inBox 0 p pt.
Proof. intros Hw Hh. unfold Particle_draw. box_points. Qed.

Lemma player_drawn_near_box (p : Player.t) :
  0 <= GameObject.width p -> 0 <= GameObject.height p ->
  forall c pt, In c (Player_draw p) -> In pt (Canvas.points c) -> inBox 10 p pt.
Proof. intros Hw Hh. unfold Player_draw. cbv zeta. box_points. Qed.

(** X21. What is drawn for an entity lies in its collision box: every
    corner, end point, control point and circle that [draw] passes to the
    context is within the box of the entity; only the two flames of the
    ship reach 10 beyond its box, to the left, to the right and below.
    (An enemy is at least 8 wide and not wider than high, a powerup not
    wider than high: all enemies are 35 x 35 and all powerups 20 x 20.) *)
Theorem drawn_inside_box (e : Entity) (c : Canvas.Cmd) (pt : Q * Q) :
  wellSized e -> In c (draw e) -> In pt (Canvas.points c) ->
  inBox (margin e) (objOf e) pt.
Proof.
  destruct e as [p | p | e | p | p]; intros [Hw Hh]; cbn [draw margin objOf].
  - apply player_drawn_near_box; assumption.
  - apply projectile_drawn_in_box; assumption.
  - apply enemy_drawn_in_box; assumption.
  - apply powerup_drawn_in_box; assumption.
  - apply particle_drawn_in_box; assumption.
Qed.

Lemma drawn_inside_box_witness :
  let e := AnEnemy (Enemy.new 200 50 2 false) in
  let c := Canvas.arc (200 + 35 / 2) (50 + 35 / 2) (35 / 2) in
  let pt := (200 + 35 / 2 - 35 / 2, 50 + 35 / 2 - 35 / 2) in
  wellSized e /\ In c (draw e) /\ In pt (Canvas.points c) /\
  inBox (margin e) (objOf e) pt.
Proof.
  cbv zeta.
  assert (H1 : wellSized (AnEnemy (Enemy.new 200 50 2 false)))
    by (split; discriminate).
  assert (H2 : In (Canvas.arc (200 + 35 / 2) (50 + 35 / 2) (35 / 2))
                  (draw (AnEnemy (Enemy.new 200 50 2 false))))
    by (cbn; auto 10).
  assert (H3 : In (200 + 35 / 2 - 35 / 2, 50 + 35 / 2 - 35 / 2)
                  (Canvas.points (Canvas.arc (200 + 35 / 2) (50 + 35 / 2) (35 / 2))))
    by (now left).
  split; [exact H1|]. split; [exact H2|]. split; [exact H3|].
  exact (drawn_inside_box _ _ _ H1 H2 H3).
Defined.

Lemma trace_app s cs1 cs2 :
  Canvas.trace s (cs1 ++ cs2) =
  Canvas.trace s cs1 ++ Canvas.trace (fold_left Canvas.exec cs1 s) cs2.
Proof.
  revert s. induction cs1 as [|c cs1 IH]; intros s; simpl; [reflexivity|].
  rewrite IH. reflexivity.
Qed.

Lemma Math_max_range (l : Q) : l <= 1 -> 0 <= Math_max 0 l <= 1.
Proof.
  intros H. unfold Math_max. destruct (0 <? l) eqn:E.
  - apply Qlt_bool_iff in E. lra.
  - lra.
Qed.

Ltac paint_cases Hin Hp :=
  simpl in Hin;
  repeat (destruct Hin as [Hin | Hin]; [injection Hin as <- <-; try discriminate Hp |]);
  try contradiction; cbn; repeat split; trivial; try lra; try reflexivity.

Lemma draw_one (e : Entity) :
  dimmed e ->
  fold_left Canvas.exec (draw e) Canvas.clean = Canvas.clean /\
  forall s c, In (s, c) (Canvas.trace Canvas.clean (draw e)) -> Canvas.paints c = true ->
    0 <= Canvas.alpha s <= 1 /\
    ((0 < Canvas.blur s /\ Canvas.alpha s == 1) \/ Canvas.blur s == 0).
Proof.
  intros Hd. destruct e as [p | p | e | p | p]; cbn [draw].
  - split; [reflexivity|]. intros s c Hin Hp. paint_cases Hin Hp; try (left; split; reflexivity).
  - split; [reflexivity|]. intros s c Hin Hp. paint_cases Hin Hp; try (left; split; reflexivity).
  - unfold Enemy_draw. cbv zeta.
    destruct (Enemy.type e =? 1)%Z; [|destruct (Enemy.type e =? 2)%Z];
      destruct (Enemy.hasPowerup e); cbn [app];
      (split; [reflexivity|]); intros s c Hin Hp; paint_cases Hin Hp;
      try (left; split; reflexivity).
  - split; [reflexivity|]. intros s c Hin Hp. paint_cases Hin Hp; try (left; split; reflexivity).
  - split; [reflexivity|]. intros s c Hin Hp. cbn [dimmed] in Hd.
    pose proof (Math_max_range _ Hd) as [H0 H1].
    paint_cases Hin Hp; try (right; reflexivity).
Qed.

Lemma draw_all (ents : list Entity) :
  Forall dimmed ents ->
  fold_left Canvas.exec (flat_map draw ents) Canvas.clean = Canvas.clean /\
  forall s c, In (s, c) (Canvas.trace Canvas.clean (flat_map draw ents)) ->
    Canvas.paints c = true ->
    0 <= Canvas.alpha s <= 1 /\
    ((0 < Canvas.blur s /\ Canvas.alpha s == 1) \/ Canvas.blur s == 0).
Proof.
  induction 1 as [|e ents He _ IH]; cbn [flat_map].
  - split; [reflexivity|]. intros s c [].
  - destruct (draw_one e He) as [E1 H1]. destruct IH as [E2 H2].
    rewrite fold_left_app, E1. split; [exact E2|].
    intros s c Hin Hp. rewrite trace_app, E1 in Hin. apply in_app_or in Hin.
    destruct Hin as [Hin | Hin]; [apply (H1 s c Hin Hp) | apply (H2 s c Hin Hp)].
Qed.

(** X22. Every [draw] leaves the context as it found it: after the picture
    of a frame, whatever the entities and their order, [shadowBlur] is 0
    and [globalAlpha] is 1 again, as on a new canvas, so that the next
    frame clears the canvas without a glow. In the picture every painting
    call is made with an alpha within [0, 1], and either with a glow and
    alpha 1 or without a glow (the canvas and the particles). *)
Theorem picture_context (ents : list Entity) :
  Forall dimmed ents ->
  fold_left Canvas.exec (picture ents) Canvas.clean = Canvas.clean /\
  forall s c, In (s, c) (Canvas.trace Canvas.clean (picture ents)) ->
    Canvas.paints c = true ->
    0 <= Canvas.alpha s <= 1 /\
    ((0 < Canvas.blur s /\ Canvas.alpha s == 1) \/ Canvas.blur s == 0).
Proof.
  intros Hd. destruct (draw_all ents Hd) as [E H]. unfold picture.
  rewrite fold_left_app. split; [exact E|].
  intros s c Hin Hp. rewrite trace_app in Hin. apply in_app_or in Hin.
  destruct Hin as [Hin | Hin]; [|exact (H s c Hin Hp)].
  simpl in Hin. destruct Hin as [Hin | [Hin | []]]; injection Hin as <- <-;
    [discriminate Hp|].
  cbn. split; [split; discriminate | right; reflexivity].
Qed.

Lemma picture_context_witness :
  let ents := [ThePlayer Player.new; AnEnemy (Enemy.new 200 50 1 true)] in
  Forall dimmed ents /\
  fold_left Canvas.exec (picture ents) Canvas.clean = Canvas.clean /\
  forall s c, In (s, c) (Canvas.trace Canvas.clean (picture ents)) ->
    Canvas.paints c = true ->
    0 <= Canvas.alpha s <= 1 /\
    ((0 < Canvas.blur s /\ Canvas.alpha s == 1) \/ Canvas.blur s == 0).
Proof.
  cbv zeta.
  assert (Hd : Forall dimmed [ThePlayer Player.new; AnEnemy (Enemy.new 200 50 1 true)])
    by (repeat constructor).
  split; [exact Hd|]. exact (picture_context _ Hd).
Defined.
